(** * TCL formatter and syntax validator: a shallow embedding of
    [src/formatter.py] and the properties its specification states.

    Python strings are modelled as lists of characters ([list ascii], the
    code points below 256), Python lists as Rocq lists, indices and line
    numbers as [nat], indentation levels (which the code lets go negative)
    as [Z].  Code that can raise returns a [result]. *)

From Stdlib Require Import String DecimalString.
From Stdlib Require Import List Ascii ZArith Lia Bool Arith Sorted.
Import ListNotations.

(** ** Python string primitives *)

Module Py.

Definition str := list ascii.

(** A string literal as a Python string. *)
Definition py (s : String.string) : str := String.list_ascii_of_string s.
Arguments py : simpl never.

Definition eqc (a b : ascii) : bool := Ascii.eqb a b.

(** The double-quote character. *)
Definition dquote : ascii := ascii_of_nat 34.

(** [str.isspace] for one character, on the code points below 256. *)
Definition isspace (c : ascii) : bool :=
  let n := nat_of_ascii c in
  ((9 <=? n) && (n <=? 13)) || ((28 <=? n) && (n <=? 32))
  || (n =? 133) || (n =? 160).

Fixpoint dropwhile (p : ascii -> bool) (l : str) : str :=
  match l with
  | [] => []
  | c :: r => if p c then dropwhile p r else l
  end.

Fixpoint takewhile (p : ascii -> bool) (l : str) : str :=
  match l with
  | [] => []
  | c :: r => if p c then c :: takewhile p r else []
  end.

Definition lstrip (l : str) : str := dropwhile isspace l.
Definition rstrip (l : str) : str := rev (dropwhile isspace (rev l)).
Definition strip (l : str) : str := rstrip (lstrip l).

Fixpoint startswith (l p : str) : bool :=
  match p, l with
  | [], _ => true
  | _ :: _, [] => false
  | a :: p', b :: l' => eqc a b && startswith l' p'
  end.

Definition endswith (l p : str) : bool := startswith (rev l) (rev p).

Fixpoint str_eqb (a b : str) : bool :=
  match a, b with
  | [], [] => true
  | x :: a', y :: b' => eqc x y && str_eqb a' b'
  | _, _ => false
  end.

(** [c in s] for a one-character [c]. *)
Definition contains (s : str) (c : ascii) : bool := existsb (eqc c) s.

(** [s.find(c)] and [s.rfind(c)] for a one-character [c]: the index of the
    first (last) occurrence, or [-1]. *)
Fixpoint find_from (s : str) (c : ascii) (i : Z) : Z :=
  match s with
  | [] => (-1)%Z
  | x :: r => if eqc x c then i else find_from r c (i + 1)%Z
  end.

Definition find (s : str) (c : ascii) : Z := find_from s c 0%Z.

Fixpoint rfind_from (s : str) (c : ascii) (i : Z) (last : Z) : Z :=
  match s with
  | [] => last
  | x :: r => rfind_from r c (i + 1)%Z (if eqc x c then i else last)
  end.

Definition rfind (s : str) (c : ascii) : Z := rfind_from s c 0%Z (-1)%Z.

(** A slice bound brought into [0..len], as Python does. *)
Definition clamp (len i : Z) : Z :=
  if (i <? 0)%Z then Z.max 0 (i + len) else Z.min i len.

(** [s[a:b]] *)
Definition slice (s : str) (a b : Z) : str :=
  let n := Z.of_nat (length s) in
  let a' := clamp n a in
  let b' := clamp n b in
  firstn (Z.to_nat (b' - a')) (skipn (Z.to_nat a') s).

(** [s[a:]] and [s[:b]] *)
Definition slice_from (s : str) (a : Z) : str :=
  slice s a (Z.of_nat (length s)).
Definition slice_to (s : str) (b : Z) : str := slice s 0%Z b.

(** [c * n] for an integer [n]: empty when [n <= 0]. *)
Definition times (c : ascii) (n : Z) : str := repeat c (Z.to_nat n).

(** [s.split()]: maximal runs of non-whitespace characters. *)
Fixpoint split_aux (cur : str) (l : str) : list str :=
  match l with
  | [] => match cur with [] => [] | _ => [rev cur] end
  | c :: r =>
      if isspace c
      then match cur with [] => split_aux [] r | _ => rev cur :: split_aux [] r end
      else split_aux (c :: cur) r
  end.

Definition split (l : str) : list str := split_aux [] l.

(** [s.split(None, 1)]: the first word, then the rest of the string with
    the white space before it removed (white space at its end is kept). *)
Definition split1 (l : str) : list str :=
  let l1 := lstrip l in
  match l1 with
  | [] => []
  | _ :: _ =>
      let w := takewhile (fun c => negb (isspace c)) l1 in
      let rest := lstrip (dropwhile (fun c => negb (isspace c)) l1) in
      match rest with
      | [] => [w]
      | _ :: _ => [w; rest]
      end
  end.

(** [str(n)] for a natural number. *)
Definition str_of_nat (n : nat) : str :=
  py (DecimalString.NilEmpty.string_of_uint (Nat.to_uint n)).

(** [sep.join(items)] *)
Fixpoint join (sep : str) (items : list str) : str :=
  match items with
  | [] => []
  | [x] => x
  | x :: r => x ++ sep ++ join sep r
  end.

(** Exceptions the modelled code can raise. *)
Inductive exn := ValueError | IndexError | IOError | PermissionError.

Inductive result (A : Type) :=
| Ok (a : A)
| Raise (e : exn).
Arguments Ok {A} a.
Arguments Raise {A} e.

Definition bind {A B} (m : result A) (k : A -> result B) : result B :=
  match m with
  | Ok a => k a
  | Raise e => Raise e
  end.

(** [l[i]] *)
Definition index {A} (l : list A) (i : nat) : result A :=
  match nth_error l i with
  | Some x => Ok x
  | None => Raise IndexError
  end.

(** [l[i] = v], on a copy. *)
Fixpoint setitem {A} (l : list A) (i : nat) (v : A) : result (list A) :=
  match l, i with
  | [], _ => Raise IndexError
  | _ :: r, O => Ok (v :: r)
  | x :: r, S k => bind (setitem r k v) (fun r' => Ok (x :: r'))
  end.

End Py.

Import Py.

Notation "x <- m ;; k" := (bind m (fun x => k))
  (at level 61, m at next level, right associativity).

(** ** SyntaxValidator *)

Record SyntaxError := mkSyntaxError {
  line_number : nat;
  message : str;
  error_type : str
}.

Record StackFrame := mkStackFrame {
  char : ascii;
  frame_line_number : nat;
  position : nat
}.

Module SyntaxValidator.

(** The two fields of the validator object.  The stack is a Python list:
    frames are appended and popped at its end. *)
Record t := mk {
  stack : list StackFrame;
  errors : list SyntaxError
}.

Definition init : t := mk [] [].

(** [list.pop()] on a non-empty list. *)
Definition list_pop {A} (l : list A) : option (list A * A) :=
  match rev l with
  | [] => None
  | x :: r => Some (rev r, x)
  end.

Definition _push (c : ascii) (line_num pos : nat) (stk : list StackFrame)
  : list StackFrame :=
  stk ++ [mkStackFrame c line_num pos].

Definition _pop (c : ascii) (line_num pos : nat) (stk : list StackFrame)
  : option SyntaxError * list StackFrame :=
  match list_pop stk with
  | None =>
      let error_type := if eqc c "}" then py "brace" else py "quote" in
      (Some (mkSyntaxError line_num
               (py "Unexpected closing " ++ [c] ++ py " with no matching opening")
               error_type),
       stk)
  | Some (stk', frame) =>
      if eqc c "}" && negb (eqc (char frame) "{") then
        (Some (mkSyntaxError line_num
                 (py "Unexpected closing brace, expected closing quote from line "
                    ++ str_of_nat (frame_line_number frame))
                 (py "brace")),
         stk' ++ [frame])
      else if eqc c dquote && negb (eqc (char frame) dquote) then
        (Some (mkSyntaxError line_num
                 (py "Unexpected closing quote, expected closing brace from line "
                    ++ str_of_nat (frame_line_number frame))
                 (py "quote")),
         stk' ++ [frame])
      else (None, stk')
  end.

(** [error = self._pop(...); if error: self.errors.append(error)] *)
Definition pop_report (c : ascii) (line_num pos : nat) (v : t) : t :=
  match _pop c line_num pos (stack v) with
  | (Some e, stk) => mk stk (errors v ++ [e])
  | (None, stk) => mk stk (errors v)
  end.

(** The [while i < len(line)] loop of [_process_line]; [l] is [line[i:]]. *)
Fixpoint scan (line_num : nat) (i : nat) (in_string : bool) (l : str) (v : t)
  : t :=
  match l with
  | [] => v
  | c :: rest =>
      let step_char :=
        if eqc c dquote then
          if in_string
          then scan line_num (i + 1) false rest (pop_report dquote line_num i v)
          else scan line_num (i + 1) true rest
                 (mk (_push dquote line_num i (stack v)) (errors v))
        else if negb in_string then
          if eqc c "{" then
            scan line_num (i + 1) in_string rest
              (mk (_push "{" line_num i (stack v)) (errors v))
          else if eqc c "}" then
            scan line_num (i + 1) in_string rest (pop_report "}" line_num i v)
          else scan line_num (i + 1) in_string rest v
        else scan line_num (i + 1) in_string rest v in
      if eqc c "\" then
        match rest with
        | _ :: rest' => scan line_num (i + 2) in_string rest' v
        | [] => step_char
        end
      else step_char
  end.

Definition _process_line (line : str) (line_num : nat) (v : t) : t :=
  let stripped := strip line in
  if startswith stripped (py "#") then v
  else scan line_num 0 false line v.

(** The inner [while] of [_handle_line_continuations] followed by the rest
    of the outer loop: [line] is the text gathered so far for the logical
    line numbered [line_num], [i] the index of the last physical line
    taken, [rest] is [lines[i+1:]]. *)
Fixpoint continue_line (line_num : nat) (line : str) (i : nat) (rest : list str)
  : list (nat * str) :=
  match rest with
  | [] => [(line_num, line)]
  | next :: rest' =>
      if endswith (rstrip line) (py "\")
      then continue_line line_num (removelast (rstrip line) ++ next) (i + 1) rest'
      else (line_num, line) :: continue_line (i + 1 + 1) next (i + 1) rest'
  end.

(** The outer loop entered at index [i] with [lines[i:]] left. *)
Definition continuations_from (i : nat) (lines : list str) : list (nat * str) :=
  match lines with
  | [] => []
  | line :: rest => continue_line (i + 1) line i rest
  end.

Definition _handle_line_continuations (lines : list str) : list (nat * str) :=
  continuations_from 0 lines.

Definition _check_remaining_stack (v : t) : t :=
  fold_left
    (fun v frame =>
       let error :=
         if eqc (char frame) "{"
         then mkSyntaxError (frame_line_number frame)
                (py "Unmatched opening brace") (py "brace")
         else mkSyntaxError (frame_line_number frame)
                (py "Unmatched opening quote") (py "quote") in
       mk (stack v) (errors v ++ [error]))
    (stack v) v.

Definition process_lines (processed : list (nat * str)) (v : t) : t :=
  fold_left (fun v nl => _process_line (snd nl) (fst nl) v) processed v.

Definition validate (lines : list str) : list SyntaxError :=
  let processed_lines := _handle_line_continuations lines in
  errors (_check_remaining_stack (process_lines processed_lines init)).

End SyntaxValidator.

(** ** IndentationEngine *)

Module IndentationEngine.

Definition INDENT_SIZE : Z := 2.

Definition BLOCK_KEYWORDS : list str :=
  [py "if"; py "else"; py "foreach"; py "while"; py "switch"; py "proc";
   py "namespace"].

(** [x in l] for a list of strings. *)
Definition mem (x : str) (l : list str) : bool := existsb (str_eqb x) l.

Definition _is_continuation_line (line : str) : bool :=
  if startswith line (py "#") then false
  else if startswith line (py "{") || startswith line (py "}") then false
  else
    let first_word := match split line with w :: _ => w | [] => [] end in
    if mem first_word BLOCK_KEYWORDS then false
    else
      let common_commands :=
        [py "set"; py "puts"; py "return"; py "source"; py "package";
         py "namespace"] in
      if mem first_word common_commands then false
      else false.

Definition _calculate_indent_level (strict_mode : bool) (line : str)
    (current_level : Z) (in_string : bool) : Z :=
  if in_string then current_level
  else if startswith line (py "}") then Z.max 0 (current_level - 1)%Z
  else if strict_mode && _is_continuation_line line then (current_level + 1)%Z
  else current_level.

(** The brace-counting loop of [_update_level_after_line]; the result is
    [(open_braces, close_braces)]. *)
Fixpoint count_braces (l : str) (in_line_string : bool) (opens closes : Z)
  : Z * Z :=
  match l with
  | [] => (opens, closes)
  | c :: rest =>
      let step_char :=
        let in_line_string :=
          if eqc c dquote then negb in_line_string else in_line_string in
        if negb in_line_string then
          if eqc c "{" then count_braces rest in_line_string (opens + 1)%Z closes
          else if eqc c "}" then
            count_braces rest in_line_string opens (closes + 1)%Z
          else count_braces rest in_line_string opens closes
        else count_braces rest in_line_string opens closes in
      if eqc c "\" then
        match rest with
        | _ :: rest' => count_braces rest' in_line_string opens closes
        | [] => step_char
        end
      else step_char
  end.

Definition _update_level_after_line (line : str) (line_level : Z)
    (in_string : bool) : Z :=
  if in_string then line_level
  else
    let '(open_braces, close_braces) := count_braces line false 0%Z 0%Z in
    let net_change := (open_braces - close_braces)%Z in
    if startswith line (py "}") then (line_level + net_change + 1)%Z
    else (line_level + net_change)%Z.

(** The quote-counting loop of [_update_string_state]. *)
Fixpoint count_quotes (l : str) (quote_count : nat) : nat :=
  match l with
  | [] => quote_count
  | c :: rest =>
      let step_char :=
        if eqc c dquote then count_quotes rest (quote_count + 1)
        else count_quotes rest quote_count in
      if eqc c "\" then
        match rest with
        | _ :: rest' => count_quotes rest' quote_count
        | [] => step_char
        end
      else step_char
  end.

Definition _update_string_state (line : str) (in_string : bool) : bool :=
  let quote_count := count_quotes line 0 in
  Nat.iter quote_count negb in_string.

(** The loop variables of [apply_indentation]. *)
Record state := mkstate {
  current_level : Z;
  in_string : bool
}.

Definition init : state := mkstate 0%Z false.

(** One iteration of the [for] loop: the line appended to [result] and
    the loop variables after it. *)
Definition indent_line (strict_mode : bool) (st : state) (line : str)
  : str * state :=
  let stripped := strip line in
  match stripped with
  | [] => (line, st)
  | _ :: _ =>
      if startswith stripped (py "#") then (line, st)
      else
        let line_level :=
          _calculate_indent_level strict_mode stripped
            (current_level st) (in_string st) in
        let indented_line := times " " (line_level * INDENT_SIZE)%Z ++ stripped in
        (indented_line,
         mkstate (_update_level_after_line stripped line_level (in_string st))
                 (_update_string_state stripped (in_string st)))
  end.

Fixpoint indent_loop (strict_mode : bool) (st : state) (lines : list str)
  : list str :=
  match lines with
  | [] => []
  | line :: rest =>
      let '(out, st') := indent_line strict_mode st line in
      out :: indent_loop strict_mode st' rest
  end.

Definition apply_indentation (strict_mode : bool) (lines : list str)
  : list str :=
  match lines with
  | [] => lines
  | _ :: _ => indent_loop strict_mode init lines
  end.

End IndentationEngine.

(** ** ListExpansionEngine *)

Module ListExpansionEngine.

Definition LIST_LENGTH_THRESHOLD : nat := 80.

(** [char in ' \t'] *)
Definition is_blank (c : ascii) : bool :=
  eqc c " " || eqc c (ascii_of_nat 9).

(** The loop variables of [_parse_list_items]. *)
Record pstate := mkp {
  items : list str;
  current_item : str;
  brace_depth : Z;
  in_string : bool
}.

Definition pinit : pstate := mkp [] [] 0%Z false.

Definition push_char (c : ascii) (s : pstate) : pstate :=
  mkp (items s) (current_item s ++ [c]) (brace_depth s) (in_string s).

(** [if current_item: items.append(''.join(current_item)); current_item = []] *)
Definition flush (s : pstate) : pstate :=
  match current_item s with
  | [] => s
  | _ :: _ => mkp (items s ++ [current_item s]) [] (brace_depth s) (in_string s)
  end.

(** The inner [while] of [_parse_list_items] that skips a run of blanks:
    [continue_at] takes the loop up again at the first character that is
    not a blank, [at_end] is the result when there is none. *)
Fixpoint skip_blanks {A} (continue_at : str -> A) (at_end : A) (r : str) : A :=
  match r with
  | [] => at_end
  | c :: r' =>
      if is_blank c then skip_blanks continue_at at_end r' else continue_at r
  end.

(** The main loop of [_parse_list_items] on [list_content[i:]]. *)
Fixpoint parse_loop (l : str) (s : pstate) : pstate :=
  match l with
  | [] => s
  | c :: rest =>
      let step_char :=
        if eqc c dquote then
          parse_loop rest
            (mkp (items s) (current_item s ++ [c]) (brace_depth s)
                 (negb (in_string s)))
        else if negb (in_string s) && eqc c "{" then
          parse_loop rest
            (mkp (items s) (current_item s ++ [c]) (brace_depth s + 1)%Z
                 (in_string s))
        else if negb (in_string s) && eqc c "}" then
          parse_loop rest
            (mkp (items s) (current_item s ++ [c]) (brace_depth s - 1)%Z
                 (in_string s))
        else if negb (in_string s) && (brace_depth s =? 0)%Z && is_blank c then
          skip_blanks (fun r => parse_loop r (flush s)) (flush s) rest
        else parse_loop rest (push_char c s) in
      if eqc c "\" then
        match rest with
        | c2 :: rest' => parse_loop rest' (push_char c2 (push_char c s))
        | [] => step_char
        end
      else step_char
  end.

Definition _parse_list_items (list_content : str) : list str :=
  items (flush (parse_loop list_content pinit)).

Definition _should_expand_list (line : str) : bool :=
  if length line <? LIST_LENGTH_THRESHOLD then false
  else
    let stripped := strip line in
    if startswith stripped (py "#") then false
    else if negb (contains stripped "{") || negb (contains stripped "}")
    then false
    else
      let open_brace_idx := find stripped "{" in
      let close_brace_idx := rfind stripped "}" in
      if (open_brace_idx =? -1)%Z || (close_brace_idx =? -1)%Z then false
      else if (close_brace_idx <=? open_brace_idx)%Z then false
      else
        let list_content :=
          strip (slice stripped (open_brace_idx + 1)%Z close_brace_idx) in
        match list_content with
        | [] => false
        | _ :: _ =>
            if contains list_content " "
               || contains list_content (ascii_of_nat 9)
            then true else false
        end.

Definition _expand_list (line : str) : list str :=
  let indent :=
    slice_to line (Z.of_nat (length line) - Z.of_nat (length (lstrip line)))%Z in
  let stripped := strip line in
  let open_brace_idx := find stripped "{" in
  let close_brace_idx := rfind stripped "}" in
  let before_list := slice_to stripped (open_brace_idx + 1)%Z in
  let list_content :=
    strip (slice stripped (open_brace_idx + 1)%Z close_brace_idx) in
  let after_list := slice_from stripped (close_brace_idx + 1)%Z in
  let items := _parse_list_items list_content in
  let item_indent := indent ++ times " " IndentationEngine.INDENT_SIZE in
  [indent ++ before_list]
    ++ map (fun item => item_indent ++ item) items
    ++ [indent ++ py "}" ++ after_list].

Fixpoint expand_loop (lines : list str) : list str :=
  match lines with
  | [] => []
  | line :: rest =>
      if _should_expand_list line
      then _expand_list line ++ expand_loop rest
      else line :: expand_loop rest
  end.

Definition expand_long_lists (lines : list str) : list str :=
  match lines with
  | [] => lines
  | _ :: _ => expand_loop lines
  end.

End ListExpansionEngine.

(** ** AlignmentEngine *)

Module AlignmentEngine.

Definition _is_set_command (line : str) : bool :=
  if negb (startswith line (py "set ")) then false
  else
    let parts := split1 line in
    (1 <=? length parts)
    && match parts with p0 :: _ => str_eqb p0 (py "set") | [] => false end.

(** The dictionary [_parse_set_command] returns. *)
Record parsed := mkparsed {
  indent : str;
  variable : str;
  value : str
}.

Definition _parse_set_command (line : str) : option parsed :=
  let indent :=
    slice_to line (Z.of_nat (length line) - Z.of_nat (length (lstrip line)))%Z in
  let stripped := strip line in
  if negb (startswith stripped (py "set ")) then None
  else
    let remainder := slice_from stripped 4%Z in
    let parts := split1 remainder in
    match parts with
    | variable :: value :: _ => Some (mkparsed indent variable value)
    | _ => None
    end.

(** The loop variables of [_find_set_blocks]. *)
Record bstate := mkb {
  blocks : list (list nat);
  current_block : list nat;
  current_indent : option nat
}.

(** [if len(current_block) > 1: blocks.append(current_block)] *)
Definition save_block (s : bstate) : list (list nat) :=
  if 1 <? length (current_block s)
  then blocks s ++ [current_block s]
  else blocks s.

Definition find_step (s : bstate) (i : nat) (line : str) : bstate :=
  let stripped := strip line in
  match stripped with
  | [] => s
  | _ :: _ =>
      if startswith stripped (py "#") then mkb (save_block s) [] None
      else if _is_set_command stripped then
        let indent := length line - length (lstrip line) in
        match current_indent s with
        | None => mkb (blocks s) (current_block s ++ [i]) (Some indent)
        | Some ci =>
            if indent =? ci
            then mkb (blocks s) (current_block s ++ [i]) (Some indent)
            else mkb (save_block s) [i] (Some indent)
        end
      else mkb (save_block s) [] None
  end.

Fixpoint find_loop (s : bstate) (i : nat) (lines : list str) : bstate :=
  match lines with
  | [] => s
  | line :: rest => find_loop (find_step s i line) (i + 1) rest
  end.

Definition _find_set_blocks (lines : list str) : list (list nat) :=
  save_block (find_loop (mkb [] [] None) 0 lines).

(** [[lines[i] for i in block_indices]] *)
Fixpoint index_all (lines : list str) (block_indices : list nat)
  : result (list str) :=
  match block_indices with
  | [] => Ok []
  | i :: r =>
      x <- index lines i ;;
      xs <- index_all lines r ;;
      Ok (x :: xs)
  end.

Fixpoint parse_all (set_lines : list str) : list parsed :=
  match set_lines with
  | [] => []
  | line :: r =>
      match _parse_set_command line with
      | Some p => p :: parse_all r
      | None => parse_all r
      end
  end.

(** [max(...)] over a generator: [ValueError] when it is empty. *)
Definition max_of (l : list nat) : result nat :=
  match l with
  | [] => Raise ValueError
  | x :: r => Ok (fold_left Nat.max r x)
  end.

Definition _align_block (lines : list str) (block_indices : list nat)
  : result (list str) :=
  set_lines <- index_all lines block_indices ;;
  let parsed_commands := parse_all set_lines in
  max_var_length <- max_of (map (fun cmd => length (variable cmd)) parsed_commands) ;;
  Ok (map (fun cmd =>
             let padding := (Z.of_nat max_var_length - Z.of_nat (length (variable cmd)))%Z in
             indent cmd ++ py "set " ++ variable cmd
               ++ times " " (padding + 1)%Z ++ value cmd)
          parsed_commands).

(** [for i, line_idx in enumerate(block_indices): result[line_idx] = aligned_block[i]] *)
Fixpoint replace_block (res : list str) (aligned_block : list str) (i : nat)
    (block_indices : list nat) : result (list str) :=
  match block_indices with
  | [] => Ok res
  | line_idx :: r =>
      x <- index aligned_block i ;;
      res' <- setitem res line_idx x ;;
      replace_block res' aligned_block (i + 1) r
  end.

Fixpoint align_loop (res : list str) (set_blocks : list (list nat))
  : result (list str) :=
  match set_blocks with
  | [] => Ok res
  | block_indices :: r =>
      aligned_block <- _align_block res block_indices ;;
      res' <- replace_block res aligned_block 0 block_indices ;;
      align_loop res' r
  end.

Definition align_set_commands (lines : list str) : result (list str) :=
  match lines with
  | [] => Ok lines
  | _ :: _ =>
      let set_blocks := _find_set_blocks lines in
      match set_blocks with
      | [] => Ok lines
      | _ :: _ => align_loop lines set_blocks
      end
  end.

Definition single_space_line (line : str) : str :=
  let stripped := strip line in
  if _is_set_command stripped then
    match _parse_set_command line with
    | Some p => indent p ++ py "set " ++ variable p ++ py " " ++ value p
    | None => line
    end
  else line.

Definition apply_single_space (lines : list str) : list str :=
  match lines with
  | [] => lines
  | _ :: _ => map single_space_line lines
  end.

End AlignmentEngine.

(** ** TCLFormatter *)

Record FormattingResult := mkFormattingResult {
  success : bool;
  output_path : option str;
  error_path : option str;
  result_errors : option (list SyntaxError);
  result_message : str
}.

Module TCLFormatter.

(** What [open(path, 'w')] followed by the writes of a text comes to:
    all of it is written; or the open is refused and the file is as it
    was; or an error comes after the open, which has created or emptied
    the file, and the file is left with the first [n] characters of the
    text ([n] is 0 when nothing had reached it). *)
Inductive written :=
| Complete
| Refused
| Broken (n : nat).

(** What has been put into files so far, oldest first: path and text. *)
Definition disk := list (str * str).

Definition newline : ascii := ascii_of_nat 10.

(** The text of [for line in lines: f.write(line + '\n')]. *)
Definition file_text (lines : list str) : str :=
  concat (map (fun line => line ++ [newline]) lines).

Section Formatter.

(** The options of the constructor. *)
Variables (align_set expand_lists strict_indent : bool).

(** The file system and path arithmetic the formatter relies on:
    what [_read_file] returns for a path, [_generate_output_path],
    the path of [errors.log] beside the input, whether [os.access]
    grants writing to the directory of a path, what opening a path and
    writing a text to it comes to, and the text of an exception. *)
Variable _read_file : str -> result (list str).
Variable _generate_output_path : str -> str.
Variable error_log_path_of : str -> str.
Variable dir_writable : str -> bool.
Variable io_write : str -> str -> written.
Variable exn_str : exn -> str.

Definition _format_lines (lines : list str) : result (list str) :=
  match lines with
  | [] => Ok lines
  | _ :: _ =>
      let formatted :=
        IndentationEngine.apply_indentation strict_indent lines in
      let formatted :=
        if expand_lists
        then ListExpansionEngine.expand_long_lists formatted
        else formatted in
      if align_set
      then AlignmentEngine.align_set_commands formatted
      else Ok (AlignmentEngine.apply_single_space formatted)
  end.

(** The [try: with open(...) as f: for line in lines: f.write(...)]
    of [_write_file] and of [_generate_error_log]: every exception is
    raised again as [IOError], and what had been written stays. *)
Definition write_lines (file_path : str) (lines : list str) (d : disk)
  : result unit * disk :=
  match io_write file_path (file_text lines) with
  | Complete => (Ok tt, d ++ [(file_path, file_text lines)])
  | Refused => (Raise IOError, d)
  | Broken n => (Raise IOError, d ++ [(file_path, firstn n (file_text lines))])
  end.

Definition _write_file (file_path : str) (lines : list str) (d : disk)
  : result unit * disk :=
  if negb (dir_writable file_path) then (Raise PermissionError, d)
  else write_lines file_path lines d.

Definition error_line (error : SyntaxError) : str :=
  py "Line " ++ str_of_nat (line_number error) ++ py ": " ++ message error.

Definition _generate_error_log (input_path : str)
    (errors : list SyntaxError) (d : disk) : result str * disk :=
  let error_log_path := error_log_path_of input_path in
  let error_lines := map error_line errors in
  match write_lines error_log_path error_lines d with
  | (Ok _, d') => (Ok error_log_path, d')
  | (Raise e, d') => (Raise e, d')
  end.

(** The three [except] clauses of [format_file]; [PermissionError] is
    a subclass of [IOError] ([OSError]) and is caught by the first. *)
Definition handle (e : exn) : FormattingResult :=
  match e with
  | IOError | PermissionError =>
      mkFormattingResult false None None None
        (py "File I/O error: " ++ exn_str e)
  | _ =>
      mkFormattingResult false None None None
        (py "Unexpected error: " ++ exn_str e)
  end.

Definition format_file (input_path : str) (d : disk)
  : FormattingResult * disk :=
  match _read_file input_path with
  | Raise e => (handle e, d)
  | Ok lines =>
      let errors := SyntaxValidator.validate lines in
      match errors with
      | _ :: _ =>
          match _generate_error_log input_path errors d with
          | (Raise e, d') => (handle e, d')
          | (Ok error_log_path, d') =>
              (mkFormattingResult false None (Some error_log_path)
                 (Some errors)
                 (py "Syntax validation failed with "
                    ++ str_of_nat (length errors)
                    ++ py " error(s). See " ++ error_log_path),
               d')
          end
      | [] =>
          match _format_lines lines with
          | Raise e => (handle e, d)
          | Ok formatted_lines =>
              let output_path := _generate_output_path input_path in
              match _write_file output_path formatted_lines d with
              | (Raise e, d') => (handle e, d')
              | (Ok _, d') =>
                  (mkFormattingResult true (Some output_path) None None
                     (py "Successfully formatted to " ++ output_path),
                   d')
              end
          end
      end
  end.

End Formatter.

End TCLFormatter.

(** ** The upload check of the web interface ([web/app.py]) *)

Module WebApp.

(** [str.lower] for one character, on the code points below 256: the
    letters [A] to [Z] and the accented capitals 192 to 222, the
    multiplication sign 215 apart, move up by 32. *)
Definition lower_char (c : ascii) : ascii :=
  let n := nat_of_ascii c in
  if ((65 <=? n) && (n <=? 90))
     || ((192 <=? n) && (n <=? 222) && negb (n =? 215))
  then ascii_of_nat (n + 32)
  else c.

Definition lower (s : str) : str := map lower_char s.

(** [s.rsplit(sep, 1)] for a one-character [sep]. *)
Definition rsplit1 (s : str) (sep : ascii) : list str :=
  let k := rfind s sep in
  if (k =? -1)%Z then [s]
  else [slice_to s k; slice_from s (k + 1)%Z].

Definition ALLOWED_EXTENSIONS : list str := [py "tcl"].

Definition allowed_file (filename : str) : result bool :=
  if contains filename "."
  then ext <- index (rsplit1 filename ".") 1 ;;
       Ok (existsb (str_eqb (lower ext)) ALLOWED_EXTENSIONS)
  else Ok false.

End WebApp.

(** ** Balanced input

    An input is balanced when every [{] has a matching [}] outside quoted
    regions and every quote pairs.  Here a quoted region is what the
    validator's line scan delimits: it starts at an unescaped quote,
    ends at the next unescaped quote of the same logical line, and does not
    extend over the end of that line.  The definitions below state this
    without a stack: a logical line is read into the delimiters that count,
    and a delimiter sequence is balanced when it is generated by the grammar
    of matched pairs. *)

Module Balance.

(** A delimiter that counts, with the logical line and column it is at. *)
Inductive delim :=
| OpenBrace (line col : nat)
| CloseBrace (line col : nat)
| OpenQuote (line col : nat)
| CloseQuote (line col : nat).

(** The delimiters of [l], the part of a logical line from column [i] on:
    a backslash hides the character after it, a quote opens or closes a
    quoted region, braces count outside quoted regions only. *)
Fixpoint delims_from (line_num i : nat) (quoted : bool) (l : str)
  : list delim :=
  match l with
  | [] => []
  | c :: rest =>
      let here :=
        if eqc c dquote then
          (if quoted then CloseQuote line_num i else OpenQuote line_num i)
            :: delims_from line_num (i + 1) (negb quoted) rest
        else if quoted then delims_from line_num (i + 1) quoted rest
        else if eqc c "{" then
          OpenBrace line_num i :: delims_from line_num (i + 1) quoted rest
        else if eqc c "}" then
          CloseBrace line_num i :: delims_from line_num (i + 1) quoted rest
        else delims_from line_num (i + 1) quoted rest in
      if eqc c "\" then
        match rest with
        | _ :: rest' => delims_from line_num (i + 2) quoted rest'
        | [] => here
        end
      else here
  end.

(** Comment lines carry no delimiters. *)
Definition line_delims (nl : nat * str) : list delim :=
  if startswith (strip (snd nl)) (py "#") then []
  else delims_from (fst nl) 0 false (snd nl).

(** The delimiters of an input, logical line after logical line. *)
Definition delims (lines : list str) : list delim :=
  flat_map line_delims (SyntaxValidator._handle_line_continuations lines).

(** Matched pairs: nothing; a brace pair around a balanced sequence,
    followed by a balanced sequence; a quote pair, followed by a balanced
    sequence. *)
Inductive balanced : list delim -> Prop :=
| balanced_nil : balanced []
| balanced_braces n i m j inner after :
    balanced inner -> balanced after ->
    balanced (OpenBrace n i :: inner ++ CloseBrace m j :: after)
| balanced_quotes n i m j after :
    balanced after ->
    balanced (OpenQuote n i :: CloseQuote m j :: after).

(** Every [{] outside quoted regions has its [}] and every quote pairs. *)
Definition balanced_input (lines : list str) : Prop :=
  balanced (delims lines).

End Balance.

(** ** Continuation folding as the specification words it

    A physical line continues on the next one when, after its trailing white
    space is trimmed, it ends in an unescaped backslash: a backslash that is
    not itself escaped by the one before it, so the run of backslashes at
    the end has odd length. *)

Module ContinuationSpec.

Definition trailing_backslashes (l : str) : nat :=
  length (takewhile (fun c => eqc c "\") (rev l)).

Definition ends_in_unescaped_backslash (l : str) : bool :=
  Nat.odd (trailing_backslashes (rstrip l)).

(** Folding with that test; same arguments as
    [SyntaxValidator.continue_line]. *)
Fixpoint fold_unescaped (line_num : nat) (line : str) (i : nat)
    (rest : list str) : list (nat * str) :=
  match rest with
  | [] => [(line_num, line)]
  | next :: rest' =>
      if ends_in_unescaped_backslash line
      then fold_unescaped line_num (removelast (rstrip line) ++ next)
             (i + 1) rest'
      else (line_num, line) :: fold_unescaped (i + 1 + 1) next (i + 1) rest'
  end.

Definition folded_on_unescaped (lines : list str) : list (nat * str) :=
  match lines with
  | [] => []
  | line :: rest => fold_unescaped 1 line 0 rest
  end.

End ContinuationSpec.

(** ** Logical lines

    The logical lines of an input, stated on the physical lines and
    without the loop of the validator.  The text gathered for a logical
    line is continued by the next physical line when, with its trailing
    white space trimmed, it ends in a backslash; the trimmed text then
    loses that backslash and the next physical line is appended to it.  A
    logical line is a group of consecutive physical lines joined in this
    way, as long a group as there is, under the 1-based number of the
    first physical line of the group. *)

Module LogicalLines.
Import Balance.

Definition continued (text : str) : bool := endswith (rstrip text) (py "\").

(** [joined group text]: the first of [group] is the text gathered so
    far, the others are the physical lines that follow; each text gathered
    but the last is continued, and [text] is the last. *)
Inductive joined : list str -> str -> Prop :=
| joined_last l : joined [l] l
| joined_next l next more text :
    continued l = true ->
    joined ((removelast (rstrip l) ++ next) :: more) text ->
    joined (l :: next :: more) text.

(** [logical k lines folded]: [lines] are the physical lines that follow
    the first [k] of the input, [folded] their logical lines. *)
Inductive logical : nat -> list str -> list (nat * str) -> Prop :=
| logical_end k : logical k [] []
| logical_line k group text rest folded :
    joined group text ->
    rest = [] \/ continued text = false ->
    logical (k + length group) rest folded ->
    logical k (group ++ rest) ((k + 1, text) :: folded).

Definition logical_lines (lines : list str) (folded : list (nat * str))
  : Prop :=
  logical 0 lines folded.

(** The logical line [text] numbered [line] starts at the physical line
    of that number: the physical lines before it are those of the logical
    lines before it. *)
Definition starts_at (lines : list str) (folded : list (nat * str))
    (line : nat) (text : str) : Prop :=
  exists pre group rest f1 f2,
    lines = pre ++ group ++ rest
    /\ folded = f1 ++ (line, text) :: f2
    /\ logical_lines pre f1
    /\ joined group text
    /\ line = length pre + 1.

(** Balanced logical lines: a quoted region ends with its logical line at
    the latest, every [{] outside quoted regions has its [}] and every
    quote pairs. *)
Definition balanced_lines (folded : list (nat * str)) : Prop :=
  balanced (flat_map line_delims folded).

(** Exactly one [{], at [line] and [col], is left unclosed and the logical
    lines have no other defect. *)
Definition one_unclosed_brace (folded : list (nat * str)) (line col : nat)
  : Prop :=
  exists before after,
    flat_map line_delims folded = before ++ OpenBrace line col :: after
    /\ balanced before /\ balanced after.

End LogicalLines.

(** ** Balance of the whole text

    Balance as the specification words it, read on the whole input: lines
    are folded on an unescaped backslash, and a quoted region runs from a
    quote to the next one, on the same line or on a later one. *)

Module WholeText.
Import Balance ContinuationSpec.

(** Whether a quoted region is open after [l]. *)
Fixpoint quoted_after (quoted : bool) (l : str) : bool :=
  match l with
  | [] => quoted
  | c :: rest =>
      let here :=
        if eqc c dquote then quoted_after (negb quoted) rest
        else quoted_after quoted rest in
      if eqc c "\" then
        match rest with
        | _ :: rest' => quoted_after quoted rest'
        | [] => here
        end
      else here
  end.

(** The delimiters of the lines, the quoted regions carried from line to
    line; comment lines outside quoted regions carry none. *)
Fixpoint delims_across (quoted : bool) (folded : list (nat * str))
  : list delim :=
  match folded with
  | [] => []
  | nl :: rest =>
      if negb quoted && startswith (strip (snd nl)) (py "#")
      then delims_across quoted rest
      else delims_from (fst nl) 0 quoted (snd nl)
             ++ delims_across (quoted_after quoted (snd nl)) rest
  end.

Definition text_delims (lines : list str) : list delim :=
  delims_across false (folded_on_unescaped lines).

Definition balanced_text (lines : list str) : Prop :=
  balanced (text_delims lines).

Definition one_unclosed_brace_text (lines : list str) (line col : nat)
  : Prop :=
  exists before after,
    text_delims lines = before ++ OpenBrace line col :: after
    /\ balanced before /\ balanced after.

End WholeText.

(** ** Notions the properties are stated with *)

Module ValidatorNotions.
Import SyntaxValidator Balance.

(** The kind of closer that does not match the innermost frame. *)
Definition mismatch (c : ascii) (frame : StackFrame) : Prop :=
  (c = "}"%char /\ char frame <> "{"%char)
  \/ (c = dquote /\ char frame <> dquote).

(** What one delimiter does to the validator. *)
Definition run_delim (v : t) (d : delim) : t :=
  match d with
  | OpenBrace n i => mk (_push "{" n i (stack v)) (errors v)
  | CloseBrace n i => pop_report "}" n i v
  | OpenQuote n i => mk (_push dquote n i (stack v)) (errors v)
  | CloseQuote n i => pop_report dquote n i v
  end.

Definition run (ds : list delim) (v : t) : t := fold_left run_delim ds v.

End ValidatorNotions.

Module IndentationNotions.
Import IndentationEngine.

(** The loop variables after the lines [pre]. *)
Definition state_after (strict_mode : bool) (pre : list str) : state :=
  fold_left (fun st line => snd (indent_line strict_mode st line)) pre init.

End IndentationNotions.

Module TokenizerNotions.
Import ListExpansionEngine.

(** What a character that is not part of an escape does to the brace
    depth and the quote flag; [None] when it separates items. *)
Definition item_step (c : ascii) (d : Z) (q : bool) : option (Z * bool) :=
  if eqc c dquote then Some (d, negb q)
  else if negb q && eqc c "{" then Some ((d + 1)%Z, q)
  else if negb q && eqc c "}" then Some ((d - 1)%Z, q)
  else if negb q && (d =? 0)%Z && is_blank c then None
  else Some (d, q).

(** The depth and quote flag after the characters of [l], read as (part
    of) one item from depth [d] and flag [q]: [None] when a separator is
    met, or when [l] ends in a backslash at an escape position and more
    text may follow ([last = false]). *)
Fixpoint item_scan (last : bool) (l : str) (d : Z) (q : bool)
  : option (Z * bool) :=
  match l with
  | [] => Some (d, q)
  | c :: rest =>
      let here :=
        match item_step c d q with
        | Some (d', q') => item_scan last rest d' q'
        | None => None
        end in
      if eqc c "\" then
        match rest with
        | _ :: rest' => item_scan last rest' d q
        | [] => if last then here else None
        end
      else here
  end.

(** An item that a separator ended: not empty, read from the clean state
    back to the clean state. *)
Definition closed (it : str) : Prop :=
  it <> [] /\ item_scan false it 0%Z false = Some (0%Z, false).

(** The item the end of the text ended. *)
Definition last_ok (it : str) : Prop :=
  it <> [] /\ exists r, item_scan true it 0%Z false = Some r.

(** What holds of the loop variables between two characters: the items
    gathered so far were all ended by a separator, and the depth and the
    quote flag are those the current item leads to. *)
Definition loop_inv (last : bool) (s : pstate) : Prop :=
  Forall closed (items s)
  /\ item_scan last (current_item s) 0%Z false
     = Some (brace_depth s, in_string s).

End TokenizerNotions.

Module WhiteSpace.

(** The text of a line without its white space, and the white space the
    line starts with. *)
Definition erase_ws (l : str) : str := filter (fun c => negb (isspace c)) l.
Definition leading_ws (l : str) : str := takewhile isspace l.

Definition same_but_ws (a b : str) : Prop :=
  leading_ws a = leading_ws b /\ erase_ws a = erase_ws b.

(** The white space a line ends with. *)
Definition trailing_ws (l : str) : str := skipn (length (rstrip l)) l.

End WhiteSpace.

Module Pipeline.

(** The rewrite passes in the order the pipeline runs them. *)
Definition passes (align_set expand_lists strict_indent : bool)
    (lines : list str) : result (list str) :=
  let indented := IndentationEngine.apply_indentation strict_indent lines in
  let expanded :=
    if expand_lists
    then ListExpansionEngine.expand_long_lists indented
    else indented in
  if align_set
  then AlignmentEngine.align_set_commands expanded
  else Ok (AlignmentEngine.apply_single_space expanded).

End Pipeline.

Module SetCommandNotions.
Import AlignmentEngine WhiteSpace.

(** A string that does not end in white space. *)
Definition no_trailing_ws (s : str) : Prop :=
  forall c r, rev s = c :: r -> isspace c = false.

(** The parts of a [set] line that parses. *)
Record parts_ok (line : str) (p : parsed) : Prop := {
  ok_set : startswith (strip line) (py "set ") = true;
  ok_indent : indent p = leading_ws line;
  ok_variable : variable p <> [];
  ok_variable_word : Forall (fun c => negb (isspace c) = true) (variable p);
  ok_value : exists c r, value p = c :: r /\ isspace c = false;
  ok_value_end : no_trailing_ws (value p)
}.

(** The line of index [i] is a [set] command indented by [ind]. *)
Definition set_line_at (lines : list str) (ind i : nat) : Prop :=
  exists l, nth_error lines i = Some l
            /\ _is_set_command (strip l) = true
            /\ length l - length (lstrip l) = ind.

(** A block: at least two indices, increasing, of [set] commands with one
    and the same indent. *)
Definition block_ok (lines : list str) (b : list nat) : Prop :=
  2 <= length b
  /\ StronglySorted lt b
  /\ exists ind, Forall (set_line_at lines ind) b.

(** What the loop of [_find_set_blocks] keeps true before the line of
    index [i]. *)
Definition find_inv (lines : list str) (s : bstate) (i : nat) : Prop :=
  Forall (block_ok lines) (blocks s)
  /\ StronglySorted lt (current_block s)
  /\ Forall (fun x => x < i) (current_block s)
  /\ match current_indent s with
     | None => current_block s = []
     | Some ci => Forall (set_line_at lines ci) (current_block s)
     end.

(** [r] stands at the place of the input line [l] and still parses if [l]
    is a [set] command. *)
Definition still_parses (l r : str) : Prop :=
  _is_set_command (strip l) = true -> exists p, _parse_set_command r = Some p.

(** [r] stands at the place of the input line [l] and is [l] itself
    unless [l] is a [set] command. *)
Definition kept_unless_set (l r : str) : Prop :=
  _is_set_command (strip l) = false -> r = l.

(** The line [x] is the [set] command of index [i] rebuilt with its value
    in the column after a name of length [m]: its indent, [set], its name,
    [m + 1] characters less the name in spaces, and its value, where the
    name has no white space and the value does not start with any. *)
Definition aligned_to (lines : list str) (m i : nat) (x : str) : Prop :=
  exists l p,
    nth_error lines i = Some l
    /\ _parse_set_command l = Some p
    /\ length (variable p) <= m
    /\ x = indent p ++ py "set " ++ variable p
           ++ repeat " "%char (m - length (variable p) + 1) ++ value p
    /\ Forall (fun c => negb (isspace c) = true) (variable p)
    /\ exists c r, value p = c :: r /\ isspace c = false.

(** The name of the [set] command of index [i] has length [m]. *)
Definition name_length_at (lines : list str) (m i : nat) : Prop :=
  exists l p,
    nth_error lines i = Some l
    /\ _parse_set_command l = Some p
    /\ length (variable p) = m.

End SetCommandNotions.

Module DelimiterNotions.
Import SyntaxValidator Balance.

(** A closing delimiter. *)
Definition closer (d : delim) : Prop :=
  match d with
  | CloseBrace _ _ | CloseQuote _ _ => True
  | _ => False
  end.

Definition adjacent_quotes (ds : list delim) : Prop :=
  forall a n i c,
    ds = a ++ CloseQuote n i :: c -> exists a' m j, a = a' ++ [OpenQuote m j].

(** The frame an opening delimiter pushes. *)
Definition opens (d : delim) (f : StackFrame) : Prop :=
  match d with
  | OpenBrace n i => f = mkStackFrame "{" n i
  | OpenQuote n i => f = mkStackFrame dquote n i
  | _ => False
  end.

(** The delimiters read so far, with the stack they leave: balanced
    sequences between the openers still on the stack. *)
Inductive open_prefix : list delim -> list StackFrame -> Prop :=
| open_prefix_balanced ds : balanced ds -> open_prefix ds []
| open_prefix_push ds stk d f inner :
    open_prefix ds stk -> opens d f -> balanced inner ->
    open_prefix (ds ++ d :: inner) (stk ++ [f]).

Definition delim_line (d : delim) : nat :=
  match d with
  | OpenBrace n _ | CloseBrace n _ | OpenQuote n _ | CloseQuote n _ => n
  end.

(** Frames and diagnostics with line numbers between [lo] and [hi]. *)
Definition within (lo hi : nat) (v : t) : Prop :=
  Forall (fun f => lo <= frame_line_number f <= hi) (stack v)
  /\ Forall (fun e => lo <= line_number e <= hi) (errors v).

End DelimiterNotions.

Module TextNotions.
Import ListExpansionEngine.

(** The text without its spaces and tabs. *)
Definition no_blanks (l : str) : str := filter (fun c => negb (is_blank c)) l.

(** The characters gathered so far. *)
Definition gathered (s : pstate) : str := concat (items s) ++ current_item s.

End TextNotions.

Module DepthNotions.

(** A line without quotes and without backslashes. *)
Definition plain (l : str) : Prop :=
  contains l dquote = false /\ contains l "\" = false.

(** The number of occurrences of a character. *)
Definition occurrences (c : ascii) (l : str) : nat :=
  length (filter (eqc c) l).

End DepthNotions.

(** * Properties *)

(** ** Python strings *)

Module PyFacts.

Lemma eqc_neq a b : a <> b -> eqc a b = false.
Proof. intro H. apply Ascii.eqb_neq. exact H. Qed.

Lemma dropwhile_length p (l : str) : length (dropwhile p l) <= length l.
Proof.
  induction l as [|a l IH]; simpl; [lia|].
  destruct (p a); simpl; lia.
Qed.

Lemma dropwhile_head p l c r : dropwhile p l = c :: r -> p c = false.
Proof.
  induction l as [|x l IH]; simpl; [discriminate|].
  destruct (p x) eqn:E; [exact IH|].
  intro H. inversion H; subst. exact E.
Qed.

Lemma dropwhile_suffix p l : exists pre, l = pre ++ dropwhile p l.
Proof.
  induction l as [|x l [pre IH]]; simpl.
  - exists []. reflexivity.
  - destruct (p x).
    + exists (x :: pre). simpl. f_equal. exact IH.
    + exists []. reflexivity.
Qed.

Lemma dropwhile_fixed p (l : str) :
  (forall c r, l = c :: r -> p c = false) -> dropwhile p l = l.
Proof.
  destruct l as [|c r]; intro H; simpl; [reflexivity|].
  rewrite (H c r eq_refl). reflexivity.
Qed.

Lemma takewhile_dropwhile p (l : str) : takewhile p l ++ dropwhile p l = l.
Proof.
  induction l as [|c l IH]; simpl; [reflexivity|].
  destruct (p c); simpl; [rewrite IH|]; reflexivity.
Qed.

Lemma startswith_cons (l : str) (c : ascii) :
  startswith l [c] = true -> exists r, l = c :: r.
Proof.
  destruct l as [|b r]; simpl; [discriminate|].
  destruct (eqc c b) eqn:E; [|discriminate].
  intros _. apply Ascii.eqb_eq in E. subst. eauto.
Qed.

Lemma startswith_prefix (p l : str) :
  startswith l p = true -> l = p ++ skipn (length p) l.
Proof.
  revert l. induction p as [|a p IH]; intros l H; [reflexivity|].
  destruct l as [|b l]; simpl in H; [discriminate|].
  apply andb_true_iff in H. destruct H as [Hab Hr].
  apply Ascii.eqb_eq in Hab. subst b. simpl. f_equal. apply IH. exact Hr.
Qed.

End PyFacts.

(** ** The validator's stack discipline *)

Module ValidatorFacts.
Import SyntaxValidator ValidatorNotions PyFacts.

Lemma list_pop_snoc {A} (l : list A) (x : A) :
  list_pop (l ++ [x]) = Some (l, x).
Proof.
  unfold list_pop. rewrite rev_unit, rev_involutive. reflexivity.
Qed.

(** A matching closer removes the innermost frame and reports nothing. *)
Lemma pop_match_brace line_num pos stk n p :
  _pop "}" line_num pos (stk ++ [mkStackFrame "{" n p]) = (None, stk).
Proof. unfold _pop. rewrite list_pop_snoc. reflexivity. Qed.

Lemma pop_match_quote line_num pos stk n p :
  _pop dquote line_num pos (stk ++ [mkStackFrame dquote n p]) = (None, stk).
Proof. unfold _pop. rewrite list_pop_snoc. reflexivity. Qed.

(** C4.  When a closer ([}] or a closing quote) meets an innermost frame of
    the other kind, [_pop] returns one diagnostic, an unexpected closing
    reported at the closer's line and typed after the closer, and the stack
    it leaves is the stack it was given: the popped frame is put back.  In the line scan this
    appends exactly that one diagnostic to the error list and leaves the
    stack untouched, so the characters after it are scanned against the
    nesting that held before the mismatch. *)
Theorem pop_mismatch_restores_stack :
  forall (c : ascii) (line_num pos : nat) (stk : list StackFrame)
         (frame : StackFrame) (errs : list SyntaxError),
    mismatch c frame ->
    exists e,
      _pop c line_num pos (stk ++ [frame]) = (Some e, stk ++ [frame])
      /\ line_number e = line_num
      /\ startswith (message e) (py "Unexpected closing") = true
      /\ error_type e = (if eqc c "}" then py "brace" else py "quote")
      /\ pop_report c line_num pos (mk (stk ++ [frame]) errs)
         = mk (stk ++ [frame]) (errs ++ [e])
      /\ (c = "}"%char ->
          forall i rest,
            scan line_num i false (c :: rest) (mk (stk ++ [frame]) errs)
            = scan line_num (i + 1) false rest
                (mk (stk ++ [frame]) (errs ++ [e])))
      /\ (c = dquote ->
          forall i rest,
            scan line_num i true (c :: rest) (mk (stk ++ [frame]) errs)
            = scan line_num (i + 1) false rest
                (mk (stk ++ [frame]) (errs ++ [e]))).
Proof.
  intros c line_num pos stk frame errs [[Hc Hf] | [Hc Hf]]; subst c.
  - eexists. unfold pop_report, _pop. simpl stack. rewrite list_pop_snoc.
    rewrite (eqc_neq _ _ Hf). simpl.
    repeat split; try reflexivity.
    + intros _ i rest. simpl. unfold pop_report, _pop. simpl stack.
      rewrite list_pop_snoc, (eqc_neq _ _ Hf). reflexivity.
    + intro H. discriminate H.
  - eexists. unfold pop_report, _pop. simpl stack. rewrite list_pop_snoc.
    rewrite (eqc_neq _ _ Hf). simpl.
    repeat split; try reflexivity.
    + intro H. discriminate H.
    + intros _ i rest. simpl. unfold pop_report, _pop. simpl stack.
      rewrite list_pop_snoc, (eqc_neq _ _ Hf). reflexivity.
Qed.

Lemma pop_mismatch_restores_stack_witness :
  mismatch "}" (mkStackFrame dquote 1 5)
  /\ exists e,
      _pop "}" 2 0 ([mkStackFrame "{" 1 3] ++ [mkStackFrame dquote 1 5])
      = (Some e, [mkStackFrame "{" 1 3] ++ [mkStackFrame dquote 1 5])
      /\ line_number e = 2
      /\ error_type e = py "brace".
Proof.
  split.
  - left. split; [reflexivity | discriminate].
  - destruct (pop_mismatch_restores_stack "}" 2 0 [mkStackFrame "{" 1 3]
                (mkStackFrame dquote 1 5) [])
      as [e [H1 [H2 [_ [H3 _]]]]].
    + left. split; [reflexivity | discriminate].
    + exists e. repeat split; assumption.
Defined.

End ValidatorFacts.

(** ** Balanced input passes validation *)

Module BalanceFacts.
Import SyntaxValidator Balance ValidatorNotions ValidatorFacts.

Lemma run_app a b v : run (a ++ b) v = run b (run a v).
Proof. unfold run. apply fold_left_app. Qed.

(** The line scan is the run of the line's delimiters. *)
Lemma scan_run_bounded k :
  forall l, length l <= k ->
  forall line_num i q v,
    scan line_num i q l v = run (delims_from line_num i q l) v.
Proof.
  induction k as [|k IH]; intros l Hl line_num i q v.
  - destruct l; [reflexivity | simpl in Hl; lia].
  - destruct l as [|c rest]; [reflexivity|].
    simpl in Hl.
    assert (Hstep :
      (if eqc c dquote then
         if q
         then scan line_num (i + 1) false rest (pop_report dquote line_num i v)
         else scan line_num (i + 1) true rest
                (mk (_push dquote line_num i (stack v)) (errors v))
       else if negb q then
         if eqc c "{" then
           scan line_num (i + 1) q rest
             (mk (_push "{" line_num i (stack v)) (errors v))
         else if eqc c "}" then
           scan line_num (i + 1) q rest (pop_report "}" line_num i v)
         else scan line_num (i + 1) q rest v
       else scan line_num (i + 1) q rest v)
      = run (if eqc c dquote then
               (if q then CloseQuote line_num i else OpenQuote line_num i)
                 :: delims_from line_num (i + 1) (negb q) rest
             else if q then delims_from line_num (i + 1) q rest
             else if eqc c "{" then
               OpenBrace line_num i :: delims_from line_num (i + 1) q rest
             else if eqc c "}" then
               CloseBrace line_num i :: delims_from line_num (i + 1) q rest
             else delims_from line_num (i + 1) q rest) v).
    { destruct (eqc c dquote).
      - destruct q; simpl; rewrite IH by lia; reflexivity.
      - destruct q; simpl; [apply IH; lia|].
        destruct (eqc c "{"); [simpl; rewrite IH by lia; reflexivity|].
        destruct (eqc c "}"); [simpl; rewrite IH by lia; reflexivity|].
        apply IH; lia. }
    simpl. destruct (eqc c "\").
    + destruct rest as [|c2 rest']; [exact Hstep|].
      apply IH. simpl in Hl. lia.
    + exact Hstep.
Qed.

Lemma scan_run line_num i q l v :
  scan line_num i q l v = run (delims_from line_num i q l) v.
Proof. apply (scan_run_bounded (length l)). lia. Qed.

Lemma process_line_run nl v :
  _process_line (snd nl) (fst nl) v = run (line_delims nl) v.
Proof.
  unfold _process_line, line_delims.
  destruct (startswith (strip (snd nl)) (py "#")); [reflexivity|].
  apply scan_run.
Qed.

Lemma process_lines_run processed v :
  process_lines processed v = run (flat_map line_delims processed) v.
Proof.
  revert v. induction processed as [|nl r IH]; intro v; [reflexivity|].
  simpl. rewrite run_app, <- process_line_run. apply IH.
Qed.

(** A balanced sequence leaves the validator as it found it. *)
Lemma balanced_run ds :
  balanced ds -> forall v, run ds v = v.
Proof.
  induction 1 as [| n i m j inner after _ IHi _ IHa | n i m j after _ IHa];
    intro v.
  - reflexivity.
  - change (OpenBrace n i :: inner ++ CloseBrace m j :: after)
      with ([OpenBrace n i] ++ inner ++ [CloseBrace m j] ++ after).
    rewrite !run_app, IHi. simpl.
    unfold pop_report, _push. simpl stack.
    rewrite pop_match_brace. simpl. rewrite IHa. destruct v; reflexivity.
  - change (OpenQuote n i :: CloseQuote m j :: after)
      with ([OpenQuote n i; CloseQuote m j] ++ after).
    rewrite run_app. simpl.
    unfold pop_report, _push. simpl stack.
    rewrite pop_match_quote. simpl. rewrite IHa. destruct v; reflexivity.
Qed.

Lemma validate_run lines :
  validate lines = errors (_check_remaining_stack (run (delims lines) init)).
Proof.
  unfold validate, delims. rewrite process_lines_run. reflexivity.
Qed.

End BalanceFacts.

(** ** Continuation folding *)

Module ContinuationFacts.
Import SyntaxValidator ContinuationSpec.

(** The logical line under construction keeps its number. *)
Lemma continue_line_head rest :
  forall line_num line i,
  exists text tail, continue_line line_num line i rest = (line_num, text) :: tail.
Proof.
  induction rest as [|next rest' IH]; intros line_num line i; simpl.
  - exists line, []. reflexivity.
  - destruct (endswith (rstrip line) (py "\")).
    + apply IH.
    + eexists _, _. reflexivity.
Qed.

(** Every later logical line is numbered after the physical lines
    already taken. *)
Lemma continue_line_numbers rest :
  forall line_num line i n text,
    line_num <= i + 1 ->
    In (n, text) (continue_line line_num line i rest) ->
    line_num <= n <= i + 1 + length rest.
Proof.
  induction rest as [|next rest' IH]; intros line_num line i n text Hle Hin;
    simpl in Hin.
  - destruct Hin as [Heq | []]. inversion Heq; subst. simpl. lia.
  - destruct (endswith (rstrip line) (py "\")).
    + apply IH in Hin; simpl; lia.
    + destruct Hin as [Heq | Hin].
      * inversion Heq; subst. simpl. lia.
      * apply IH in Hin; simpl; lia.
Qed.



End ContinuationFacts.

(** ** The indentation pass *)

Module IndentationFacts.
Import IndentationEngine IndentationNotions PyFacts.

Lemma indent_loop_length strict_mode lines :
  forall st, length (indent_loop strict_mode st lines) = length lines.
Proof.
  induction lines as [|l r IH]; intro st; simpl; [reflexivity|].
  destruct (indent_line strict_mode st l). simpl. rewrite IH. reflexivity.
Qed.

Lemma apply_indentation_length strict_mode lines :
  length (apply_indentation strict_mode lines) = length lines.
Proof.
  destruct lines; [reflexivity|]. apply indent_loop_length.
Qed.

Lemma indent_loop_nth strict_mode pre :
  forall st line post,
    nth_error (indent_loop strict_mode st (pre ++ line :: post)) (length pre)
    = Some (fst (indent_line strict_mode
                   (fold_left (fun st l => snd (indent_line strict_mode st l))
                      pre st)
                   line)).
Proof.
  induction pre as [|p pre IH]; intros st line post; simpl.
  - destruct (indent_line strict_mode st line). reflexivity.
  - destruct (indent_line strict_mode st p) as [out st'] eqn:E. simpl.
    apply IH.
Qed.

(** The line written for the input line that follows [pre]. *)
Lemma apply_indentation_nth strict_mode pre line post :
  nth_error (apply_indentation strict_mode (pre ++ line :: post)) (length pre)
  = Some (fst (indent_line strict_mode (state_after strict_mode pre) line)).
Proof.
  unfold apply_indentation, state_after.
  destruct (pre ++ line :: post) eqn:E.
  - destruct pre; discriminate E.
  - rewrite <- E. apply indent_loop_nth.
Qed.

(** White space is gone from both ends of a stripped line. *)
Lemma rstrip_last l c r : rev (rstrip l) = c :: r -> isspace c = false.
Proof.
  unfold rstrip. rewrite rev_involutive. apply dropwhile_head.
Qed.

Lemma rstrip_prefix l : exists suf, l = rstrip l ++ suf.
Proof.
  unfold rstrip. destruct (dropwhile_suffix isspace (rev l)) as [pre H].
  exists (rev pre).
  rewrite <- rev_app_distr, <- H, rev_involutive. reflexivity.
Qed.

Lemma strip_first l c r : strip l = c :: r -> isspace c = false.
Proof.
  unfold strip. intro H.
  destruct (rstrip_prefix (lstrip l)) as [suf Hs]. rewrite H in Hs.
  simpl in Hs. apply (dropwhile_head isspace l _ _ Hs).
Qed.

Lemma strip_last l c r : rev (strip l) = c :: r -> isspace c = false.
Proof. unfold strip. apply rstrip_last. Qed.

Lemma lstrip_strip l : lstrip (strip l) = strip l.
Proof.
  unfold lstrip at 1. apply dropwhile_fixed.
  intros c r H. exact (strip_first _ _ _ H).
Qed.

Lemma rstrip_strip l : rstrip (strip l) = strip l.
Proof.
  unfold rstrip at 1. rewrite dropwhile_fixed.
  - apply rev_involutive.
  - intros c r H. exact (strip_last _ _ _ H).
Qed.

(** C9.  When the pass is not inside a carried string, a line whose
    trimmed text starts with [}] is written at level [max(0, depth - 1)],
    where [depth] is the level carried from the lines before it; and the
    three-line example of the specification is indented as it says. *)
Theorem closing_line_dedents :
  (forall (strict_mode : bool) (pre : list str) (line : str) (post : list str),
      in_string (state_after strict_mode pre) = false ->
      startswith (strip line) (py "}") = true ->
      nth_error (apply_indentation strict_mode (pre ++ line :: post))
        (length pre)
      = Some (times " "
                (Z.max 0 (current_level (state_after strict_mode pre) - 1)
                 * INDENT_SIZE)
                ++ strip line))
  /\ apply_indentation false
       [py "if {$x > 5} {"; py "puts " ++ [dquote] ++ py "hi" ++ [dquote];
        py "}"]
     = [py "if {$x > 5} {";
        py "  puts " ++ [dquote] ++ py "hi" ++ [dquote];
        py "}"].
Proof.
  split; [|reflexivity].
  intros strict_mode pre line post Hq Hs.
  rewrite apply_indentation_nth. f_equal.
  unfold indent_line.
  destruct (startswith_cons _ _ Hs) as [r Hr].
  rewrite Hr. rewrite <- Hr.
  assert (Hc : startswith (strip line) (py "#") = false)
    by (rewrite Hr; reflexivity).
  rewrite Hc. unfold fst.
  unfold _calculate_indent_level. rewrite Hq, Hs. reflexivity.
Qed.

Lemma closing_line_dedents_witness :
  in_string (state_after false [py "proc f {} {"; py "if {1} {"]) = false
  /\ startswith (strip (py "   } ")) (py "}") = true
  /\ nth_error
       (apply_indentation false
          ([py "proc f {} {"; py "if {1} {"] ++ py "   } " :: [py "}"]))
       2
     = Some (py "  }").
Proof.
  split; [reflexivity|]. split; [reflexivity|].
  exact (proj1 closing_line_dedents false [py "proc f {} {"; py "if {1} {"]
           (py "   } ") [py "}"] eq_refl eq_refl).
Defined.

(** C10.  Blank lines and comment lines are returned as they are.  For
    every other line the pass writes the computed indent (two spaces per
    level, nothing for a level below one) followed by the trimmed text of
    the line, which carries no white space at either end; and the output
    has one line for each input line. *)
Theorem apply_indentation_rewrites_whole_line :
  forall (strict_mode : bool) (pre : list str) (line : str) (post : list str),
    let st := state_after strict_mode pre in
    let stripped := strip line in
    let level :=
      _calculate_indent_level strict_mode stripped (current_level st)
        (in_string st) in
    length (apply_indentation strict_mode (pre ++ line :: post))
    = length (pre ++ line :: post)
    /\ nth_error (apply_indentation strict_mode (pre ++ line :: post))
         (length pre)
       = Some (if match stripped with [] => true | _ :: _ => false end
                  || startswith stripped (py "#")
               then line
               else times " " (level * INDENT_SIZE) ++ stripped)
    /\ lstrip stripped = stripped
    /\ rstrip stripped = stripped.
Proof.
  intros strict_mode pre line post st stripped level.
  split; [apply apply_indentation_length|].
  split; [|split; [apply lstrip_strip | apply rstrip_strip]].
  rewrite apply_indentation_nth. f_equal.
  unfold indent_line. fold stripped. fold st.
  destruct stripped as [|c r] eqn:E; [reflexivity|].
  cbv beta iota. unfold orb.
  destruct (startswith (c :: r) (py "#")); reflexivity.
Qed.

End IndentationFacts.

(** ** The list tokenizer *)

Module ListExpansionFacts.
Import ListExpansionEngine TokenizerNotions PyFacts.

Lemma is_blank_not_special c :
  is_blank c = true ->
  eqc c "\" = false /\ eqc c dquote = false
  /\ eqc c "{" = false /\ eqc c "}" = false.
Proof.
  unfold is_blank. intro H. apply orb_true_iff in H.
  destruct H as [H | H]; apply Ascii.eqb_eq in H; subst c;
    repeat split; reflexivity.
Qed.

Lemma backslash_step c d q :
  eqc c "\" = true -> item_step c d q = Some (d, q).
Proof.
  intro H. apply Ascii.eqb_eq in H. subst c.
  unfold item_step. destruct q; [reflexivity|].
  destruct (d =? 0)%Z; reflexivity.
Qed.

Lemma item_step_none c d q :
  item_step c d q = None ->
  q = false /\ d = 0%Z /\ is_blank c = true.
Proof.
  unfold item_step.
  destruct (eqc c dquote); [discriminate|].
  destruct q; simpl; [discriminate|].
  destruct (eqc c "{"); [discriminate|].
  destruct (eqc c "}"); [discriminate|].
  destruct (d =? 0)%Z eqn:Ed; simpl; [|discriminate].
  destruct (is_blank c); [|discriminate].
  intros _. apply Z.eqb_eq in Ed. auto.
Qed.

(** The three ways the main loop takes a character. *)
Lemma parse_loop_escape c c2 rest s :
  eqc c "\" = true ->
  parse_loop (c :: c2 :: rest) s
  = parse_loop rest (push_char c2 (push_char c s)).
Proof. intro H. simpl. rewrite H. reflexivity. Qed.

Lemma parse_loop_regular c rest s d' q' :
  eqc c "\" = false \/ rest = [] ->
  item_step c (brace_depth s) (in_string s) = Some (d', q') ->
  parse_loop (c :: rest) s
  = parse_loop rest (mkp (items s) (current_item s ++ [c]) d' q').
Proof.
  intros Hb H.
  assert (Hstep :
    (if eqc c dquote then
       parse_loop rest
         (mkp (items s) (current_item s ++ [c]) (brace_depth s)
              (negb (in_string s)))
     else if negb (in_string s) && eqc c "{" then
       parse_loop rest
         (mkp (items s) (current_item s ++ [c]) (brace_depth s + 1)%Z
              (in_string s))
     else if negb (in_string s) && eqc c "}" then
       parse_loop rest
         (mkp (items s) (current_item s ++ [c]) (brace_depth s - 1)%Z
              (in_string s))
     else if negb (in_string s) && (brace_depth s =? 0)%Z && is_blank c then
       skip_blanks (fun r => parse_loop r (flush s)) (flush s) rest
     else parse_loop rest (push_char c s))
    = parse_loop rest (mkp (items s) (current_item s ++ [c]) d' q')).
  { unfold item_step in H.
    destruct (eqc c dquote); [inversion H; reflexivity|].
    destruct (negb (in_string s) && eqc c "{"); [inversion H; reflexivity|].
    destruct (negb (in_string s) && eqc c "}"); [inversion H; reflexivity|].
    destruct (negb (in_string s) && (brace_depth s =? 0)%Z && is_blank c);
      [discriminate|].
    inversion H. reflexivity. }
  simpl. destruct (eqc c "\").
  - destruct Hb as [Hb | Hb]; [discriminate|]. subst rest. exact Hstep.
  - exact Hstep.
Qed.

Lemma parse_loop_separator c rest s :
  item_step c (brace_depth s) (in_string s) = None ->
  parse_loop (c :: rest) s
  = skip_blanks (fun r => parse_loop r (flush s)) (flush s) rest.
Proof.
  intro H. destruct (item_step_none _ _ _ H) as (Hq & Hd & Hc).
  destruct (is_blank_not_special _ Hc) as (H1 & H2 & H3 & H4).
  simpl. rewrite H1, H2, H3, H4, Hq, Hd, Hc. reflexivity.
Qed.

Lemma skip_blanks_dropwhile {A} (k : str -> A) (e : A) r :
  skip_blanks k e r
  = match dropwhile is_blank r with [] => e | _ :: _ => k (dropwhile is_blank r) end.
Proof.
  induction r as [|a r IH]; simpl; [reflexivity|].
  destruct (is_blank a); [exact IH | reflexivity].
Qed.

(** Reading an item and then more of it. *)
Lemma item_scan_app_bounded k :
  forall x, length x <= k ->
  forall last y d q r,
    item_scan false x d q = Some r ->
    item_scan last (x ++ y) d q = item_scan last y (fst r) (snd r).
Proof.
  induction k as [|k IH]; intros x Hx last y d q r H.
  - destruct x; [|simpl in Hx; lia]. inversion H. reflexivity.
  - destruct x as [|c x]; [inversion H; reflexivity|].
    simpl in Hx. simpl in H. simpl app. cbn [item_scan].
    destruct (eqc c "\") eqn:Eb.
    + destruct x as [|c2 x]; [discriminate|].
      simpl app. apply IH; [simpl in Hx; lia | exact H].
    + destruct (item_step c d q) as [[d' q']|]; [|discriminate].
      apply IH; [lia | exact H].
Qed.

Lemma item_scan_app last x y d q r :
  item_scan false x d q = Some r ->
  item_scan last (x ++ y) d q = item_scan last y (fst r) (snd r).
Proof. apply (item_scan_app_bounded (length x)). lia. Qed.

Lemma item_scan_weaken x d q r :
  item_scan false x d q = Some r -> item_scan true x d q = Some r.
Proof.
  intro H. rewrite <- (app_nil_r x), (item_scan_app true x [] d q r H).
  destruct r; reflexivity.
Qed.

(** An item does not start with a blank. *)
Lemma item_first_not_blank last it r :
  it <> [] -> item_scan last it 0%Z false = Some r ->
  exists c rest, it = c :: rest /\ is_blank c = false.
Proof.
  intros Hne H. destruct it as [|c rest]; [contradiction|].
  exists c, rest. split; [reflexivity|].
  destruct (is_blank c) eqn:Ec; [|reflexivity].
  destruct (is_blank_not_special _ Ec) as (H1 & H2 & H3 & H4).
  simpl in H. rewrite H1 in H. unfold item_step in H.
  rewrite H2, H3, H4, Ec in H. discriminate H.
Qed.

(** The loop reads an item in one go: the characters of [it] are added to
    the current item and nothing else changes but the depth and the quote
    flag. *)
Lemma consume_bounded k :
  forall it, length it <= k ->
  forall last rest s r,
    item_scan last it (brace_depth s) (in_string s) = Some r ->
    last = false \/ rest = [] ->
    parse_loop (it ++ rest) s
    = parse_loop rest
        (mkp (items s) (current_item s ++ it) (fst r) (snd r)).
Proof.
  induction k as [|k IH]; intros it Hit last rest s r H Hl.
  - destruct it; [|simpl in Hit; lia]. inversion H. simpl.
    rewrite app_nil_r. destruct s; reflexivity.
  - destruct it as [|c it].
    { inversion H. simpl. rewrite app_nil_r. destruct s; reflexivity. }
    simpl in Hit. cbn [item_scan] in H. simpl app.
    destruct (eqc c "\") eqn:Eb.
    + destruct it as [|c2 it].
      * destruct last; [|discriminate].
        destruct Hl as [Hl | Hl]; [discriminate|]. subst rest.
        rewrite (backslash_step _ _ _ Eb) in H. inversion H. simpl app.
        apply parse_loop_regular; [right; reflexivity|].
        apply backslash_step. exact Eb.
      * simpl app. rewrite (parse_loop_escape _ _ _ _ Eb).
        rewrite (IH it ltac:(simpl in Hit; lia) last rest
                   (push_char c2 (push_char c s)) r H Hl).
        simpl. rewrite <- !app_assoc. reflexivity.
    + destruct (item_step c (brace_depth s) (in_string s))
        as [[d' q']|] eqn:Es; [|discriminate].
      rewrite (parse_loop_regular c (it ++ rest) s d' q' (or_introl Eb) Es).
      rewrite (IH it ltac:(lia) last rest
                 (mkp (items s) (current_item s ++ [c]) d' q') r H Hl).
      simpl. rewrite <- app_assoc. reflexivity.
Qed.

Lemma consume last it rest s r :
  item_scan last it (brace_depth s) (in_string s) = Some r ->
  last = false \/ rest = [] ->
  parse_loop (it ++ rest) s
  = parse_loop rest (mkp (items s) (current_item s ++ it) (fst r) (snd r)).
Proof. apply (consume_bounded (length it)). lia. Qed.

Lemma loop_inv_push c s d' q' :
  loop_inv false s ->
  item_step c (brace_depth s) (in_string s) = Some (d', q') ->
  eqc c "\" = false ->
  loop_inv false (mkp (items s) (current_item s ++ [c]) d' q').
Proof.
  intros [Hi Hc] Hs Eb. split; [exact Hi|]. simpl.
  rewrite (item_scan_app false (current_item s) [c] _ _ _ Hc).
  simpl. rewrite Eb, Hs. reflexivity.
Qed.

Lemma loop_inv_flush s :
  loop_inv false s -> brace_depth s = 0%Z -> in_string s = false ->
  loop_inv false (flush s).
Proof.
  intros [Hi Hc] Hd Hq. unfold flush.
  destruct (current_item s) as [|c cur] eqn:E; [split; [exact Hi|]|].
  - rewrite E. exact Hc.
  - split; simpl.
    + apply Forall_app. split; [exact Hi|].
      constructor; [|constructor].
      split; [discriminate|]. rewrite Hc, Hd, Hq. reflexivity.
    + rewrite Hd, Hq. reflexivity.
Qed.

Lemma parse_loop_inv_bounded k :
  forall l, length l <= k ->
  forall s, loop_inv false s -> loop_inv true (parse_loop l s).
Proof.
  induction k as [|k IH]; intros l Hl s Hs.
  - destruct l; [|simpl in Hl; lia].
    destruct Hs as [Hi Hc]. split; [exact Hi|].
    apply item_scan_weaken. exact Hc.
  - destruct l as [|c rest].
    { destruct Hs as [Hi Hc]. split; [exact Hi|].
      apply item_scan_weaken. exact Hc. }
    simpl in Hl.
    destruct (eqc c "\") eqn:Eb.
    + destruct rest as [|c2 rest].
      * rewrite (parse_loop_regular c [] s _ _ (or_intror eq_refl)
                   (backslash_step _ _ _ Eb)).
        simpl. destruct Hs as [Hi Hc]. split; [exact Hi|]. simpl.
        rewrite (item_scan_app true (current_item s) [c] _ _ _ Hc).
        simpl. rewrite Eb, (backslash_step _ _ _ Eb). reflexivity.
      * rewrite (parse_loop_escape _ _ _ _ Eb).
        apply IH; [simpl in Hl; lia|].
        destruct Hs as [Hi Hc]. split; [exact Hi|]. simpl.
        rewrite <- app_assoc.
        rewrite (item_scan_app false (current_item s) ([c] ++ [c2]) _ _ _ Hc).
        simpl. rewrite Eb. reflexivity.
    + destruct (item_step c (brace_depth s) (in_string s))
        as [[d' q']|] eqn:Es.
      * rewrite (parse_loop_regular c rest s d' q' (or_introl Eb) Es).
        apply IH; [lia|]. apply loop_inv_push; assumption.
      * rewrite (parse_loop_separator _ _ _ Es), skip_blanks_dropwhile.
        destruct (item_step_none _ _ _ Es) as (Hq & Hd & _).
        pose proof (loop_inv_flush _ Hs Hd Hq) as Hf.
        pose proof (dropwhile_length is_blank rest) as Hlen.
        destruct (dropwhile is_blank rest) as [|c' r'] eqn:Edrop.
        -- change (flush s) with (parse_loop [] (flush s)).
           apply IH; [simpl; lia | exact Hf].
        -- apply IH; [lia | exact Hf].
Qed.

Lemma parse_loop_inv l :
  loop_inv true (parse_loop l pinit).
Proof.
  apply (parse_loop_inv_bounded (length l)); [lia|].
  split; [constructor | reflexivity].
Qed.

Lemma closed_last_ok it : closed it -> last_ok it.
Proof.
  intros [Hne H]. split; [exact Hne|].
  exists (0%Z, false). apply item_scan_weaken. exact H.
Qed.

Lemma join_first sep y r : exists tl, join sep (y :: r) = y ++ tl.
Proof.
  destruct r as [|z r]; simpl.
  - exists []. symmetry. apply app_nil_r.
  - eexists. reflexivity.
Qed.

(** Items joined by single blanks are read back one by one. *)
Lemma parse_join init :
  forall gathered last,
    Forall closed init -> last_ok last ->
    items (flush (parse_loop (join (py " ") (init ++ [last]))
                    (mkp gathered [] 0%Z false)))
    = gathered ++ init ++ [last].
Proof.
  induction init as [|it more IH]; intros gathered last Hinit Hlast.
  - destruct Hlast as [Hne [r Hr]]. simpl join.
    rewrite <- (app_nil_r last) at 1.
    rewrite (consume true last [] (mkp gathered [] 0%Z false) r Hr
               (or_intror eq_refl)).
    simpl. unfold flush. simpl.
    destruct last; [contradiction|]. reflexivity.
  - inversion Hinit as [|? ? Hit Hmore]; subst.
    assert (Hhead : exists y r', more ++ [last] = y :: r' /\ last_ok y).
    { destruct more as [|y more'].
      - exists last, []. split; [reflexivity | exact Hlast].
      - exists y, (more' ++ [last]). split; [reflexivity|].
        inversion Hmore; subst. apply closed_last_ok. assumption. }
    destruct Hhead as (y & r' & Hy & Hyok).
    specialize (IH (gathered ++ [it]) last Hmore Hlast).
    simpl app. rewrite Hy in *.
    change (join (py " ") (it :: y :: r'))
      with (it ++ [" "%char] ++ join (py " ") (y :: r')).
    destruct Hit as [Hne Hscan].
    rewrite (consume false it _ (mkp gathered [] 0%Z false) (0%Z, false)
               Hscan (or_introl eq_refl)).
    cbn [items current_item fst snd app].
    rewrite (parse_loop_separator " " _ (mkp gathered it 0%Z false) eq_refl),
      skip_blanks_dropwhile.
    destruct (join_first (py " ") y r') as [tl Htl].
    destruct Hyok as [Hyne [ry Hry]].
    destruct (item_first_not_blank true y ry Hyne Hry) as (c & rest & Hc & Hb).
    assert (HJ : exists c0 rest0,
               join (py " ") (y :: r') = c0 :: rest0 /\ is_blank c0 = false).
    { rewrite Htl, Hc. simpl. eauto. }
    destruct HJ as (c0 & rest0 & HJ & Hb0).
    rewrite HJ. simpl dropwhile. rewrite Hb0. cbv iota. rewrite <- HJ.
    replace (flush (mkp gathered it 0%Z false))
      with (mkp (gathered ++ [it]) [] 0%Z false).
    + rewrite IH, <- app_assoc. reflexivity.
    + unfold flush. simpl. destruct it; [contradiction | reflexivity].
Qed.

(** C8.  Tokenizing a list content, joining the items with single spaces
    and tokenizing the result gives the same items in the same order. *)
Theorem parse_list_items_rejoin :
  forall list_content : str,
    _parse_list_items (join (py " ") (_parse_list_items list_content))
    = _parse_list_items list_content.
Proof.
  intro list_content.
  unfold _parse_list_items at 2 3.
  destruct (parse_loop_inv list_content) as [Hitems Hcur].
  set (final := parse_loop list_content pinit) in *.
  unfold flush.
  destruct (current_item final) as [|c cur] eqn:Ecur.
  - destruct (items final) as [|x xs] eqn:Eitems using rev_ind;
      [reflexivity|].
    apply Forall_app in Hitems. destruct Hitems as [Hxs Hx].
    inversion Hx; subst.
    unfold _parse_list_items, pinit.
    rewrite parse_join; [reflexivity | exact Hxs |].
    apply closed_last_ok. assumption.
  - simpl items.
    unfold _parse_list_items, pinit.
    rewrite parse_join; [reflexivity | exact Hitems |].
    split; [discriminate|]. eexists. exact Hcur.
Qed.

End ListExpansionFacts.

(** ** Alignment and spacing of [set] commands *)

Module AlignmentFacts.
Import AlignmentEngine WhiteSpace PyFacts.

Lemma setitem_length {A} (l : list A) :
  forall i v l', setitem l i v = Ok l' -> length l' = length l.
Proof.
  induction l as [|x l IH]; intros i v l' H; simpl in H; [discriminate|].
  destruct i as [|i].
  - inversion H. reflexivity.
  - destruct (setitem l i v) as [r|e] eqn:E; simpl in H; [|discriminate].
    inversion H. simpl. rewrite (IH _ _ _ E). reflexivity.
Qed.

Lemma replace_block_length block_indices :
  forall res aligned_block i res',
    replace_block res aligned_block i block_indices = Ok res' ->
    length res' = length res.
Proof.
  induction block_indices as [|idx r IH]; intros res aligned_block i res' H;
    simpl in H.
  - inversion H. reflexivity.
  - destruct (index aligned_block i) as [x|e]; simpl in H; [|discriminate].
    destruct (setitem res idx x) as [res1|e] eqn:E; simpl in H;
      [|discriminate].
    rewrite (IH _ _ _ _ H). apply (setitem_length _ _ _ _ E).
Qed.

Lemma align_loop_length set_blocks :
  forall res res',
    align_loop res set_blocks = Ok res' -> length res' = length res.
Proof.
  induction set_blocks as [|b r IH]; intros res res' H; simpl in H.
  - inversion H. reflexivity.
  - destruct (_align_block res b) as [aligned|e]; simpl in H; [|discriminate].
    destruct (replace_block res aligned 0 b) as [res1|e] eqn:E; simpl in H;
      [|discriminate].
    rewrite (IH _ _ H). apply (replace_block_length _ _ _ _ _ E).
Qed.

(** When [align_set_commands] returns, it returns as many lines as it was
    given. *)
Lemma align_set_commands_length lines out :
  align_set_commands lines = Ok out -> length out = length lines.
Proof.
  unfold align_set_commands. destruct lines as [|l r].
  - intro H. inversion H. reflexivity.
  - destruct (_find_set_blocks (l :: r)) as [|b bs].
    + intro H. inversion H. reflexivity.
    + apply align_loop_length.
Qed.

(** *** Lines that differ in white space only *)

Lemma same_but_ws_refl a : same_but_ws a a.
Proof. split; reflexivity. Qed.

Lemma same_but_ws_trans a b c :
  same_but_ws a b -> same_but_ws b c -> same_but_ws a c.
Proof. intros [H1 H2] [H3 H4]. split; congruence. Qed.

Lemma erase_ws_app a b : erase_ws (a ++ b) = erase_ws a ++ erase_ws b.
Proof. apply filter_app. Qed.

Lemma erase_ws_leading l : erase_ws (takewhile isspace l) = [].
Proof.
  induction l as [|c l IH]; simpl; [reflexivity|].
  destruct (isspace c) eqn:E; simpl; [rewrite E; exact IH | reflexivity].
Qed.

Lemma erase_ws_lstrip l : erase_ws (lstrip l) = erase_ws l.
Proof.
  rewrite <- (takewhile_dropwhile isspace l) at 2.
  rewrite erase_ws_app, erase_ws_leading. reflexivity.
Qed.

Lemma erase_ws_rev l : erase_ws (rev l) = rev (erase_ws l).
Proof.
  induction l as [|c l IH]; simpl; [reflexivity|].
  rewrite erase_ws_app, IH. simpl.
  destruct (isspace c); simpl; [apply app_nil_r | reflexivity].
Qed.

Lemma erase_ws_rstrip l : erase_ws (rstrip l) = erase_ws l.
Proof.
  unfold rstrip. rewrite erase_ws_rev.
  change (dropwhile isspace (rev l)) with (lstrip (rev l)).
  rewrite erase_ws_lstrip, erase_ws_rev. apply rev_involutive.
Qed.

Lemma erase_ws_strip l : erase_ws (strip l) = erase_ws l.
Proof. unfold strip. rewrite erase_ws_rstrip. apply erase_ws_lstrip. Qed.

Lemma erase_ws_times k : erase_ws (times " " k) = [].
Proof.
  unfold times. induction (Z.to_nat k) as [|n IH]; simpl; [reflexivity|].
  exact IH.
Qed.

Lemma takewhile_length_firstn p (l : str) :
  firstn (length l - length (dropwhile p l)) l = takewhile p l.
Proof.
  pose proof (takewhile_dropwhile p l) as H.
  assert (Hlen : length l - length (dropwhile p l) = length (takewhile p l)).
  { rewrite <- H at 1. rewrite length_app. lia. }
  rewrite Hlen.
  transitivity (firstn (length (takewhile p l))
                  (takewhile p l ++ dropwhile p l)).
  - rewrite H. reflexivity.
  - generalize (dropwhile p l). generalize (takewhile p l).
    intro a. induction a as [|c a IH]; intro b0; simpl; [reflexivity|].
    rewrite IH. reflexivity.
Qed.

Lemma slice_to_firstn (s : str) (b : nat) :
  b <= length s -> slice_to s (Z.of_nat b) = firstn b s.
Proof.
  intro Hb. unfold slice_to, slice, clamp.
  assert (H0 : (0 <? 0)%Z = false) by reflexivity.
  assert (Hb' : (Z.of_nat b <? 0)%Z = false) by (apply Z.ltb_ge; lia).
  rewrite H0, Hb'.
  rewrite (Z.min_l 0) by lia. rewrite Z.min_l by lia.
  simpl skipn. f_equal. lia.
Qed.

Lemma slice_from_skipn (s : str) (a : nat) :
  slice_from s (Z.of_nat a) = skipn a s.
Proof.
  unfold slice_from, slice, clamp.
  assert (Ha : (Z.of_nat a <? 0)%Z = false) by (apply Z.ltb_ge; lia).
  assert (Hn : (Z.of_nat (length s) <? 0)%Z = false) by (apply Z.ltb_ge; lia).
  rewrite Ha, Hn, Z.min_id.
  destruct (Nat.le_gt_cases a (length s)) as [Hle | Hgt].
  - rewrite Z.min_l by lia. rewrite Nat2Z.id.
    rewrite firstn_all2; [reflexivity|]. rewrite length_skipn. lia.
  - rewrite Z.min_r by lia. rewrite Nat2Z.id.
    rewrite skipn_all. rewrite skipn_all2 by lia. apply firstn_nil.
Qed.

(** The indent [_parse_set_command] takes is the leading white space. *)
Lemma indent_is_leading_ws line :
  slice_to line (Z.of_nat (length line) - Z.of_nat (length (lstrip line)))
  = leading_ws line.
Proof.
  pose proof (dropwhile_length isspace line) as Hle.
  rewrite <- Nat2Z.inj_sub by exact Hle.
  rewrite slice_to_firstn by lia.
  apply takewhile_length_firstn.
Qed.

Lemma leading_ws_app_stop l c r :
  isspace c = false -> leading_ws (leading_ws l ++ c :: r) = leading_ws l.
Proof.
  intro Hc. unfold leading_ws.
  induction l as [|x l IH]; simpl; [rewrite Hc; reflexivity|].
  destruct (isspace x) eqn:E; simpl; [rewrite E, IH | rewrite Hc];
    reflexivity.
Qed.

(** A [set] line that parses and the line rebuilt from its parts, with
    any padding, differ in white space only, and not in the white space
    they start with. *)
Lemma parse_set_command_same line p k :
  _parse_set_command line = Some p ->
  same_but_ws line
    (indent p ++ py "set " ++ variable p ++ times " " k ++ value p).
Proof.
  unfold _parse_set_command. rewrite indent_is_leading_ws.
  destruct (startswith (strip line) (py "set ")) eqn:Es;
    [|discriminate].
  cbv beta iota. unfold negb. cbv iota.
  change 4%Z with (Z.of_nat 4). rewrite slice_from_skipn.
  unfold split1.
  set (remainder := skipn 4 (strip line)).
  destruct (lstrip remainder) as [|c0 l1] eqn:El1; [discriminate|].
  remember (takewhile (fun c => negb (isspace c)) (c0 :: l1)) as word
    eqn:Eword.
  remember (dropwhile (fun c => negb (isspace c)) (c0 :: l1)) as tail
    eqn:Etail.
  destruct (lstrip tail) as [|v0 vr] eqn:Ev; [discriminate|].
  intro H. inversion H. subst p. clear H.
  cbn [indent variable value].
  split.
  - symmetry. apply (leading_ws_app_stop line "s"). reflexivity.
  - rewrite <- (erase_ws_strip line).
    rewrite (startswith_prefix _ _ Es).
    change (skipn (length (py "set ")) (strip line)) with remainder.
    rewrite !erase_ws_app, erase_ws_leading, erase_ws_times.
    rewrite !app_nil_l. f_equal.
    rewrite <- (erase_ws_lstrip remainder), El1.
    rewrite <- (takewhile_dropwhile (fun c => negb (isspace c)) (c0 :: l1)).
    rewrite <- Eword, <- Etail.
    rewrite erase_ws_app. f_equal.
    rewrite <- erase_ws_lstrip, Ev. reflexivity.
Qed.

(** *** The alignment loops keep lines apart from their white space *)

Lemma Forall2_nth {A B} (R : A -> B -> Prop) l1 l2 :
  Forall2 R l1 l2 ->
  forall i a b, nth_error l1 i = Some a -> nth_error l2 i = Some b -> R a b.
Proof.
  induction 1 as [|x y l1 l2 Hxy _ IH]; intros i a b Ha Hb.
  - destruct i; discriminate.
  - destruct i as [|i]; simpl in *.
    + inversion Ha. inversion Hb. subst. exact Hxy.
    + apply (IH i); assumption.
Qed.

Lemma setitem_rel {A B} (R : A -> B -> Prop) lines res :
  Forall2 R lines res ->
  forall idx x res',
    setitem res idx x = Ok res' ->
    (forall l, nth_error lines idx = Some l -> R l x) ->
    Forall2 R lines res'.
Proof.
  induction 1 as [|l r lines res Hlr HF IH]; intros idx x res' Hs Hx;
    simpl in Hs; [discriminate|].
  destruct idx as [|idx].
  - inversion Hs. constructor; [apply Hx; reflexivity | exact HF].
  - destruct (setitem res idx x) as [res1|e] eqn:E; simpl in Hs;
      [|discriminate].
    inversion Hs. constructor; [exact Hlr|].
    apply (IH idx x res1 E). intros l0 Hl0. apply Hx. exact Hl0.
Qed.

Lemma index_nth {A} (l : list A) i x :
  index l i = Ok x -> nth_error l i = Some x.
Proof.
  unfold index. destruct (nth_error l i); intro H; inversion H. reflexivity.
Qed.

Lemma index_all_nth lines block_indices :
  forall set_lines,
    index_all lines block_indices = Ok set_lines ->
    length set_lines = length block_indices
    /\ forall j idx, nth_error block_indices j = Some idx ->
         nth_error set_lines j = nth_error lines idx.
Proof.
  induction block_indices as [|i r IH]; intros set_lines H; simpl in H.
  - inversion H. split; [reflexivity|]. intros [|j] idx Hj; discriminate.
  - destruct (index lines i) as [x|e] eqn:Ex; simpl in H; [|discriminate].
    destruct (index_all lines r) as [xs|e] eqn:Exs; simpl in H;
      [|discriminate].
    inversion H. destruct (IH xs eq_refl) as [Hlen Hnth].
    split; [simpl; rewrite Hlen; reflexivity|].
    intros [|j] idx Hj; simpl in *.
    + inversion Hj. subst. symmetry. apply index_nth. exact Ex.
    + apply Hnth. exact Hj.
Qed.

Lemma parse_all_length ls : length (parse_all ls) <= length ls.
Proof.
  induction ls as [|l r IH]; simpl; [lia|].
  destruct (_parse_set_command l); simpl; lia.
Qed.

(** When no line was dropped, the parsed commands are those of the lines,
    position by position. *)
Lemma parse_all_full ls :
  length ls <= length (parse_all ls) ->
  forall j l, nth_error ls j = Some l ->
  exists p, _parse_set_command l = Some p
            /\ nth_error (parse_all ls) j = Some p.
Proof.
  induction ls as [|l0 r IH]; intros Hlen j l Hj.
  - destruct j; discriminate.
  - simpl in Hlen. simpl.
    pose proof (parse_all_length r) as Hr.
    destruct (_parse_set_command l0) as [p0|] eqn:E0.
    + simpl in Hlen. destruct j as [|j]; simpl in Hj.
      * inversion Hj. subst. exists p0. split; [exact E0 | reflexivity].
      * apply IH; [lia | exact Hj].
    + lia.
Qed.

Lemma replace_block_needs block_indices :
  forall res aligned_block i res',
    replace_block res aligned_block i block_indices = Ok res' ->
    block_indices = [] \/ i + length block_indices <= length aligned_block.
Proof.
  induction block_indices as [|idx r IH]; intros res aligned i res' H;
    [left; reflexivity|].
  right. simpl in H.
  destruct (index aligned i) as [x|e] eqn:Ex; simpl in H; [|discriminate].
  destruct (setitem res idx x) as [res1|e] eqn:E; simpl in H;
    [|discriminate].
  apply index_nth in Ex.
  assert (Hi : i < length aligned)
    by (apply nth_error_Some; rewrite Ex; discriminate).
  destruct (IH _ _ _ _ H) as [Hr | Hr]; simpl.
  - subst r. simpl. lia.
  - lia.
Qed.

Lemma replace_block_rel {A} (R : A -> str -> Prop) lines block_indices :
  forall res aligned_block i res',
    Forall2 R lines res ->
    replace_block res aligned_block i block_indices = Ok res' ->
    (forall j idx x l,
        nth_error block_indices j = Some idx ->
        nth_error aligned_block (i + j) = Some x ->
        nth_error lines idx = Some l -> R l x) ->
    Forall2 R lines res'.
Proof.
  induction block_indices as [|idx r IH]; intros res aligned i res' HF H Hx;
    simpl in H.
  - inversion H. subst. exact HF.
  - destruct (index aligned i) as [x|e] eqn:Ex; simpl in H; [|discriminate].
    destruct (setitem res idx x) as [res1|e] eqn:E; simpl in H;
      [|discriminate].
    apply index_nth in Ex.
    apply (IH res1 aligned (i + 1) res'); [|exact H|].
    + apply (setitem_rel R lines res HF idx x res1 E).
      intros l Hl. apply (Hx 0 idx x l); [reflexivity | | exact Hl].
      rewrite Nat.add_0_r. exact Ex.
    + intros j idx' x' l Hj Hx' Hl.
      apply (Hx (S j) idx' x' l); [exact Hj | | exact Hl].
      replace (i + S j) with (i + 1 + j) by lia. exact Hx'.
Qed.

Lemma align_block_rel lines res block_indices aligned_block res' :
  Forall2 same_but_ws lines res ->
  _align_block res block_indices = Ok aligned_block ->
  replace_block res aligned_block 0 block_indices = Ok res' ->
  Forall2 same_but_ws lines res'.
Proof.
  intros HF Ha Hr. unfold _align_block in Ha.
  destruct (index_all res block_indices) as [set_lines|e] eqn:Ei;
    simpl in Ha; [|discriminate].
  destruct (max_of (map (fun cmd => length (variable cmd))
                      (parse_all set_lines))) as [m|e];
    simpl in Ha; [|discriminate].
  inversion Ha as [Haligned]. clear Ha.
  destruct (index_all_nth _ _ _ Ei) as [Hlen Hnth].
  destruct (replace_block_needs _ _ _ _ _ Hr) as [Hb | Hb].
  - subst block_indices. simpl in Hr. inversion Hr. subst. exact HF.
  - rewrite <- Haligned in Hb. rewrite length_map in Hb. simpl in Hb.
    apply (replace_block_rel same_but_ws lines block_indices res
             aligned_block 0 res' HF Hr).
    intros j idx x l Hj Hx Hl. simpl in Hx.
    assert (Hres : exists rl, nth_error res idx = Some rl).
    { destruct (nth_error res idx) as [rl|] eqn:E; [eauto|].
      apply nth_error_None in E.
      assert (idx < length lines)
        by (apply nth_error_Some; rewrite Hl; discriminate).
      rewrite (Forall2_length HF) in *. lia. }
    destruct Hres as [rl Hrl].
    assert (Hset : nth_error set_lines j = Some rl)
      by (rewrite (Hnth j idx Hj); exact Hrl).
    destruct (parse_all_full set_lines ltac:(lia) j rl Hset)
      as (p & Hp & Hpj).
    rewrite <- Haligned in Hx.
    rewrite (map_nth_error _ _ _ Hpj) in Hx. inversion Hx.
    apply same_but_ws_trans with rl.
    + apply (Forall2_nth _ _ _ HF idx); assumption.
    + apply parse_set_command_same. exact Hp.
Qed.

Lemma align_loop_rel lines set_blocks :
  forall res res',
    Forall2 same_but_ws lines res ->
    align_loop res set_blocks = Ok res' ->
    Forall2 same_but_ws lines res'.
Proof.
  induction set_blocks as [|b r IH]; intros res res' HF H; simpl in H.
  - inversion H. subst. exact HF.
  - destruct (_align_block res b) as [aligned|e] eqn:Ea; simpl in H;
      [|discriminate].
    destruct (replace_block res aligned 0 b) as [res1|e] eqn:Er; simpl in H;
      [|discriminate].
    apply (IH res1 res'); [|exact H].
    apply (align_block_rel lines res b aligned res1 HF Ea Er).
Qed.

Lemma Forall2_same_refl lines : Forall2 same_but_ws lines lines.
Proof.
  induction lines; constructor; [apply same_but_ws_refl | assumption].
Qed.

(** C3, as stated, fails on a line that ends in white space: the rewritten
    line has lost it, which is a difference in neither leading nor
    internal white space. *)
Lemma align_set_commands_drops_trailing_ws :
  align_set_commands [py "set x 1 "; py "set yy 2"]
  = Ok [py "set x  1"; py "set yy 2"]
  /\ ~ (exists out,
          align_set_commands [py "set x 1 "; py "set yy 2"] = Ok out
          /\ length out = 2
          /\ Forall2 (fun a b => erase_ws a = erase_ws b
                                 /\ trailing_ws a = trailing_ws b)
               [py "set x 1 "; py "set yy 2"] out).
Proof.
  split; [reflexivity|].
  intros (out & H & _ & HF).
  vm_compute in H. inversion H. subst out. clear H.
  inversion HF as [|? ? ? ? [_ Ht] _]. vm_compute in Ht. discriminate Ht.
Qed.

(** C3, amended.  Whenever [align_set_commands] returns, its result has
    as many lines as the input, in the same order, and every line has the
    leading white space and the non-white-space characters of the input
    line at its position: the result differs from the input only in the
    white space inside and at the end of the lines it rewrote. *)
Theorem align_set_commands_changes_ws_only :
  forall lines out : list str,
    align_set_commands lines = Ok out ->
    length out = length lines /\ Forall2 same_but_ws lines out.
Proof.
  intros lines out H. split; [apply align_set_commands_length; exact H|].
  unfold align_set_commands in H. destruct lines as [|l r].
  - inversion H. constructor.
  - destruct (_find_set_blocks (l :: r)) as [|b bs].
    + inversion H. apply Forall2_same_refl.
    + apply (align_loop_rel (l :: r) (b :: bs) (l :: r) out);
        [apply Forall2_same_refl | exact H].
Qed.

Lemma align_set_commands_changes_ws_only_witness :
  align_set_commands [py "  set x 10"; py ""; py "  set   longer {a  b} "]
  = Ok [py "  set x      10"; py ""; py "  set longer {a  b}"]
  /\ Forall2 same_but_ws
       [py "  set x 10"; py ""; py "  set   longer {a  b} "]
       [py "  set x      10"; py ""; py "  set longer {a  b}"].
Proof.
  split; [reflexivity|].
  exact (proj2 (align_set_commands_changes_ws_only
                  [py "  set x 10"; py ""; py "  set   longer {a  b} "]
                  [py "  set x      10"; py ""; py "  set longer {a  b}"]
                  eq_refl)).
Defined.

(** A [set] line that does not parse is left as it is by
    [apply_single_space]. *)
Lemma apply_single_space_keeps_unparsed lines i line :
  nth_error lines i = Some line ->
  _parse_set_command line = None ->
  nth_error (apply_single_space lines) i = Some line.
Proof.
  intros Hi Hp. unfold apply_single_space.
  destruct lines as [|l r]; [destruct i; discriminate|].
  rewrite (map_nth_error _ _ _ Hi). f_equal.
  unfold single_space_line. rewrite Hp.
  destruct (_is_set_command (strip line)); reflexivity.
Qed.

(** C2: the code at a [set] line without a value.  Such a line is a [set]
    command for [_is_set_command] and does not parse; [apply_single_space]
    keeps it as it is; but block formation takes it into a block, and
    [align_set_commands] then raises instead of leaving it unmodified. *)
Theorem valueless_set_line :
  _is_set_command (strip (py "set x")) = true
  /\ _parse_set_command (py "set x") = None
  /\ apply_single_space [py "set x"; py "set y    1"]
     = [py "set x"; py "set y 1"]
  /\ _find_set_blocks [py "set x"; py "set y 1"] = [[0; 1]]
  /\ align_set_commands [py "set x"; py "set y 1"] = Raise IndexError.
Proof. repeat split; reflexivity. Qed.

(** On two [set] lines without values [align_set_commands] does not
    return either: the maximum of no name lengths is asked for. *)
Remark align_set_commands_raises :
  _find_set_blocks [py "set x"; py "set y"] = [[0; 1]]
  /\ _align_block [py "set x"; py "set y"] [0; 1] = Raise ValueError
  /\ align_set_commands [py "set x"; py "set y"] = Raise ValueError.
Proof. repeat split; reflexivity. Qed.

End AlignmentFacts.

(** ** The formatting pipeline *)

Module FormatterFacts.
Import TCLFormatter Pipeline.

Lemma format_lines_passes align_set expand_lists strict_indent lines :
  _format_lines align_set expand_lists strict_indent lines
  = passes align_set expand_lists strict_indent lines.
Proof.
  destruct lines; [|reflexivity].
  destruct align_set, expand_lists; reflexivity.
Qed.

Section Outcome.

Variables (align_set expand_lists strict_indent : bool).
Variable _read_file : str -> result (list str).
Variable _generate_output_path : str -> str.
Variable error_log_path_of : str -> str.
Variable dir_writable : str -> bool.
Variable io_write : str -> str -> written.
Variable exn_str : exn -> str.

Let format := format_file align_set expand_lists strict_indent _read_file
                _generate_output_path error_log_path_of dir_writable
                io_write exn_str.

(** Invalid input: the outcome is a failure that carries the validator's
    diagnostics, and the only file written is the error log. *)
Lemma format_file_invalid input_path lines d :
  _read_file input_path = Ok lines ->
  SyntaxValidator.validate lines <> [] ->
  let errors := SyntaxValidator.validate lines in
  io_write (error_log_path_of input_path) (file_text (map error_line errors))
  = Complete ->
  exists msg,
    format input_path d
    = (mkFormattingResult false None (Some (error_log_path_of input_path))
         (Some errors) msg,
       d ++ [(error_log_path_of input_path,
              file_text (map error_line errors))]).
Proof.
  intros Hread Hne errors Hw. unfold format, format_file.
  rewrite Hread. fold errors.
  destruct errors as [|e es] eqn:E; [contradiction|].
  unfold _generate_error_log, write_lines. rewrite Hw.
  eexists. reflexivity.
Qed.

(** Valid input: the lines written are the result of the passes. *)
Lemma format_file_valid input_path lines d formatted :
  _read_file input_path = Ok lines ->
  SyntaxValidator.validate lines = [] ->
  passes align_set expand_lists strict_indent lines = Ok formatted ->
  dir_writable (_generate_output_path input_path) = true ->
  io_write (_generate_output_path input_path) (file_text formatted)
  = Complete ->
  exists msg,
    format input_path d
    = (mkFormattingResult true (Some (_generate_output_path input_path))
         None None msg,
       d ++ [(_generate_output_path input_path, file_text formatted)]).
Proof.
  intros Hread Hval Hp Hd Hw. unfold format, format_file.
  rewrite Hread, Hval, format_lines_passes, Hp.
  unfold _write_file, write_lines. rewrite Hd, Hw.
  eexists. reflexivity.
Qed.

End Outcome.

(** What [format_file] does when the passes return and the files can be
    written.  For the lines read from the input: when the validator
    returns a non-empty list, formatting stops with a failure outcome that
    carries exactly that list, and nothing but the error log is written,
    so no rewrite pass has produced output; when the list is empty, the
    lines written are those of indentation, then list expansion if it is
    enabled, then alignment if it is enabled and single-space
    normalization if it is not, in that order. *)
Theorem format_file_outcome :
  forall (align_set expand_lists strict_indent : bool)
         (_read_file : str -> result (list str))
         (_generate_output_path error_log_path_of : str -> str)
         (dir_writable : str -> bool) (io_write : str -> str -> written)
         (exn_str : exn -> str)
         (input_path : str) (lines : list str) (d : disk),
    let format :=
      format_file align_set expand_lists strict_indent _read_file
        _generate_output_path error_log_path_of dir_writable io_write
        exn_str in
    let errors := SyntaxValidator.validate lines in
    _read_file input_path = Ok lines ->
    (errors <> [] ->
     io_write (error_log_path_of input_path)
       (file_text (map error_line errors)) = Complete ->
     exists msg,
       format input_path d
       = (mkFormattingResult false None
            (Some (error_log_path_of input_path)) (Some errors) msg,
          d ++ [(error_log_path_of input_path,
                 file_text (map error_line errors))]))
    /\ (errors = [] ->
        _format_lines align_set expand_lists strict_indent lines
        = passes align_set expand_lists strict_indent lines
        /\ forall formatted,
            passes align_set expand_lists strict_indent lines = Ok formatted ->
            dir_writable (_generate_output_path input_path) = true ->
            io_write (_generate_output_path input_path) (file_text formatted)
            = Complete ->
            exists msg,
              format input_path d
              = (mkFormattingResult true
                   (Some (_generate_output_path input_path)) None None msg,
                 d ++ [(_generate_output_path input_path,
                        file_text formatted)])).
Proof.
  intros until d. intros format errors Hread. split.
  - intros Hne Hw. apply format_file_invalid; assumption.
  - intro Hval. split; [apply format_lines_passes|].
    intros formatted Hp Hd Hw. apply format_file_valid with lines; assumption.
Qed.

Lemma format_file_outcome_witness :
  (exists msg,
      format_file true false false
        (fun _ => Ok [py "if {$x > 5} {"; py "puts hi"])
        (fun p => p ++ py "_formatted") (fun _ => py "errors.log")
        (fun _ => true) (fun _ _ => Complete) (fun _ => []) (py "in.tcl") []
      = (mkFormattingResult false None (Some (py "errors.log"))
           (Some [mkSyntaxError 1 (py "Unmatched opening brace") (py "brace")])
           msg,
         [(py "errors.log",
           file_text [py "Line 1: Unmatched opening brace"])]))
  /\ (exists msg,
        format_file true false false
          (fun _ => Ok [py "if {$x > 5} {"; py "set x 10";
                        py "set variable_name 20"; py "}"])
          (fun p => p ++ py "_formatted") (fun _ => py "errors.log")
          (fun _ => true) (fun _ _ => Complete) (fun _ => []) (py "in.tcl") []
        = (mkFormattingResult true (Some (py "in.tcl_formatted")) None None
             msg,
           [(py "in.tcl_formatted",
             file_text
               [py "if {$x > 5} {"; py "  set x             10";
                py "  set variable_name 20"; py "}"])])).
Proof.
  split.
  - apply (proj1 (format_file_outcome true false false
                    (fun _ => Ok [py "if {$x > 5} {"; py "puts hi"])
                    (fun p => p ++ py "_formatted") (fun _ => py "errors.log")
                    (fun _ => true) (fun _ _ => Complete) (fun _ => [])
                    (py "in.tcl") [py "if {$x > 5} {"; py "puts hi"] []
                    eq_refl));
      [discriminate | reflexivity].
  - apply (proj2 (proj2 (format_file_outcome true false false
                    (fun _ => Ok [py "if {$x > 5} {"; py "set x 10";
                                  py "set variable_name 20"; py "}"])
                    (fun p => p ++ py "_formatted") (fun _ => py "errors.log")
                    (fun _ => true) (fun _ _ => Complete) (fun _ => [])
                    (py "in.tcl")
                    [py "if {$x > 5} {"; py "set x 10";
                     py "set variable_name 20"; py "}"] []
                    eq_refl) eq_refl));
      reflexivity.
Defined.

(** C1.  The second half of the claim fails on a valid input: for the two
    lines [set x] and [set y 1] and alignment enabled, the validator
    returns the empty list, yet no output is produced: [_format_lines]
    raises the [IndexError] of [align_set_commands] on a [set] line
    without a value, and [format_file] reports an unexpected error and
    writes nothing. *)
Theorem format_file_valid_input_no_output :
  forall (expand_lists strict_indent : bool)
         (_generate_output_path error_log_path_of : str -> str)
         (dir_writable : str -> bool) (io_write : str -> str -> written)
         (exn_str : exn -> str) (input_path : str) (d : disk),
    SyntaxValidator.validate [py "set x"; py "set y 1"] = []
    /\ _format_lines true expand_lists strict_indent
         [py "set x"; py "set y 1"] = Raise IndexError
    /\ format_file true expand_lists strict_indent
         (fun _ => Ok [py "set x"; py "set y 1"])
         _generate_output_path error_log_path_of dir_writable io_write
         exn_str input_path d
       = (mkFormattingResult false None None None
            (py "Unexpected error: " ++ exn_str IndexError),
          d).
Proof.
  intros expand_lists strict_indent _generate_output_path error_log_path_of
    dir_writable io_write exn_str input_path d.
  assert (Hv : SyntaxValidator.validate [py "set x"; py "set y 1"] = [])
    by reflexivity.
  assert (Hf : _format_lines true expand_lists strict_indent
                 [py "set x"; py "set y 1"] = Raise IndexError)
    by (destruct expand_lists, strict_indent; reflexivity).
  split; [exact Hv|]. split; [exact Hf|].
  unfold format_file. rewrite Hv, Hf. reflexivity.
Qed.

End FormatterFacts.

(** ** More on the indentation pass *)

Module IndentationMore.
Import IndentationEngine IndentationNotions PyFacts IndentationFacts.

Lemma is_continuation_line_false line : _is_continuation_line line = false.
Proof.
  unfold _is_continuation_line.
  destruct (startswith line (py "#")); [reflexivity|].
  destruct (startswith line (py "{") || startswith line (py "}"));
    [reflexivity|].
  destruct (mem _ BLOCK_KEYWORDS); [reflexivity|].
  destruct (mem _ _); reflexivity.
Qed.

Lemma calculate_indent_level_strict strict_mode line level q :
  _calculate_indent_level strict_mode line level q
  = _calculate_indent_level false line level q.
Proof.
  unfold _calculate_indent_level.
  rewrite is_continuation_line_false, andb_false_r. reflexivity.
Qed.

Lemma indent_line_strict strict_mode st line :
  indent_line strict_mode st line = indent_line false st line.
Proof.
  unfold indent_line. destruct (strip line); [reflexivity|].
  destruct (startswith _ _); [reflexivity|].
  rewrite calculate_indent_level_strict. reflexivity.
Qed.

Lemma indent_loop_strict strict_mode lines :
  forall st, indent_loop strict_mode st lines = indent_loop false st lines.
Proof.
  induction lines as [|l r IH]; intro st; simpl; [reflexivity|].
  rewrite indent_line_strict. destruct (indent_line false st l).
  rewrite IH. reflexivity.
Qed.

(** The strict mode of the indentation engine changes nothing: the test
    for continuation lines answers no for every line. *)
Theorem strict_mode_changes_nothing :
  forall (strict_mode : bool) (lines : list str),
    apply_indentation strict_mode lines = apply_indentation false lines.
Proof.
  intros strict_mode lines. destruct lines; [reflexivity|].
  apply indent_loop_strict.
Qed.

Lemma lstrip_times k s : lstrip (times " " k ++ s) = lstrip s.
Proof.
  unfold times. induction (Z.to_nat k) as [|n IH]; [reflexivity|].
  simpl. exact IH.
Qed.

Lemma strip_indented k line : strip (times " " k ++ strip line) = strip line.
Proof.
  unfold strip at 1. rewrite lstrip_times, lstrip_strip. apply rstrip_strip.
Qed.

(** A line the pass has written is written again as it is, from the same
    loop variables and with the same effect on them. *)
Lemma indent_line_again strict_mode st line :
  indent_line strict_mode st (fst (indent_line strict_mode st line))
  = indent_line strict_mode st line.
Proof.
  unfold indent_line at 2 3.
  destruct (strip line) as [|c r] eqn:E.
  - simpl fst. unfold indent_line. rewrite E. reflexivity.
  - destruct (startswith (c :: r) (py "#")) eqn:Ec.
    + simpl fst. unfold indent_line. rewrite E, Ec. reflexivity.
    + simpl fst. unfold indent_line. rewrite <- E, strip_indented, E, Ec.
      reflexivity.
Qed.

Lemma indent_loop_again strict_mode lines :
  forall st,
    indent_loop strict_mode st (indent_loop strict_mode st lines)
    = indent_loop strict_mode st lines.
Proof.
  induction lines as [|l r IH]; intro st; [reflexivity|].
  simpl. destruct (indent_line strict_mode st l) as [out st'] eqn:E.
  simpl. pose proof (indent_line_again strict_mode st l) as H.
  rewrite E in H. simpl in H. rewrite H, IH. reflexivity.
Qed.

(** Indenting is idempotent: the pass applied to its own output returns
    it unchanged. *)
Theorem apply_indentation_idempotent :
  forall (strict_mode : bool) (lines : list str),
    apply_indentation strict_mode (apply_indentation strict_mode lines)
    = apply_indentation strict_mode lines.
Proof.
  intros strict_mode lines. destruct lines as [|l r]; [reflexivity|].
  unfold apply_indentation at 2 3.
  assert (H : exists o os, indent_loop strict_mode init (l :: r) = o :: os).
  { simpl. destruct (indent_line strict_mode init l). eauto. }
  destruct H as (o & os & H).
  unfold apply_indentation. rewrite H, <- H. apply indent_loop_again.
Qed.

End IndentationMore.

(** ** More on [set] commands: parsing a rebuilt line *)

Module SetCommandFacts.
Import AlignmentEngine WhiteSpace SetCommandNotions PyFacts IndentationFacts
  AlignmentFacts.

Lemma takewhile_all p (l : str) : Forall (fun c => p c = true) (takewhile p l).
Proof.
  induction l as [|c l IH]; simpl; [constructor|].
  destruct (p c) eqn:E; constructor; assumption.
Qed.

Lemma takewhile_app_stop p (a : str) c r :
  Forall (fun x => p x = true) a -> p c = false ->
  takewhile p (a ++ c :: r) = a.
Proof.
  intros Ha Hc. induction Ha as [|x a Hx _ IH]; simpl.
  - rewrite Hc. reflexivity.
  - rewrite Hx, IH. reflexivity.
Qed.

Lemma dropwhile_app_stop p (a : str) c r :
  Forall (fun x => p x = true) a -> p c = false ->
  dropwhile p (a ++ c :: r) = c :: r.
Proof.
  intros Ha Hc. induction Ha as [|x a Hx _ IH]; simpl.
  - rewrite Hc. reflexivity.
  - rewrite Hx, IH. reflexivity.
Qed.

Lemma no_trailing_ws_rstrip s : no_trailing_ws (rstrip s).
Proof. intros c r H. exact (rstrip_last _ _ _ H). Qed.

Lemma no_trailing_ws_fixed s : no_trailing_ws s -> rstrip s = s.
Proof.
  intro H. unfold rstrip. rewrite dropwhile_fixed; [apply rev_involutive|].
  exact H.
Qed.

Lemma no_trailing_ws_suffix a b :
  b <> [] -> no_trailing_ws (a ++ b) -> no_trailing_ws b.
Proof.
  intros Hb H c r Hr. apply (H c (r ++ rev a)).
  rewrite rev_app_distr, Hr. reflexivity.
Qed.

Lemma no_trailing_ws_app a b :
  b <> [] -> no_trailing_ws b -> no_trailing_ws (a ++ b).
Proof.
  intros Hb H c r Hr. rewrite rev_app_distr in Hr.
  destruct (rev b) as [|c' r'] eqn:E.
  - apply (f_equal (@rev ascii)) in E. rewrite rev_involutive in E.
    simpl in E. contradiction.
  - simpl in Hr. inversion Hr. subst. apply (H c r'). exact E.
Qed.

Lemma skipn_suffix {A} n (l : list A) : exists pre, l = pre ++ skipn n l.
Proof. exists (firstn n l). symmetry. apply firstn_skipn. Qed.

Lemma parse_set_command_parts line p :
  _parse_set_command line = Some p -> parts_ok line p.
Proof.
  unfold _parse_set_command. rewrite indent_is_leading_ws.
  destruct (startswith (strip line) (py "set ")) eqn:Es; [|discriminate].
  cbv beta iota. unfold negb. cbv iota.
  change 4%Z with (Z.of_nat 4). rewrite slice_from_skipn.
  unfold split1.
  destruct (lstrip (skipn 4 (strip line))) as [|c0 l1] eqn:El1;
    [discriminate|].
  remember (takewhile (fun c => negb (isspace c)) (c0 :: l1)) as word
    eqn:Eword.
  remember (dropwhile (fun c => negb (isspace c)) (c0 :: l1)) as tail
    eqn:Etail.
  destruct (lstrip tail) as [|v0 vr] eqn:Ev; [discriminate|].
  intro H. inversion H. subst p. clear H.
  assert (Hc0 : isspace c0 = false) by exact (dropwhile_head _ _ _ _ El1).
  split; cbn [indent variable value].
  - exact Es.
  - reflexivity.
  - rewrite Eword. simpl. rewrite Hc0. discriminate.
  - rewrite Eword. apply takewhile_all.
  - exists v0, vr. split; [reflexivity|]. exact (dropwhile_head _ _ _ _ Ev).
  - destruct (skipn_suffix 4 (strip line)) as [p1 H1].
    destruct (dropwhile_suffix isspace (skipn 4 (strip line))) as [p2 H2].
    destruct (dropwhile_suffix (fun c => negb (isspace c)) (c0 :: l1))
      as [p3 H3].
    destruct (dropwhile_suffix isspace tail) as [p4 H4].
    fold (lstrip (skipn 4 (strip line))) in H2. rewrite El1 in H2.
    rewrite <- Etail in H3. fold (lstrip tail) in H4. rewrite Ev in H4.
    apply (no_trailing_ws_suffix (p1 ++ p2 ++ p3 ++ p4)); [discriminate|].
    rewrite <- !app_assoc, <- H4, <- H3, <- H2, <- H1.
    unfold strip. apply no_trailing_ws_rstrip.
Qed.

Lemma times_positive k :
  (1 <= k)%Z -> exists n, times " " k = " "%char :: repeat " "%char n.
Proof.
  intro H. unfold times. destruct (Z.to_nat k) as [|n] eqn:E; [lia|].
  exists n. reflexivity.
Qed.

Lemma leading_ws_all line : Forall (fun c => isspace c = true) (leading_ws line).
Proof. apply takewhile_all. Qed.

(** The text of a rebuilt line after its indent, trimmed. *)
Lemma strip_rebuilt line p k :
  parts_ok line p ->
  strip (indent p ++ py "set " ++ variable p ++ times " " k ++ value p)
  = py "set " ++ variable p ++ times " " k ++ value p.
Proof.
  intros [_ Hi _ _ (c & r & Hv & Hc) Hend].
  unfold strip, lstrip. rewrite Hi.
  change (py "set " ++ variable p ++ times " " k ++ value p)
    with ("s"%char :: py "et " ++ variable p ++ times " " k ++ value p).
  rewrite (dropwhile_app_stop isspace _ "s" _ (leading_ws_all line) eq_refl).
  apply no_trailing_ws_fixed.
  replace ("s"%char :: py "et " ++ variable p ++ times " " k ++ value p)
    with ((py "set " ++ variable p ++ times " " k) ++ value p)
    by (rewrite <- !app_assoc; reflexivity).
  apply no_trailing_ws_app; [rewrite Hv; discriminate | exact Hend].
Qed.

Lemma startswith_app (p r : str) : startswith (p ++ r) p = true.
Proof.
  induction p as [|a p IH]; simpl.
  - destruct r; reflexivity.
  - rewrite IH. unfold eqc. rewrite Ascii.eqb_refl. reflexivity.
Qed.

Lemma is_set_command_prefix rest : _is_set_command (py "set " ++ rest) = true.
Proof.
  unfold _is_set_command, split1. rewrite startswith_app.
  change (py "set " ++ rest)
    with ("s"%char :: "e"%char :: "t"%char :: " "%char :: rest).
  assert (H : lstrip ("s"%char :: "e"%char :: "t"%char :: " "%char :: rest)
              = "s"%char :: "e"%char :: "t"%char :: " "%char :: rest)
    by reflexivity.
  rewrite H.
  assert (Hw : takewhile (fun c => negb (isspace c))
                 ("s"%char :: "e"%char :: "t"%char :: " "%char :: rest)
               = py "set") by reflexivity.
  rewrite Hw.
  destruct (lstrip (dropwhile (fun c => negb (isspace c))
                      ("s"%char :: "e"%char :: "t"%char :: " "%char :: rest)));
    reflexivity.
Qed.

(** A rebuilt line is a [set] command and parses into the parts it was
    built from, whatever the padding, as long as there is some. *)
Lemma parse_rebuilt line p k :
  parts_ok line p -> (1 <= k)%Z ->
  let rebuilt := indent p ++ py "set " ++ variable p ++ times " " k ++ value p in
  _is_set_command (strip rebuilt) = true
  /\ _parse_set_command rebuilt = Some p.
Proof.
  intros Hok Hk rebuilt.
  pose proof (strip_rebuilt line p k Hok) as Hstrip. fold rebuilt in Hstrip.
  destruct Hok as [_ Hi Hvar Hword (c & r & Hv & Hc) Hend].
  destruct (times_positive k Hk) as [n Hn].
  split.
  - rewrite Hstrip. apply is_set_command_prefix.
  - unfold _parse_set_command. rewrite indent_is_leading_ws, Hstrip.
    rewrite startswith_app.
    cbv beta iota. unfold negb. cbv iota.
    change 4%Z with (Z.of_nat 4). rewrite slice_from_skipn.
    change (skipn 4 (py "set " ++ variable p ++ times " " k ++ value p))
      with (variable p ++ times " " k ++ value p).
    assert (Hlead : leading_ws rebuilt = indent p).
    { unfold rebuilt. rewrite Hi.
      apply (leading_ws_app_stop line "s"). reflexivity. }
    rewrite Hlead.
    unfold split1.
    destruct (variable p) as [|x xs] eqn:Evar; [contradiction|].
    assert (Hx : isspace x = false).
    { inversion Hword as [|? ? Hx' _]. apply negb_true_iff in Hx'. exact Hx'. }
    assert (Hl : lstrip ((x :: xs) ++ times " " k ++ value p)
                 = (x :: xs) ++ times " " k ++ value p).
    { unfold lstrip. simpl. rewrite Hx. reflexivity. }
    rewrite Hl. rewrite Hn.
    change ((x :: xs) ++ (" "%char :: repeat " "%char n) ++ value p)
      with (x :: xs ++ " "%char :: repeat " "%char n ++ value p).
    change (x :: xs ++ " "%char :: repeat " "%char n ++ value p)
      with ((x :: xs) ++ " "%char :: repeat " "%char n ++ value p).
    rewrite (takewhile_app_stop _ (x :: xs) " " _ Hword eq_refl).
    rewrite (dropwhile_app_stop _ (x :: xs) " " _ Hword eq_refl).
    assert (Hrest : lstrip (" "%char :: repeat " "%char n ++ value p)
                    = value p).
    { unfold lstrip. simpl. clear Hn.
      induction n as [|m IH]; simpl.
      - rewrite Hv. simpl. rewrite Hc. reflexivity.
      - exact IH. }
    rewrite Hrest, Hv. cbn [app]. cbv iota. rewrite <- Hv, <- Evar.
    destruct p; reflexivity.
Qed.

End SetCommandFacts.

(** ** Single-space normalization *)

Module SingleSpaceFacts.
Import AlignmentEngine WhiteSpace SetCommandNotions PyFacts AlignmentFacts
  SetCommandFacts.

Lemma single_space_line_same line : same_but_ws line (single_space_line line).
Proof.
  unfold single_space_line.
  destruct (_is_set_command (strip line)); [|apply same_but_ws_refl].
  destruct (_parse_set_command line) as [p|] eqn:E; [|apply same_but_ws_refl].
  change (py " ") with (times " " 1).
  apply parse_set_command_same. exact E.
Qed.

(** Normalization keeps the number of lines and their order, and changes
    nothing in a line but white space after its indent: every line keeps
    the white space it starts with and its other characters. *)
Theorem apply_single_space_changes_ws_only :
  forall lines : list str,
    length (apply_single_space lines) = length lines
    /\ Forall2 same_but_ws lines (apply_single_space lines).
Proof.
  intro lines. unfold apply_single_space. destruct lines as [|l r].
  - split; [reflexivity | constructor].
  - split; [apply length_map|].
    generalize (l :: r). intro ls.
    induction ls as [|x xs IH]; simpl; constructor;
      [apply single_space_line_same | exact IH].
Qed.

Lemma single_space_line_again line :
  single_space_line (single_space_line line) = single_space_line line.
Proof.
  unfold single_space_line at 2 3.
  destruct (_is_set_command (strip line)) eqn:Es.
  - destruct (_parse_set_command line) as [p|] eqn:E.
    + change (py " ") with (times " " 1).
      destruct (parse_rebuilt line p 1 (parse_set_command_parts _ _ E)
                  ltac:(lia)) as [Hset Hparse].
      unfold single_space_line. rewrite Hset, Hparse. reflexivity.
    + unfold single_space_line. rewrite Es, E. reflexivity.
  - unfold single_space_line. rewrite Es. reflexivity.
Qed.

(** Normalization is idempotent, on every input. *)
Theorem apply_single_space_idempotent :
  forall lines : list str,
    apply_single_space (apply_single_space lines) = apply_single_space lines.
Proof.
  intro lines. destruct lines as [|l r]; [reflexivity|].
  unfold apply_single_space at 2 3. simpl map. unfold apply_single_space.
  simpl map. rewrite single_space_line_again. f_equal.
  rewrite map_map. apply map_ext. intro x. apply single_space_line_again.
Qed.

(** A line it rewrote is a [set] command with exactly one space between
    the name and the value. *)
Lemma single_space_line_shape line p :
  _is_set_command (strip line) = true ->
  _parse_set_command line = Some p ->
  single_space_line line
  = leading_ws line ++ py "set " ++ variable p ++ py " " ++ value p.
Proof.
  intros Hs Hp. unfold single_space_line. rewrite Hs, Hp.
  rewrite (ok_indent _ _ (parse_set_command_parts _ _ Hp)). reflexivity.
Qed.

End SingleSpaceFacts.

(** ** Blocks of [set] commands *)

Module BlockFacts.
Import AlignmentEngine WhiteSpace SetCommandNotions PyFacts AlignmentFacts
  SetCommandFacts.

Lemma sorted_snoc (b : list nat) i :
  StronglySorted lt b -> Forall (fun x => x < i) b ->
  StronglySorted lt (b ++ [i]).
Proof.
  induction 1 as [|x b Hs IH Hx]; intro Hlt; simpl.
  - constructor; constructor.
  - inversion Hlt; subst. constructor; [apply IH; assumption|].
    apply Forall_app. split; [exact Hx|]. constructor; [assumption|constructor].
Qed.

Lemma save_block_ok lines s i :
  find_inv lines s i -> Forall (block_ok lines) (save_block s).
Proof.
  intros (Hb & Hs & _ & Hc). unfold save_block.
  destruct (1 <? length (current_block s)) eqn:E; [|exact Hb].
  apply Nat.ltb_lt in E. apply Forall_app. split; [exact Hb|].
  constructor; [|constructor].
  split; [lia|]. split; [exact Hs|].
  destruct (current_indent s) as [ci|].
  - exists ci. exact Hc.
  - rewrite Hc in E. simpl in E. lia.
Qed.

Lemma find_inv_weaken lines blocks0 i :
  Forall (block_ok lines) blocks0 -> find_inv lines (mkb blocks0 [] None) i.
Proof.
  intro H. split; [exact H|]. split; [constructor|].
  split; [constructor | reflexivity].
Qed.

Lemma find_step_inv lines s i line :
  nth_error lines i = Some line ->
  find_inv lines s i -> find_inv lines (find_step s i line) (i + 1).
Proof.
  intros Hi Hinv. pose proof (save_block_ok lines s i Hinv) as Hsave.
  destruct Hinv as (Hb & Hs & Hlt & Hc).
  assert (Hlt' : Forall (fun x => x < i + 1) (current_block s)).
  { eapply Forall_impl; [|exact Hlt]. simpl. intros. lia. }
  unfold find_step. destruct (strip line) as [|c r] eqn:Estrip.
  - split; [exact Hb|]. split; [exact Hs|]. split; [exact Hlt' | exact Hc].
  - destruct (startswith (c :: r) (py "#"));
      [apply find_inv_weaken; exact Hsave|].
    destruct (_is_set_command (c :: r)) eqn:Eset;
      [|apply find_inv_weaken; exact Hsave].
    assert (Hat : set_line_at lines (length line - length (lstrip line)) i).
    { exists line. rewrite Estrip. auto. }
    assert (Hadd : forall ci,
               Forall (set_line_at lines ci) (current_block s) ->
               ci = length line - length (lstrip line) ->
               find_inv lines
                 (mkb (blocks s) (current_block s ++ [i])
                      (Some (length line - length (lstrip line)))) (i + 1)).
    { intros ci Hall Hci. subst ci.
      split; [exact Hb|]. split; [apply sorted_snoc; assumption|].
      split.
      - apply Forall_app. split; [exact Hlt'|].
        constructor; [lia | constructor].
      - simpl. apply Forall_app. split; [exact Hall|].
        constructor; [exact Hat | constructor]. }
    destruct (current_indent s) as [ci|] eqn:Eci.
    + destruct (length line - length (lstrip line) =? ci) eqn:Eeq.
      * apply Nat.eqb_eq in Eeq. apply (Hadd ci Hc). symmetry. exact Eeq.
      * split; [exact Hsave|]. simpl.
        split; [constructor; constructor|].
        split; [constructor; [lia | constructor]|].
        constructor; [exact Hat | constructor].
    + rewrite Hc. simpl app.
      split; [exact Hb|]. simpl.
      split; [constructor; constructor|].
      split; [constructor; [lia | constructor]|].
      constructor; [exact Hat | constructor].
Qed.

Lemma find_loop_inv lines rest :
  forall pre s,
    lines = pre ++ rest ->
    find_inv lines s (length pre) ->
    find_inv lines (find_loop s (length pre) rest) (length lines).
Proof.
  induction rest as [|line rest' IH]; intros pre s Hl Hinv; simpl.
  - replace (length lines) with (length pre)
      by (rewrite Hl, app_nil_r; reflexivity).
    exact Hinv.
  - assert (Hn : nth_error lines (length pre) = Some line).
    { rewrite Hl, nth_error_app2, Nat.sub_diag by lia. reflexivity. }
    replace (length pre + 1) with (length (pre ++ [line]))
      by (rewrite length_app; reflexivity).
    apply IH.
    + rewrite Hl, <- app_assoc. reflexivity.
    + rewrite length_app. simpl. apply find_step_inv; assumption.
Qed.

Lemma find_set_blocks_ok :
  forall lines : list str,
    Forall (block_ok lines) (_find_set_blocks lines).
Proof.
  intro lines. unfold _find_set_blocks.
  apply (save_block_ok lines _ (length lines)).
  apply (find_loop_inv lines lines [] (mkb [] [] None) eq_refl).
  apply find_inv_weaken. constructor.
Qed.

(** Every block [_find_set_blocks] returns has at least two line indices,
    in increasing order, and each is the index of a [set] command of the
    input, all of one block indented alike. *)
Theorem find_set_blocks_sound :
  forall lines : list str,
    Forall (fun b =>
              2 <= length b
              /\ StronglySorted lt b
              /\ exists ind,
                  Forall (fun i =>
                            exists l,
                              nth_error lines i = Some l
                              /\ _is_set_command (strip l) = true
                              /\ length l - length (lstrip l) = ind) b)
      (_find_set_blocks lines).
Proof. exact find_set_blocks_ok. Qed.

End BlockFacts.

(** ** When alignment returns, and what it leaves alone *)

Module AlignmentMore.
Import AlignmentEngine WhiteSpace SetCommandNotions PyFacts AlignmentFacts
  SetCommandFacts BlockFacts.

Lemma index_all_ok (lines : list str) block_indices :
  Forall (fun i => i < length lines) block_indices ->
  exists set_lines, index_all lines block_indices = Ok set_lines.
Proof.
  induction 1 as [|i r Hi _ [xs IH]]; simpl; [eauto|].
  unfold index. destruct (nth_error lines i) as [x|] eqn:E.
  - simpl. rewrite IH. simpl. eauto.
  - apply nth_error_None in E. lia.
Qed.

Lemma parse_all_all ls :
  Forall (fun l => exists p, _parse_set_command l = Some p) ls ->
  length (parse_all ls) = length ls.
Proof.
  induction 1 as [|l r [p Hp] _ IH]; simpl; [reflexivity|].
  rewrite Hp. simpl. rewrite IH. reflexivity.
Qed.

Lemma fold_max_bounds r :
  forall x, x <= fold_left Nat.max r x
            /\ Forall (fun y => y <= fold_left Nat.max r x) r.
Proof.
  induction r as [|y r IH]; intro x; simpl; [split; [lia | constructor]|].
  destruct (IH (Nat.max x y)) as [H1 H2].
  split; [lia|]. constructor; [lia | exact H2].
Qed.

Lemma fold_max_attained r :
  forall x, In (fold_left Nat.max r x) (x :: r).
Proof.
  induction r as [|y r IH]; intro x; simpl; [left; reflexivity|].
  destruct (IH (Nat.max x y)) as [H | H].
  - destruct (Nat.max_spec x y) as [[_ Hm] | [_ Hm]]; rewrite Hm in *.
    + right. left. exact H.
    + left. exact H.
  - right. right. exact H.
Qed.

Lemma max_of_bounds l m :
  max_of l = Ok m -> Forall (fun y => y <= m) l /\ In m l.
Proof.
  destruct l as [|x r]; simpl; [discriminate|].
  intro H. inversion H. subst m.
  destruct (fold_max_bounds r x) as [H1 H2].
  split; [constructor; assumption | apply fold_max_attained].
Qed.

Lemma setitem_ok {A} (l : list A) :
  forall i v, i < length l -> exists l', setitem l i v = Ok l'.
Proof.
  induction l as [|x l IH]; intros i v Hi; simpl in *; [lia|].
  destruct i as [|i]; [eauto|].
  destruct (IH i v ltac:(lia)) as [l' Hl']. rewrite Hl'. simpl. eauto.
Qed.

Lemma replace_block_ok block_indices :
  forall (res aligned_block : list str) i,
    Forall (fun idx => idx < length res) block_indices ->
    i + length block_indices <= length aligned_block ->
    exists res', replace_block res aligned_block i block_indices = Ok res'.
Proof.
  induction block_indices as [|idx r IH]; intros res aligned i Hidx Hlen;
    simpl; [eauto|].
  inversion Hidx as [|? ? Hi Hr]; subst. simpl in Hlen.
  unfold index. destruct (nth_error aligned i) as [x|] eqn:E.
  - simpl. destruct (setitem_ok res idx x Hi) as [res1 H1].
    rewrite H1. simpl. apply IH.
    + rewrite (setitem_length _ _ _ _ H1). exact Hr.
    + lia.
  - apply nth_error_None in E. lia.
Qed.

(** The lines [_align_block] returns, when every line of the block
    parses: one for each, rebuilt from its parts with a padding of at
    least one space. *)
Lemma align_block_lines res block_indices set_lines :
  index_all res block_indices = Ok set_lines ->
  block_indices <> [] ->
  Forall (fun l => exists p, _parse_set_command l = Some p) set_lines ->
  exists aligned m,
    _align_block res block_indices = Ok aligned
    /\ length aligned = length block_indices
    /\ forall j rl x,
        nth_error set_lines j = Some rl -> nth_error aligned j = Some x ->
        exists p k, _parse_set_command rl = Some p /\ (1 <= k)%Z
          /\ k = (Z.of_nat m - Z.of_nat (length (variable p)) + 1)%Z
          /\ length (variable p) <= m
          /\ x = indent p ++ py "set " ++ variable p ++ times " " k ++ value p.
Proof.
  intros Hidx Hne Hall.
  destruct (index_all_nth _ _ _ Hidx) as [Hlen _].
  pose proof (parse_all_all _ Hall) as Hplen.
  unfold _align_block. rewrite Hidx. simpl.
  destruct (max_of (map (fun cmd => length (variable cmd))
                      (parse_all set_lines))) as [m|e] eqn:Em.
  - simpl. eexists _, m. split; [reflexivity|].
    split; [rewrite length_map; lia|].
    intros j rl x Hrl Hx.
    destruct (parse_all_full set_lines ltac:(lia) j rl Hrl) as (p & Hp & Hpj).
    rewrite (map_nth_error _ _ _ Hpj) in Hx. inversion Hx.
    destruct (max_of_bounds _ _ Em) as [Hb _].
    assert (Hle : length (variable p) <= m).
    { rewrite Forall_forall in Hb. apply Hb.
      apply in_map_iff. exists p. split; [reflexivity|].
      eapply nth_error_In. exact Hpj. }
    exists p, (Z.of_nat m - Z.of_nat (length (variable p)) + 1)%Z.
    repeat split; try assumption; try reflexivity. lia.
  - exfalso. destruct (parse_all set_lines) as [|p ps] eqn:Ep.
    + simpl in Hplen. destruct block_indices; [contradiction|].
      simpl in Hlen. lia.
    + simpl in Em. discriminate.
Qed.

(** One block: alignment goes through and the lines still parse. *)
Lemma align_block_goes lines res block_indices :
  length res = length lines ->
  Forall2 still_parses lines res ->
  block_ok lines block_indices ->
  exists aligned res',
    _align_block res block_indices = Ok aligned
    /\ replace_block res aligned 0 block_indices = Ok res'
    /\ length res' = length lines
    /\ Forall2 still_parses lines res'.
Proof.
  intros Hlen HF (Hn & _ & ind & Hat).
  assert (Hidx : Forall (fun i => i < length res) block_indices).
  { eapply Forall_impl; [|exact Hat]. intros i (l & Hl & _).
    rewrite Hlen. apply nth_error_Some. rewrite Hl. discriminate. }
  destruct (index_all_ok res _ Hidx) as [set_lines Hset].
  destruct (index_all_nth _ _ _ Hset) as [Hsl Hnth].
  assert (Hparse : Forall (fun l => exists p, _parse_set_command l = Some p)
                     set_lines).
  { apply Forall_forall. intros rl Hin.
    destruct (In_nth_error _ _ Hin) as [j Hj].
    assert (Hjlt : j < length block_indices).
    { rewrite <- Hsl. apply nth_error_Some. rewrite Hj. discriminate. }
    destruct (nth_error block_indices j) as [idx|] eqn:Eb;
      [|apply nth_error_None in Eb; lia].
    rewrite Forall_forall in Hat.
    destruct (Hat idx (nth_error_In _ _ Eb)) as (l & Hl & Hs & _).
    rewrite (Hnth j idx Eb) in Hj.
    exact (Forall2_nth _ _ _ HF idx l rl Hl Hj Hs). }
  assert (Hne : block_indices <> [])
    by (destruct block_indices; [simpl in Hn; lia | discriminate]).
  destruct (align_block_lines res block_indices set_lines Hset Hne Hparse)
    as (aligned & m & Ha & Hal & Hshape).
  destruct (replace_block_ok block_indices res aligned 0 Hidx ltac:(lia))
    as [res' Hr].
  exists aligned, res'. split; [exact Ha|]. split; [exact Hr|].
  split; [rewrite (replace_block_length _ _ _ _ _ Hr); exact Hlen|].
  apply (replace_block_rel still_parses lines block_indices res aligned 0 res'
           HF Hr).
  intros j idx x l Hj Hx Hl _. simpl in Hx.
  destruct (nth_error set_lines j) as [rl|] eqn:Erl.
  - destruct (Hshape j rl x Erl Hx) as (p & k & Hp & Hk & _ & _ & Hxeq).
    exists p. subst x.
    exact (proj2 (parse_rebuilt rl p k (parse_set_command_parts _ _ Hp) Hk)).
  - apply nth_error_None in Erl.
    assert (j < length block_indices)
      by (apply nth_error_Some; rewrite Hj; discriminate).
    lia.
Qed.

Lemma align_loop_goes lines set_blocks :
  forall res,
    length res = length lines ->
    Forall2 still_parses lines res ->
    Forall (block_ok lines) set_blocks ->
    exists out, align_loop res set_blocks = Ok out.
Proof.
  induction set_blocks as [|b r IH]; intros res Hlen HF Hb; simpl; [eauto|].
  inversion Hb as [|? ? Hb1 Hbr]; subst.
  destruct (align_block_goes lines res b Hlen HF Hb1)
    as (aligned & res' & Ha & Hr & Hlen' & HF').
  rewrite Ha. simpl. rewrite Hr. simpl. apply IH; assumption.
Qed.

(** [align_set_commands] returns a result whenever every [set] command of
    the input has a value, that is, parses. *)
Theorem align_set_commands_returns :
  forall lines : list str,
    Forall (fun l => _is_set_command (strip l) = true ->
                     exists p, _parse_set_command l = Some p) lines ->
    exists out, align_set_commands lines = Ok out.
Proof.
  intros lines H. unfold align_set_commands.
  destruct lines as [|l r] eqn:E; [eauto|]. rewrite <- E in *.
  pose proof (find_set_blocks_ok lines) as Hb.
  destruct (_find_set_blocks lines) as [|b bs] eqn:Eb; [eauto|].
  apply (align_loop_goes lines (b :: bs) lines eq_refl); [|exact Hb].
  clear -H. induction H; constructor; assumption.
Qed.

Lemma align_set_commands_returns_witness :
  Forall (fun l => _is_set_command (strip l) = true ->
                   exists p, _parse_set_command l = Some p)
    [py "set a 1"; py "# note"; py "set bb 2"; py "set ccc 3"; py "puts x"]
  /\ exists out,
      align_set_commands
        [py "set a 1"; py "# note"; py "set bb 2"; py "set ccc 3"; py "puts x"]
      = Ok out.
Proof.
  assert (H : Forall (fun l => _is_set_command (strip l) = true ->
                               exists p, _parse_set_command l = Some p)
                [py "set a 1"; py "# note"; py "set bb 2"; py "set ccc 3";
                 py "puts x"]).
  { repeat constructor; intro Hs;
      try (eexists; reflexivity); discriminate Hs. }
  split; [exact H | exact (align_set_commands_returns _ H)].
Defined.

Lemma align_loop_kept lines set_blocks :
  forall res out,
    Forall2 kept_unless_set lines res ->
    Forall (block_ok lines) set_blocks ->
    align_loop res set_blocks = Ok out ->
    Forall2 kept_unless_set lines out.
Proof.
  induction set_blocks as [|b r IH]; intros res out HF Hb H; simpl in H.
  - inversion H. subst. exact HF.
  - inversion Hb as [|? ? Hb1 Hbr]; subst.
    destruct (_align_block res b) as [aligned|e]; simpl in H; [|discriminate].
    destruct (replace_block res aligned 0 b) as [res1|e] eqn:Er; simpl in H;
      [|discriminate].
    apply (IH res1 out); [|exact Hbr | exact H].
    apply (replace_block_rel kept_unless_set lines b res aligned 0 res1 HF Er).
    intros j idx x l Hj _ Hl Hnot.
    destruct Hb1 as (_ & _ & ind & Hat). rewrite Forall_forall in Hat.
    destruct (Hat idx (nth_error_In _ _ Hj)) as (l' & Hl' & Hs & _).
    rewrite Hl in Hl'. inversion Hl'. subst l'. congruence.
Qed.

(** Alignment leaves alone every line that is not a [set] command: blank
    lines, comments and other commands stand in the result as they were. *)
Theorem align_set_commands_keeps_other_lines :
  forall (lines out : list str) (i : nat) (l : str),
    align_set_commands lines = Ok out ->
    nth_error lines i = Some l ->
    _is_set_command (strip l) = false ->
    nth_error out i = Some l.
Proof.
  intros lines out i l H Hl Hs.
  assert (HF : Forall2 kept_unless_set lines out).
  { unfold align_set_commands in H.
    assert (Hrefl : Forall2 kept_unless_set lines lines).
    { clear. induction lines; constructor; [intro; reflexivity | assumption]. }
    destruct lines as [|x r] eqn:E; [inversion H; constructor|].
    rewrite <- E in *.
    pose proof (find_set_blocks_ok lines) as Hb.
    destruct (_find_set_blocks lines) as [|b bs]; [inversion H; subst; exact Hrefl|].
    exact (align_loop_kept lines (b :: bs) lines out Hrefl Hb H). }
  destruct (nth_error out i) as [o|] eqn:Eo.
  - f_equal. exact (Forall2_nth _ _ _ HF i l o Hl Eo Hs).
  - apply nth_error_None in Eo. rewrite <- (Forall2_length HF) in Eo.
    assert (i < length lines) by (apply nth_error_Some; rewrite Hl; discriminate).
    lia.
Qed.

Lemma align_set_commands_keeps_other_lines_witness :
  align_set_commands [py "set a 1"; py "   "; py "set bb 2"; py "puts x "]
  = Ok [py "set a  1"; py "   "; py "set bb 2"; py "puts x "]
  /\ nth_error [py "set a  1"; py "   "; py "set bb 2"; py "puts x "] 3
     = Some (py "puts x ").
Proof.
  split; [reflexivity|].
  exact (align_set_commands_keeps_other_lines
           [py "set a 1"; py "   "; py "set bb 2"; py "puts x "]
           [py "set a  1"; py "   "; py "set bb 2"; py "puts x "]
           3 (py "puts x ") eq_refl eq_refl eq_refl).
Defined.

Lemma index_all_lines lines block_indices :
  forall set_lines,
    index_all lines block_indices = Ok set_lines ->
    Forall2 (fun i l => nth_error lines i = Some l) block_indices set_lines.
Proof.
  induction block_indices as [|i r IH]; intros set_lines H; simpl in H.
  - inversion H. constructor.
  - destruct (index lines i) as [x|e] eqn:Ex; simpl in H; [|discriminate].
    destruct (index_all lines r) as [xs|e] eqn:Exs; simpl in H;
      [|discriminate].
    inversion H. constructor; [exact (index_nth _ _ _ Ex) | exact (IH xs eq_refl)].
Qed.

Lemma parse_all_lines lines block_indices set_lines :
  Forall2 (fun i l => nth_error lines i = Some l) block_indices set_lines ->
  Forall (fun i => exists l p, nth_error lines i = Some l
                               /\ _parse_set_command l = Some p)
    block_indices ->
  Forall2 (fun i p => exists l, nth_error lines i = Some l
                                /\ _parse_set_command l = Some p)
    block_indices (parse_all set_lines).
Proof.
  induction 1 as [|i l bi sl Hil _ IH]; intro Hall; [constructor|].
  inversion Hall as [|? ? (l' & p & Hl' & Hp) Hrest]; subst.
  rewrite Hil in Hl'. inversion Hl'; subst l'.
  simpl. rewrite Hp. constructor; [exists l; auto | exact (IH Hrest)].
Qed.

Lemma Forall2_in_r {A B} (R : A -> B -> Prop) l1 l2 :
  Forall2 R l1 l2 -> forall b, In b l2 -> exists a, In a l1 /\ R a b.
Proof.
  induction 1 as [|x y l1 l2 Hxy _ IH]; intros b Hb; [destruct Hb|].
  destruct Hb as [Hb|Hb].
  - subst. exists x. split; [left; reflexivity | exact Hxy].
  - destruct (IH b Hb) as (a & Ha & HR). exists a. split; [right|]; assumption.
Qed.

(** The lines of an aligned block, when every line of the block parses:
    the line returned for an index is the [set] command of that index of
    the input, rebuilt as its indent, [set], its name, the padding and its
    value, where name and padding together are one character longer than
    the longest name of the block, and that length is the length of the
    name of a line of the block.  So after the indent the values of a
    block start in one column, and the longest name is followed by exactly
    one space. *)
Theorem align_block_common_column :
  forall (lines : list str) (block_indices : list nat) (aligned : list str),
    Forall (fun i => exists l p, nth_error lines i = Some l
                                 /\ _parse_set_command l = Some p)
      block_indices ->
    _align_block lines block_indices = Ok aligned ->
    exists m,
      Forall2 (aligned_to lines m) block_indices aligned
      /\ Exists (name_length_at lines m) block_indices.
Proof.
  intros lines block_indices aligned Hall H. unfold _align_block in H.
  destruct (index_all lines block_indices) as [set_lines|e] eqn:Ei;
    simpl in H; [|discriminate].
  destruct (max_of (map (fun cmd => length (variable cmd))
                      (parse_all set_lines))) as [m|e] eqn:Em;
    simpl in H; [|discriminate].
  inversion H as [Ha]. clear H Ha.
  destruct (max_of_bounds _ _ Em) as [Hb Hin].
  pose proof (parse_all_lines _ _ _ (index_all_lines _ _ _ Ei) Hall) as Hps.
  rewrite Forall_map in Hb.
  exists m. split.
  - clear Hin Em Ei Hall. revert Hb.
    induction Hps as [|i p bi ps (l & Hl & Hp) _ IH]; intro Hb;
      [constructor|].
    inversion Hb as [|? ? Hle Hb']; subst. simpl.
    constructor; [|exact (IH Hb')].
    exists l, p. destruct (parse_set_command_parts _ _ Hp).
    split; [exact Hl|]. split; [exact Hp|]. split; [exact Hle|].
    split; [|split; assumption].
    unfold times.
    replace (Z.to_nat (Z.of_nat m - Z.of_nat (length (variable p)) + 1))
      with (m - length (variable p) + 1) by lia.
    reflexivity.
  - apply in_map_iff in Hin. destruct Hin as (p & Hp & Hpin).
    destruct (Forall2_in_r _ _ _ Hps p Hpin) as (i & Hi & l & Hl & Hpl).
    apply Exists_exists. exists i. split; [exact Hi|].
    exists l, p. auto.
Qed.

Lemma align_block_common_column_witness :
  Forall (fun i => exists l p,
              nth_error [py "set x 10"; py "puts hi";
                         py "set variable_name 20"] i = Some l
              /\ _parse_set_command l = Some p) [0; 2]
  /\ _align_block [py "set x 10"; py "puts hi"; py "set variable_name 20"]
       [0; 2]
     = Ok [py "set x             10"; py "set variable_name 20"]
  /\ exists m,
      Forall2
        (aligned_to [py "set x 10"; py "puts hi"; py "set variable_name 20"]
           m)
        [0; 2] [py "set x             10"; py "set variable_name 20"]
      /\ Exists
           (name_length_at
              [py "set x 10"; py "puts hi"; py "set variable_name 20"] m)
           [0; 2].
Proof.
  assert (H : Forall (fun i => exists l p,
              nth_error [py "set x 10"; py "puts hi";
                         py "set variable_name 20"] i = Some l
              /\ _parse_set_command l = Some p) [0; 2]).
  { constructor; [|constructor; [|constructor]];
      eexists; eexists; split; reflexivity. }
  split; [exact H|]. split; [reflexivity|].
  exact (align_block_common_column
           [py "set x 10"; py "puts hi"; py "set variable_name 20"] [0; 2]
           [py "set x             10"; py "set variable_name 20"]
           H eq_refl).
Defined.

End AlignmentMore.

(** ** The validator accepts exactly the balanced inputs *)

Module ValidatorMore.
Import SyntaxValidator Balance ValidatorNotions DelimiterNotions PyFacts
  ValidatorFacts BalanceFacts.

(** A [}] that closes nothing, in an input with no other defect, is the
    one diagnostic [validate] returns: an unexpected closing at the line of
    that [}]. *)
Theorem validate_one_stray_close :
  forall (lines : list str) (before after : list delim) (line col : nat),
    delims lines = before ++ CloseBrace line col :: after ->
    balanced before -> balanced after ->
    validate lines
    = [mkSyntaxError line (py "Unexpected closing } with no matching opening")
         (py "brace")].
Proof.
  intros lines before after line col Hd Hb Ha.
  rewrite validate_run, Hd.
  change (before ++ CloseBrace line col :: after)
    with (before ++ [CloseBrace line col] ++ after).
  rewrite !run_app, (balanced_run _ Hb). simpl.
  rewrite (balanced_run _ Ha). reflexivity.
Qed.

Lemma validate_one_stray_close_witness :
  delims [py "set x 10"; py "}"] = [] ++ CloseBrace 2 0 :: []
  /\ validate [py "set x 10"; py "}"]
     = [mkSyntaxError 2 (py "Unexpected closing } with no matching opening")
          (py "brace")].
Proof.
  split; [reflexivity|].
  exact (validate_one_stray_close [py "set x 10"; py "}"] [] [] 2 0 eq_refl
           balanced_nil balanced_nil).
Defined.

(** A quote left open at the end of its line, in an input with no other
    defect, is the one diagnostic [validate] returns: an unmatched opening
    quote at that line. *)
Theorem validate_one_unclosed_quote :
  forall (lines : list str) (before after : list delim) (line col : nat),
    delims lines = before ++ OpenQuote line col :: after ->
    balanced before -> balanced after ->
    validate lines
    = [mkSyntaxError line (py "Unmatched opening quote") (py "quote")].
Proof.
  intros lines before after line col Hd Hb Ha.
  rewrite validate_run, Hd.
  change (before ++ OpenQuote line col :: after)
    with (before ++ [OpenQuote line col] ++ after).
  rewrite !run_app, (balanced_run _ Hb). simpl.
  rewrite (balanced_run _ Ha). reflexivity.
Qed.

Lemma validate_one_unclosed_quote_witness :
  delims [py "set x " ++ [dquote] ++ py "hello"; py "puts {a}"]
  = [] ++ OpenQuote 1 6 :: [OpenBrace 2 5; CloseBrace 2 7]
  /\ validate [py "set x " ++ [dquote] ++ py "hello"; py "puts {a}"]
     = [mkSyntaxError 1 (py "Unmatched opening quote") (py "quote")].
Proof.
  split; [reflexivity|].
  exact (validate_one_unclosed_quote
           [py "set x " ++ [dquote] ++ py "hello"; py "puts {a}"]
           [] [OpenBrace 2 5; CloseBrace 2 7] 1 6 eq_refl balanced_nil
           (@balanced_braces 2 5 2 7 [] [] balanced_nil balanced_nil)).
Defined.

(** *** Balanced sequences *)

Lemma balanced_app a b : balanced a -> balanced b -> balanced (a ++ b).
Proof.
  induction 1 as [| n i m j inner after Hi _ _ IHa | n i m j after _ IHa];
    intro Hb.
  - exact Hb.
  - simpl. rewrite <- app_assoc. simpl.
    apply balanced_braces; [exact Hi | apply IHa; exact Hb].
  - simpl. apply balanced_quotes. apply IHa. exact Hb.
Qed.

Lemma balanced_last ds :
  balanced ds -> ds = [] \/ exists ds' d, ds = ds' ++ [d] /\ closer d.
Proof.
  induction 1 as [| n i m j inner after _ _ _ IHa | n i m j after _ IHa].
  - left. reflexivity.
  - right. destruct IHa as [E | (a' & d & E & Hd)]; subst after.
    + exists (OpenBrace n i :: inner), (CloseBrace m j). split; [reflexivity|].
      exact I.
    + exists (OpenBrace n i :: inner ++ CloseBrace m j :: a'), d.
      split; [|exact Hd]. simpl. rewrite <- app_assoc. reflexivity.
  - right. destruct IHa as [E | (a' & d & E & Hd)]; subst after.
    + exists [OpenQuote n i], (CloseQuote m j). split; [reflexivity | exact I].
    + exists (OpenQuote n i :: CloseQuote m j :: a'), d.
      split; [reflexivity | exact Hd].
Qed.

(** *** Closing quotes follow their opening quote at once *)

Lemma delims_from_quotes k :
  forall l, length l <= k ->
  forall line_num i q a m j c,
    delims_from line_num i q l = a ++ CloseQuote m j :: c ->
    (a = [] /\ q = true) \/ exists a' m' j', a = a' ++ [OpenQuote m' j'].
Proof.
  induction k as [|k IH]; intros l Hl line_num i q a m j c H.
  - destruct l; [|simpl in Hl; lia]. destruct a; discriminate H.
  - destruct l as [|x rest]; [destruct a; discriminate H|].
    simpl in Hl.
    assert (Hcons : forall d q' tail,
      tail = delims_from line_num (i + 1) q' rest ->
      d :: tail = a ++ CloseQuote m j :: c ->
      (d = CloseQuote m j /\ a = [])
      \/ exists a1, a = d :: a1 /\ tail = a1 ++ CloseQuote m j :: c).
    { intros d q' tail _ Heq. destruct a as [|d0 a1]; simpl in Heq.
      - inversion Heq. left. split; reflexivity.
      - inversion Heq. right. exists a1. split; reflexivity. }
    assert (Hhere :
      (if eqc x dquote then
         (if q then CloseQuote line_num i else OpenQuote line_num i)
           :: delims_from line_num (i + 1) (negb q) rest
       else if q then delims_from line_num (i + 1) q rest
       else if eqc x "{" then
         OpenBrace line_num i :: delims_from line_num (i + 1) q rest
       else if eqc x "}" then
         CloseBrace line_num i :: delims_from line_num (i + 1) q rest
       else delims_from line_num (i + 1) q rest)
      = a ++ CloseQuote m j :: c ->
      (a = [] /\ q = true) \/ exists a' m' j', a = a' ++ [OpenQuote m' j']).
    { intro Hh. destruct (eqc x dquote).
      - destruct q.
        + destruct (Hcons _ _ _ eq_refl Hh) as [[_ Ha] | (a1 & Ha & Ht)].
          * left. split; [exact Ha | reflexivity].
          * right. simpl in Ht.
            destruct (IH rest ltac:(lia) _ _ _ _ _ _ _ Ht)
              as [[_ Hq] | (a' & m' & j' & Ha')]; [discriminate|].
            exists (CloseQuote line_num i :: a'), m', j'.
            rewrite Ha, Ha'. reflexivity.
        + destruct (Hcons _ _ _ eq_refl Hh) as [[Hd _] | (a1 & Ha & Ht)];
            [discriminate|].
          right. simpl in Ht.
          destruct (IH rest ltac:(lia) _ _ _ _ _ _ _ Ht)
            as [[Ha1 _] | (a' & m' & j' & Ha')].
          * exists [], line_num, i. rewrite Ha, Ha1. reflexivity.
          * exists (OpenQuote line_num i :: a'), m', j'.
            rewrite Ha, Ha'. reflexivity.
      - destruct q; [exact (IH rest ltac:(lia) _ _ _ _ _ _ _ Hh)|].
        destruct (eqc x "{").
        + destruct (Hcons _ _ _ eq_refl Hh) as [[Hd _] | (a1 & Ha & Ht)];
            [discriminate|].
          right.
          destruct (IH rest ltac:(lia) _ _ _ _ _ _ _ Ht)
            as [[_ Hq] | (a' & m' & j' & Ha')]; [discriminate|].
          exists (OpenBrace line_num i :: a'), m', j'.
          rewrite Ha, Ha'. reflexivity.
        + destruct (eqc x "}").
          * destruct (Hcons _ _ _ eq_refl Hh) as [[Hd _] | (a1 & Ha & Ht)];
              [discriminate|].
            right.
            destruct (IH rest ltac:(lia) _ _ _ _ _ _ _ Ht)
              as [[_ Hq] | (a' & m' & j' & Ha')]; [discriminate|].
            exists (CloseBrace line_num i :: a'), m', j'.
            rewrite Ha, Ha'. reflexivity.
          * exact (IH rest ltac:(lia) _ _ _ _ _ _ _ Hh). }
    simpl in H. destruct (eqc x "\").
    + destruct rest as [|x2 rest']; [exact (Hhere H)|].
      apply (IH rest' ltac:(simpl in Hl; lia) _ _ _ _ _ _ _ H).
    + exact (Hhere H).
Qed.

Lemma line_delims_adjacent nl : adjacent_quotes (line_delims nl).
Proof.
  intros a n i c H. unfold line_delims in H.
  destruct (startswith (strip (snd nl)) (py "#")).
  - destruct a; discriminate H.
  - destruct (delims_from_quotes _ _ (Nat.le_refl _) _ _ _ _ _ _ _ H)
      as [[_ Hq] | Hr]; [discriminate | exact Hr].
Qed.

Lemma adjacent_quotes_app l1 l2 :
  adjacent_quotes l1 -> adjacent_quotes l2 -> adjacent_quotes (l1 ++ l2).
Proof.
  intros H1 H2 a n i c H. apply app_eq_app in H.
  destruct H as [l [[Ha Hc] | [Ha Hc]]].
  - destruct l as [|x l'].
    + simpl in Hc. rewrite app_nil_r in Ha. subst l1.
      destruct (H2 [] n i c (eq_sym Hc)) as (a' & m & j & E).
      destruct a'; discriminate E.
    + inversion Hc. subst x. exact (H1 a n i l' Ha).
  - destruct (H2 l n i c Hc) as (a' & m & j & E).
    exists (l1 ++ a'), m, j. rewrite Ha, E, app_assoc. reflexivity.
Qed.

Lemma delims_adjacent lines : adjacent_quotes (delims lines).
Proof.
  unfold delims.
  induction (_handle_line_continuations lines) as [|nl r IH]; simpl.
  - intros a n i c H. destruct a; discriminate H.
  - apply adjacent_quotes_app; [apply line_delims_adjacent | exact IH].
Qed.

Lemma adjacent_quotes_prefix l1 l2 :
  adjacent_quotes (l1 ++ l2) -> adjacent_quotes l1.
Proof.
  intros H a n i c E. apply (H a n i (c ++ l2)).
  rewrite E, <- app_assoc. reflexivity.
Qed.

(** *** What a run without diagnostics has read *)

Lemma open_prefix_app ds stk more :
  open_prefix ds stk -> balanced more -> open_prefix (ds ++ more) stk.
Proof.
  intros H Hm. destruct H as [ds Hb | ds stk d f inner Hp Ho Hi].
  - constructor. apply balanced_app; assumption.
  - rewrite <- app_assoc. simpl. constructor; [assumption | assumption|].
    apply balanced_app; assumption.
Qed.

Lemma open_prefix_top ds stk f :
  open_prefix ds (stk ++ [f]) ->
  exists ds0 d inner,
    ds = ds0 ++ d :: inner /\ open_prefix ds0 stk /\ opens d f
    /\ balanced inner.
Proof.
  intro H. inversion H as [? Hb E | ds0 stk0 d f0 inner Hp Ho Hi E1 E2].
  - destruct stk; discriminate.
  - apply app_inj_tail in E2. destruct E2 as [-> ->].
    exists ds0, d, inner. auto.
Qed.

Lemma pop_report_clean c line_num pos stk errs stk' :
  c = "}"%char \/ c = dquote ->
  pop_report c line_num pos (mk stk errs) = mk stk' [] ->
  errs = []
  /\ exists f, stk = stk' ++ [f]
               /\ char f = (if eqc c "}" then "{"%char else dquote).
Proof.
  intros Hc H. unfold pop_report, _pop in H. simpl stack in H.
  simpl errors in H.
  destruct stk as [|x xs] using rev_ind.
  - simpl in H. inversion H as [[Hs He]]. destruct errs; discriminate He.
  - rewrite list_pop_snoc in H.
    destruct Hc as [-> | ->].
    + change (eqc "}" "}") with true in *. change (eqc "}" dquote) with false in H.
      destruct (eqc (char x) "{") eqn:Ex; simpl in H.
      * inversion H. subst. split; [reflexivity|].
        exists x. split; [reflexivity|]. apply Ascii.eqb_eq in Ex. exact Ex.
      * inversion H as [[Hs He]]. destruct errs; discriminate He.
    + change (eqc dquote "}") with false in *.
      change (eqc dquote dquote) with true in H.
      destruct (eqc (char x) dquote) eqn:Ex; simpl in H.
      * inversion H. subst. split; [reflexivity|].
        exists x. split; [reflexivity|]. apply Ascii.eqb_eq in Ex. exact Ex.
      * inversion H as [[Hs He]]. destruct errs; discriminate He.
Qed.

Lemma opens_brace d f :
  opens d f -> char f = "{"%char -> exists n i, d = OpenBrace n i.
Proof.
  destruct d; simpl; intros H Hc; try contradiction; subst f.
  - eauto.
  - discriminate Hc.
Qed.

Lemma opens_quote d f :
  opens d f -> char f = dquote -> exists n i, d = OpenQuote n i.
Proof.
  destruct d; simpl; intros H Hc; try contradiction; subst f.
  - discriminate Hc.
  - eauto.
Qed.

Lemma run_snoc ds d v : run (ds ++ [d]) v = run_delim (run ds v) d.
Proof. rewrite run_app. reflexivity. Qed.

(** A run that ends without diagnostics has read openers still on the
    stack and balanced sequences between them. *)
Lemma run_clean ds :
  forall stk,
    adjacent_quotes ds ->
    run ds init = mk stk [] -> open_prefix ds stk.
Proof.
  induction ds as [|d ds IH] using rev_ind; intros stk Hadj H.
  - inversion H. constructor. constructor.
  - rewrite run_snoc in H.
    pose proof (adjacent_quotes_prefix _ _ Hadj) as Hadj0.
    destruct (run ds init) as [stk0 errs0] eqn:Erun.
    destruct d as [n i | n i | n i | n i]; simpl in H.
    + inversion H. subst.
      change (ds ++ [OpenBrace n i]) with (ds ++ OpenBrace n i :: []).
      constructor; [apply IH; auto | reflexivity | constructor].
    + destruct (pop_report_clean "}" n i stk0 errs0 stk (or_introl eq_refl) H)
        as (He & f & Hs & Hf).
      subst errs0 stk0. specialize (IH _ Hadj0 eq_refl).
      destruct (open_prefix_top _ _ _ IH) as (ds0 & d0 & inner & E & Hp & Ho & Hi).
      destruct (opens_brace _ _ Ho Hf) as (m & j & ->).
      subst ds. rewrite <- app_assoc. simpl.
      apply open_prefix_app; [exact Hp|].
      apply balanced_braces; [exact Hi | constructor].
    + inversion H. subst.
      change (ds ++ [OpenQuote n i]) with (ds ++ OpenQuote n i :: []).
      constructor; [apply IH; auto | reflexivity | constructor].
    + destruct (pop_report_clean dquote n i stk0 errs0 stk (or_intror eq_refl) H)
        as (He & f & Hs & Hf).
      subst errs0 stk0. specialize (IH _ Hadj0 eq_refl).
      destruct (open_prefix_top _ _ _ IH) as (ds0 & d0 & inner & E & Hp & Ho & Hi).
      destruct (opens_quote _ _ Ho Hf) as (m & j & ->).
      destruct (Hadj ds n i [] eq_refl) as (a' & m' & j' & Ea).
      assert (Hinner : inner = []).
      { destruct (balanced_last _ Hi) as [E0 | (b' & d & Eb & Hd)];
          [exact E0|].
        exfalso. rewrite Eb in E. rewrite Ea in E.
        change (ds0 ++ OpenQuote m j :: b' ++ [d])
          with (ds0 ++ (OpenQuote m j :: b') ++ [d]) in E.
        rewrite app_assoc in E. apply app_inj_tail in E.
        destruct E as [_ Ed]. subst d. exact Hd. }
      subst inner ds. rewrite <- app_assoc. simpl.
      apply open_prefix_app; [exact Hp|].
      apply balanced_quotes. constructor.
Qed.

Lemma check_remaining_errors v :
  errors (_check_remaining_stack v)
  = errors v
    ++ map (fun frame =>
              if eqc (char frame) "{"
              then mkSyntaxError (frame_line_number frame)
                     (py "Unmatched opening brace") (py "brace")
              else mkSyntaxError (frame_line_number frame)
                     (py "Unmatched opening quote") (py "quote"))
         (stack v).
Proof.
  unfold _check_remaining_stack. destruct v as [stk errs]. simpl.
  generalize stk at 1 3. intro frames. revert errs.
  induction frames as [|f r IH]; intro errs; simpl.
  - symmetry. apply app_nil_r.
  - rewrite IH. simpl. rewrite <- app_assoc. reflexivity.
Qed.

(** [validate] returns no diagnostic only on balanced input; with what is
    known of balanced input, it returns none exactly on balanced input. *)
Theorem validate_empty_iff_balanced :
  forall lines : list str, validate lines = [] <-> balanced_input lines.
Proof.
  intro lines. split;
    [|intro H; rewrite validate_run, (balanced_run _ H); reflexivity].
  intro H. rewrite validate_run, check_remaining_errors in H.
  apply app_eq_nil in H. destruct H as [He Hs].
  apply map_eq_nil in Hs.
  destruct (run (delims lines) init) as [stk errs] eqn:Erun.
  simpl in He, Hs. subst.
  pose proof (run_clean _ _ (delims_adjacent lines) Erun) as Hp.
  inversion Hp as [? Hb | ? stk ? ? ? ? ? ? E1 E2]; [exact Hb|].
  destruct stk; discriminate.
Qed.

End ValidatorMore.

(** ** Line numbers of logical lines and of diagnostics *)

Module NumberingFacts.
Import SyntaxValidator Balance ValidatorNotions DelimiterNotions PyFacts
  ValidatorFacts BalanceFacts ContinuationFacts ValidatorMore.

Lemma continue_line_sorted rest :
  forall line_num line i,
    line_num <= i + 1 ->
    StronglySorted lt (map fst (continue_line line_num line i rest)).
Proof.
  induction rest as [|next rest' IH]; intros line_num line i Hle; simpl.
  - constructor; constructor.
  - destruct (endswith (rstrip line) (py "\")).
    + apply IH. lia.
    + simpl. constructor; [apply IH; lia|].
      apply Forall_forall. intros n Hn. apply in_map_iff in Hn.
      destruct Hn as ([n' t] & E & Hin). simpl in E. subst n'.
      apply continue_line_numbers in Hin; lia.
Qed.

Lemma continue_line_length rest :
  forall line_num line i,
    length (continue_line line_num line i rest) <= S (length rest).
Proof.
  induction rest as [|next rest' IH]; intros line_num line i; simpl; [lia|].
  destruct (endswith (rstrip line) (py "\")).
  - specialize (IH line_num (removelast (rstrip line) ++ next) (i + 1)). lia.
  - simpl. specialize (IH (i + 1 + 1) next (i + 1)). lia.
Qed.

Lemma folded_numbers_range lines :
  Forall (fun nl => 1 <= fst nl <= length lines)
    (_handle_line_continuations lines).
Proof.
  unfold _handle_line_continuations, continuations_from.
  destruct lines as [|l rest]; [constructor|].
  apply Forall_forall. intros [n t] Hin. simpl.
  apply continue_line_numbers in Hin; lia.
Qed.

(** The logical lines are numbered in strictly increasing order, the first
    carries the number 1 and none a number beyond the last physical line;
    there are no more logical lines than physical ones. *)
Theorem logical_line_numbers :
  forall lines : list str,
    let folded := _handle_line_continuations lines in
    StronglySorted lt (map fst folded)
    /\ Forall (fun nl => 1 <= fst nl <= length lines) folded
    /\ length folded <= length lines
    /\ match lines with
       | [] => folded = []
       | _ :: _ => exists text tail, folded = (1, text) :: tail
       end.
Proof.
  intros lines folded. unfold folded, _handle_line_continuations,
    continuations_from.
  destruct lines as [|l rest]; simpl.
  - repeat split; constructor.
  - split; [apply continue_line_sorted; lia|].
    split; [exact (folded_numbers_range (l :: rest))|].
    split; [apply continue_line_length | apply continue_line_head].
Qed.

Lemma continue_line_plain rest :
  forall line i,
    Forall (fun l => endswith (rstrip l) (py "\") = false)
      (removelast (line :: rest)) ->
    continue_line (i + 1) line i rest
    = combine (seq (i + 1) (S (length rest))) (line :: rest).
Proof.
  induction rest as [|next rest' IH]; intros line i H; [reflexivity|].
  change (removelast (line :: next :: rest'))
    with (line :: removelast (next :: rest')) in H.
  inversion H as [|? ? Hl Hr]; subst.
  cbn [continue_line]. rewrite Hl.
  rewrite (IH next (i + 1) Hr).
  replace (i + 1 + 1) with (S (i + 1)) by lia. reflexivity.
Qed.

Lemma folding_identity lines :
  Forall (fun l => endswith (rstrip l) (py "\") = false) (removelast lines) ->
  _handle_line_continuations lines = combine (seq 1 (length lines)) lines.
Proof.
  intro H. destruct lines as [|l rest]; [reflexivity|].
  exact (continue_line_plain rest l 0 H).
Qed.

(** When no line but possibly the last ends in a backslash (after its
    trailing white space), folding changes nothing: every physical line is
    a logical line under its own number. *)
Theorem folding_without_continuations :
  forall lines : list str,
    Forall (fun l => endswith (rstrip l) (py "\") = false) (removelast lines) ->
    _handle_line_continuations lines = combine (seq 1 (length lines)) lines.
Proof. exact folding_identity. Qed.

Lemma folding_without_continuations_witness :
  Forall (fun l => endswith (rstrip l) (py "\") = false)
    (removelast [py "set a 1"; py "puts \n"; py "last \"])
  /\ _handle_line_continuations [py "set a 1"; py "puts \n"; py "last \"]
     = [(1, py "set a 1"); (2, py "puts \n"); (3, py "last \")].
Proof.
  assert (H : Forall (fun l => endswith (rstrip l) (py "\") = false)
                (removelast [py "set a 1"; py "puts \n"; py "last \"]))
    by (repeat constructor).
  split; [exact H|].
  exact (folding_without_continuations _ H).
Defined.

(** *** Diagnostics point into the input *)

Lemma delims_from_line k :
  forall l, length l <= k ->
  forall line_num i q,
    Forall (fun d => delim_line d = line_num) (delims_from line_num i q l).
Proof.
  induction k as [|k IH]; intros l Hl line_num i q.
  - destruct l; [constructor | simpl in Hl; lia].
  - destruct l as [|x rest]; [constructor|]. simpl in Hl.
    assert (Hhere :
      Forall (fun d => delim_line d = line_num)
        (if eqc x dquote then
           (if q then CloseQuote line_num i else OpenQuote line_num i)
             :: delims_from line_num (i + 1) (negb q) rest
         else if q then delims_from line_num (i + 1) q rest
         else if eqc x "{" then
           OpenBrace line_num i :: delims_from line_num (i + 1) q rest
         else if eqc x "}" then
           CloseBrace line_num i :: delims_from line_num (i + 1) q rest
         else delims_from line_num (i + 1) q rest)).
    { destruct (eqc x dquote).
      - constructor; [destruct q; reflexivity | apply IH; lia].
      - destruct q; [apply IH; lia|].
        destruct (eqc x "{"); [constructor; [reflexivity | apply IH; lia]|].
        destruct (eqc x "}"); [constructor; [reflexivity | apply IH; lia]|].
        apply IH; lia. }
    simpl. destruct (eqc x "\"); [|exact Hhere].
    destruct rest as [|x2 rest']; [exact Hhere|].
    apply IH. simpl in Hl. lia.
Qed.

Lemma delims_lines lines :
  Forall (fun d => 1 <= delim_line d <= length lines) (delims lines).
Proof.
  unfold delims. pose proof (folded_numbers_range lines) as Hn.
  induction Hn as [|nl r Hnl _ IH]; simpl; [constructor|].
  apply Forall_app. split; [|exact IH].
  unfold line_delims. destruct (startswith _ _); [constructor|].
  eapply Forall_impl;
    [|exact (delims_from_line _ _ (Nat.le_refl _) (fst nl) 0 false)].
  intros d Hd. rewrite Hd. exact Hnl.
Qed.

Lemma pop_report_within lo hi c line_num pos v :
  lo <= line_num <= hi -> within lo hi v ->
  within lo hi (pop_report c line_num pos v).
Proof.
  intros Hn [Hs He]. unfold pop_report, _pop.
  destruct (stack v) as [|x xs] using rev_ind.
  - simpl. split; simpl; [constructor|].
    apply Forall_app. split; [exact He|]. constructor; [exact Hn | constructor].
  - rewrite list_pop_snoc.
    assert (Herr : forall msg ty,
               Forall (fun e => lo <= line_number e <= hi)
                 (errors v ++ [mkSyntaxError line_num msg ty])).
    { intros. apply Forall_app. split; [exact He|].
      constructor; [exact Hn | constructor]. }
    apply Forall_app in Hs. destruct Hs as [Hxs Hx].
    destruct (eqc c "}" && negb (eqc (char x) "{")).
    + split; simpl; [apply Forall_app; split; assumption | apply Herr].
    + destruct (eqc c dquote && negb (eqc (char x) dquote)).
      * split; simpl; [apply Forall_app; split; assumption | apply Herr].
      * split; simpl; assumption.
Qed.

Lemma run_delim_within lo hi v d :
  lo <= delim_line d <= hi -> within lo hi v -> within lo hi (run_delim v d).
Proof.
  intros Hd Hv. destruct d as [n i | n i | n i | n i]; simpl in *;
    try (apply pop_report_within; assumption);
    destruct Hv as [Hs He]; split; simpl; try exact He;
    unfold _push; apply Forall_app; (split; [exact Hs|]);
    (constructor; [exact Hd | constructor]).
Qed.

Lemma run_within lo hi ds :
  Forall (fun d => lo <= delim_line d <= hi) ds ->
  forall v, within lo hi v -> within lo hi (run ds v).
Proof.
  induction 1 as [|d r Hd _ IH]; intros v Hv; [exact Hv|].
  simpl. apply IH. apply run_delim_within; assumption.
Qed.

(** Every diagnostic [validate] returns carries the number of a line of
    the input: between 1 and the number of lines. *)
Theorem validate_line_numbers :
  forall lines : list str,
    Forall (fun e => 1 <= line_number e <= length lines) (validate lines).
Proof.
  intro lines. rewrite validate_run, check_remaining_errors.
  destruct (run_within 1 (length lines) _ (delims_lines lines) init)
    as [Hs He]; [split; constructor|].
  apply Forall_app. split; [exact He|].
  apply Forall_forall. intros e Hin. apply in_map_iff in Hin.
  destruct Hin as (f & Hf & Hfin).
  rewrite Forall_forall in Hs. specialize (Hs f Hfin).
  destruct (eqc (char f) "{"); subst e; exact Hs.
Qed.

End NumberingFacts.

(** ** What [format_file] writes *)

Module FormatterMore.
Import TCLFormatter.

(** Success is reported only when the lines read passed validation, the
    passes returned, and the whole of their result was written to the
    output path.  A failure touches at most one file.  When validation
    failed, that file is the error log, with one line for each diagnostic,
    or the first characters of that text when the writing broke off, and
    the outcome carries the diagnostics only when the log was written in
    full.  Otherwise it is the output file, and only when the writing of
    it broke off: it is then left with the first characters of the
    formatted text. *)
Theorem format_file_writes :
  forall (align_set expand_lists strict_indent : bool)
         (_read_file : str -> result (list str))
         (_generate_output_path error_log_path_of : str -> str)
         (dir_writable : str -> bool) (io_write : str -> str -> written)
         (exn_str : exn -> str)
         (input_path : str) (d : disk),
    let outcome :=
      format_file align_set expand_lists strict_indent _read_file
        _generate_output_path error_log_path_of dir_writable io_write
        exn_str input_path d in
    let r := fst outcome in
    let d' := snd outcome in
    (success r = true ->
     exists lines formatted,
       _read_file input_path = Ok lines
       /\ SyntaxValidator.validate lines = []
       /\ _format_lines align_set expand_lists strict_indent lines
          = Ok formatted
       /\ output_path r = Some (_generate_output_path input_path)
       /\ d' = d ++ [(_generate_output_path input_path,
                      file_text formatted)])
    /\ (success r = false ->
        output_path r = None
        /\ (d' = d /\ result_errors r = None
            \/ (exists lines formatted n,
                   _read_file input_path = Ok lines
                   /\ SyntaxValidator.validate lines = []
                   /\ _format_lines align_set expand_lists strict_indent lines
                      = Ok formatted
                   /\ io_write (_generate_output_path input_path)
                        (file_text formatted) = Broken n
                   /\ result_errors r = None
                   /\ d' = d ++ [(_generate_output_path input_path,
                                  firstn n (file_text formatted))])
            \/ (exists lines,
                   _read_file input_path = Ok lines
                   /\ SyntaxValidator.validate lines <> []
                   /\ let log :=
                        file_text
                          (map error_line (SyntaxValidator.validate lines)) in
                      (result_errors r
                       = Some (SyntaxValidator.validate lines)
                       /\ d' = d ++ [(error_log_path_of input_path, log)])
                      \/ (exists n,
                             io_write (error_log_path_of input_path) log
                             = Broken n
                             /\ result_errors r = None
                             /\ d' = d ++ [(error_log_path_of input_path,
                                            firstn n log)])))).
Proof.
  intros. subst r d' outcome. unfold format_file.
  destruct (_read_file input_path) as [lines|e] eqn:Eread.
  - destruct (SyntaxValidator.validate lines) as [|e0 es] eqn:Eval.
    + destruct (_format_lines align_set expand_lists strict_indent lines)
        as [formatted|e] eqn:Efmt.
      * unfold _write_file, write_lines.
        destruct (dir_writable (_generate_output_path input_path)); simpl.
        -- destruct (io_write (_generate_output_path input_path)
                       (file_text formatted)) as [| |n] eqn:Ew; simpl.
           ++ split; [|discriminate]. intros _.
              exists lines, formatted. auto.
           ++ split; [discriminate|]. intros _. auto.
           ++ split; [discriminate|]. intros _. split; [reflexivity|].
              right. left. exists lines, formatted, n. auto 7.
        -- split; [discriminate|]. intros _. auto.
      * simpl. split; [destruct e; discriminate|].
        intros _. destruct e; auto.
    + unfold _generate_error_log, write_lines.
      destruct (io_write (error_log_path_of input_path)
                  (file_text (map error_line (e0 :: es)))) as [| |n] eqn:Ew;
        simpl.
      * split; [discriminate|]. intros _. split; [reflexivity|].
        right. right. exists lines. rewrite Eval.
        split; [reflexivity|]. split; [discriminate|]. left. auto.
      * split; [discriminate|]. intros _. auto.
      * split; [discriminate|]. intros _. split; [reflexivity|].
        right. right. exists lines. rewrite Eval.
        split; [reflexivity|]. split; [discriminate|]. right.
        exists n. auto.
  - simpl. split; [destruct e; discriminate|]. intros _. destruct e; auto.
Qed.

End FormatterMore.

(** ** Searching and slicing strings *)

Module SliceFacts.
Import PyFacts AlignmentFacts.

Lemma eqc_sym a b : eqc a b = eqc b a.
Proof.
  unfold eqc. destruct (Ascii.eqb a b) eqn:E.
  - apply Ascii.eqb_eq in E. subst. symmetry. apply Ascii.eqb_refl.
  - symmetry. apply Ascii.eqb_neq. intro H. subst.
    rewrite Ascii.eqb_refl in E. discriminate.
Qed.

(** [find] answers [-1] or an index of the string. *)
Lemma find_from_range (s : str) c :
  forall i, let k := find_from s c i in
            k = (-1)%Z \/ (i <= k < i + Z.of_nat (length s))%Z.
Proof.
  induction s as [|x r IH]; intro i; simpl; [left; reflexivity|].
  destruct (eqc x c); [right; lia|].
  destruct (IH (i + 1)%Z) as [H | H]; [left; exact H | right; lia].
Qed.

(** [rfind] answers its default when the character does not occur, and
    otherwise the index of an occurrence after which there is no other. *)
Lemma rfind_from_spec (s : str) c :
  forall i last,
    (0 <= i)%Z ->
    let k := rfind_from s c i last in
    (k = last /\ contains s c = false)
    \/ ((i <= k < i + Z.of_nat (length s))%Z
        /\ nth_error s (Z.to_nat (k - i)) = Some c
        /\ contains (skipn (S (Z.to_nat (k - i))) s) c = false).
Proof.
  induction s as [|x r IH]; intros i last Hi; simpl.
  - left. split; reflexivity.
  - destruct (IH (i + 1)%Z (if eqc x c then i else last) ltac:(lia))
      as [[Hk Hc] | (Hr & Hn & Hc)].
    + destruct (eqc x c) eqn:E.
      * right. rewrite Hk. split; [lia|].
        rewrite Z.sub_diag. simpl. apply Ascii.eqb_eq in E. subst x.
        split; [reflexivity | exact Hc].
      * left. split; [exact Hk|]. rewrite eqc_sym, E. exact Hc.
    + right. split; [lia|].
      replace (Z.to_nat (rfind_from r c (i + 1) (if eqc x c then i else last) - i))
        with (S (Z.to_nat (rfind_from r c (i + 1)
                             (if eqc x c then i else last) - (i + 1))))
        by lia.
      simpl. split; [exact Hn | exact Hc].
Qed.

Lemma rfind_spec (s : str) c :
  (rfind s c = (-1)%Z /\ contains s c = false)
  \/ exists k, rfind s c = Z.of_nat k
               /\ k < length s
               /\ nth_error s k = Some c
               /\ contains (skipn (S k) s) c = false.
Proof.
  unfold rfind.
  destruct (rfind_from_spec s c 0%Z (-1)%Z ltac:(lia)) as [H | (Hr & Hn & Hc)].
  - left. exact H.
  - right. exists (Z.to_nat (rfind_from s c 0 (-1))).
    rewrite Z.sub_0_r in Hn, Hc.
    split; [lia|]. split; [lia|]. split; assumption.
Qed.

Lemma slice_nat (s : str) (a b : nat) :
  a <= b <= length s ->
  slice s (Z.of_nat a) (Z.of_nat b) = firstn (b - a) (skipn a s).
Proof.
  intro H. unfold slice, clamp.
  assert (Ha : (Z.of_nat a <? 0)%Z = false) by (apply Z.ltb_ge; lia).
  assert (Hb : (Z.of_nat b <? 0)%Z = false) by (apply Z.ltb_ge; lia).
  rewrite Ha, Hb. rewrite !Z.min_l by lia.
  f_equal; [lia | f_equal; lia].
Qed.

(** A string cut at two of its indices. *)
Lemma cut_at (s : str) (a b : nat) x :
  a <= b -> nth_error s b = Some x ->
  s = firstn a s ++ firstn (b - a) (skipn a s) ++ [x] ++ skipn (S b) s.
Proof.
  intros Hab Hx.
  rewrite <- (firstn_skipn a s) at 1. f_equal.
  rewrite <- (firstn_skipn (b - a) (skipn a s)) at 1. f_equal.
  rewrite skipn_skipn. replace (b - a + a) with b by lia.
  clear Hab. revert s Hx. induction b as [|b IH]; intros s Hx.
  - destruct s; [discriminate|]. inversion Hx. reflexivity.
  - destruct s; [discriminate|]. simpl in Hx. simpl. apply IH. exact Hx.
Qed.

End SliceFacts.

(** ** List expansion keeps the text *)

Module ExpansionFacts.
Import ListExpansionEngine TokenizerNotions TextNotions WhiteSpace PyFacts
  AlignmentFacts ListExpansionFacts SliceFacts.

Lemma no_blanks_app a b : no_blanks (a ++ b) = no_blanks a ++ no_blanks b.
Proof. apply filter_app. Qed.

Lemma no_blanks_dropwhile l : no_blanks (dropwhile is_blank l) = no_blanks l.
Proof.
  induction l as [|c l IH]; simpl; [reflexivity|].
  destruct (is_blank c) eqn:E; simpl; [exact IH | rewrite E; reflexivity].
Qed.

Lemma gathered_flush s : gathered (flush s) = gathered s.
Proof.
  unfold gathered, flush. destruct (current_item s) as [|c r] eqn:E.
  - rewrite E. reflexivity.
  - simpl. rewrite concat_app. simpl. rewrite !app_nil_r. reflexivity.
Qed.

Lemma gathered_push its cur c d q :
  gathered (mkp its (cur ++ [c]) d q) = gathered (mkp its cur d q) ++ [c].
Proof. unfold gathered. simpl. apply app_assoc. Qed.

Lemma gathered_state s d q :
  gathered (mkp (items s) (current_item s) d q) = gathered s.
Proof. reflexivity. Qed.

Lemma parse_loop_gathers k :
  forall l, length l <= k ->
  forall s,
    no_blanks (gathered (parse_loop l s))
    = no_blanks (gathered s) ++ no_blanks l.
Proof.
  induction k as [|k IH]; intros l Hl s.
  - destruct l; [|simpl in Hl; lia]. simpl. symmetry. apply app_nil_r.
  - destruct l as [|c rest]; [simpl; symmetry; apply app_nil_r|].
    simpl in Hl.
    assert (Hpush : forall d q rest0,
               length rest0 <= k ->
               no_blanks (gathered (parse_loop rest0
                            (mkp (items s) (current_item s ++ [c]) d q)))
               = no_blanks (gathered s) ++ no_blanks (c :: rest0)).
    { intros d q rest0 Hr. rewrite (IH rest0 Hr), gathered_push.
      rewrite no_blanks_app, <- app_assoc. f_equal.
      change (c :: rest0) with ([c] ++ rest0).
      rewrite no_blanks_app. reflexivity. }
    destruct (eqc c "\") eqn:Eb.
    + destruct rest as [|c2 rest'].
      * rewrite (parse_loop_regular c [] s _ _ (or_intror eq_refl)
                   (backslash_step _ _ _ Eb)).
        apply Hpush. simpl. lia.
      * rewrite (parse_loop_escape _ _ _ _ Eb).
        rewrite (IH rest' ltac:(simpl in Hl; lia)).
        unfold push_char. cbn [items current_item brace_depth in_string].
        rewrite !gathered_push, gathered_state.
        rewrite !no_blanks_app, <- !app_assoc. f_equal.
        change (c :: c2 :: rest') with ([c] ++ [c2] ++ rest').
        rewrite !no_blanks_app. reflexivity.
    + destruct (item_step c (brace_depth s) (in_string s))
        as [[d' q']|] eqn:Es.
      * rewrite (parse_loop_regular c rest s d' q' (or_introl Eb) Es).
        apply Hpush. lia.
      * rewrite (parse_loop_separator _ _ _ Es), skip_blanks_dropwhile.
        destruct (item_step_none _ _ _ Es) as (_ & _ & Hc).
        assert (Hrest : no_blanks (c :: rest)
                        = no_blanks (dropwhile is_blank rest)).
        { unfold no_blanks at 1. simpl. rewrite Hc. simpl.
          symmetry. apply no_blanks_dropwhile. }
        rewrite Hrest.
        pose proof (dropwhile_length is_blank rest) as Hlen.
        destruct (dropwhile is_blank rest) as [|c' r'] eqn:Ed.
        -- rewrite gathered_flush. simpl. symmetry. apply app_nil_r.
        -- rewrite (IH (c' :: r') ltac:(lia)), gathered_flush. reflexivity.
Qed.

Lemma parse_list_items_first list_content :
  Forall (fun it => exists c r, it = c :: r /\ is_blank c = false)
    (_parse_list_items list_content).
Proof.
  unfold _parse_list_items.
  destruct (parse_loop_inv list_content) as [Hitems Hcur].
  set (final := parse_loop list_content pinit) in *.
  assert (Hclosed : Forall (fun it => exists c r, it = c :: r
                                        /\ is_blank c = false)
                      (items final)).
  { eapply Forall_impl; [|exact Hitems]. intros it [Hne Hs].
    exact (item_first_not_blank false it _ Hne Hs). }
  unfold flush. destruct (current_item final) as [|c cur] eqn:Ecur;
    [exact Hclosed|].
  simpl. apply Forall_app. split; [exact Hclosed|].
  constructor; [|constructor].
  apply (item_first_not_blank true (c :: cur) _ ltac:(discriminate) Hcur).
Qed.

Lemma parse_list_items_no_blanks list_content :
  no_blanks (concat (_parse_list_items list_content)) = no_blanks list_content.
Proof.
  unfold _parse_list_items.
  pose proof (parse_loop_gathers (length list_content) list_content
                (Nat.le_refl _) pinit) as H.
  rewrite <- gathered_flush in H. unfold gathered at 1 in H.
  assert (Hcur : current_item (flush (parse_loop list_content pinit)) = []).
  { unfold flush. destruct (current_item (parse_loop list_content pinit))
      eqn:E; [exact E | reflexivity]. }
  rewrite Hcur, app_nil_r in H. exact H.
Qed.

(** The tokenizer loses nothing but spaces and tabs between items: an item
    is never empty and never starts with a space or a tab, and the items
    written one after the other are the content without the spaces and
    tabs that separated them. *)
Theorem parse_list_items_keeps_text :
  forall list_content : str,
    let items := _parse_list_items list_content in
    Forall (fun it => exists c r, it = c :: r /\ is_blank c = false) items
    /\ no_blanks (concat items) = no_blanks list_content.
Proof.
  intros list_content its. unfold its.
  split; [apply parse_list_items_first | apply parse_list_items_no_blanks].
Qed.

Lemma is_blank_isspace c : is_blank c = true -> isspace c = true.
Proof.
  unfold is_blank. intro H. apply orb_true_iff in H.
  destruct H as [H | H]; apply Ascii.eqb_eq in H; subst c; reflexivity.
Qed.

Lemma erase_ws_no_blanks l : erase_ws (no_blanks l) = erase_ws l.
Proof.
  induction l as [|c l IH]; simpl; [reflexivity|].
  destruct (is_blank c) eqn:E; simpl.
  - rewrite (is_blank_isspace _ E). simpl. exact IH.
  - destruct (isspace c); simpl; rewrite IH; reflexivity.
Qed.

Lemma erase_ws_items list_content :
  erase_ws (concat (_parse_list_items list_content)) = erase_ws list_content.
Proof.
  rewrite <- erase_ws_no_blanks, parse_list_items_no_blanks.
  apply erase_ws_no_blanks.
Qed.

Lemma erase_ws_indented (item_indent : str) items :
  erase_ws item_indent = [] ->
  erase_ws (concat (map (fun item => item_indent ++ item) items))
  = erase_ws (concat items).
Proof.
  intro H. induction items as [|it r IH]; simpl; [reflexivity|].
  rewrite !erase_ws_app, H, IH. reflexivity.
Qed.

(** What [_should_expand_list] has found on a line it accepts. *)
Lemma should_expand_parts line :
  _should_expand_list line = true ->
  exists o c,
    find (strip line) "{" = Z.of_nat o
    /\ rfind (strip line) "}" = Z.of_nat c
    /\ o < c < length (strip line)
    /\ nth_error (strip line) c = Some "}"%char
    /\ LIST_LENGTH_THRESHOLD <= length line.
Proof.
  unfold _should_expand_list.
  destruct (length line <? LIST_LENGTH_THRESHOLD) eqn:El; [discriminate|].
  apply Nat.ltb_ge in El.
  destruct (startswith (strip line) (py "#")); [discriminate|].
  destruct (negb (contains (strip line) "{")
            || negb (contains (strip line) "}")); [discriminate|].
  destruct ((find (strip line) "{" =? -1)%Z
            || (rfind (strip line) "}" =? -1)%Z) eqn:Em; [discriminate|].
  apply orb_false_iff in Em. destruct Em as [Eo Ec].
  apply Z.eqb_neq in Eo. apply Z.eqb_neq in Ec.
  destruct (rfind (strip line) "}" <=? find (strip line) "{")%Z eqn:Ele;
    [discriminate|].
  apply Z.leb_gt in Ele. intros _.
  destruct (find_from_range (strip line) "{" 0%Z) as [Hf | Hf];
    [contradiction|].
  fold (find (strip line) "{") in Hf.
  destruct (rfind_spec (strip line) "}") as [[Hr _] | (c & Hc & Hlt & Hn & _)];
    [contradiction|].
  exists (Z.to_nat (find (strip line) "{")), c.
  split; [lia|]. split; [exact Hc|]. split; [lia|]. split; assumption.
Qed.

(** An expanded line, read without white space, is the line it came from. *)
Lemma expand_list_text line :
  _should_expand_list line = true ->
  erase_ws (concat (_expand_list line)) = erase_ws line.
Proof.
  intro H. destruct (should_expand_parts line H) as (o & c & Ho & Hc & Hoc & Hn & _).
  unfold _expand_list. rewrite indent_is_leading_ws, Ho, Hc.
  replace (Z.of_nat o + 1)%Z with (Z.of_nat (S o)) by lia.
  replace (Z.of_nat c + 1)%Z with (Z.of_nat (S c)) by lia.
  rewrite slice_to_firstn by lia.
  rewrite slice_nat by lia.
  rewrite slice_from_skipn.
  rewrite !concat_app. simpl concat. rewrite !app_nil_r.
  rewrite !erase_ws_app.
  rewrite erase_ws_indented
    by (rewrite erase_ws_app, erase_ws_leading, erase_ws_times; reflexivity).
  rewrite erase_ws_items, erase_ws_strip, erase_ws_leading.
  rewrite <- (erase_ws_strip line).
  rewrite (cut_at (strip line) (S o) c "}" ltac:(lia) Hn) at 4.
  rewrite !erase_ws_app. reflexivity.
Qed.

Lemma expand_list_length line : 2 <= length (_expand_list line).
Proof.
  unfold _expand_list. rewrite !length_app. simpl. lia.
Qed.

Lemma expand_loop_text lines :
  erase_ws (concat (expand_loop lines)) = erase_ws (concat lines)
  /\ length lines <= length (expand_loop lines).
Proof.
  induction lines as [|l r [IH1 IH2]]; [split; [reflexivity | simpl; lia]|].
  cbn [expand_loop]. change (concat (l :: r)) with (l ++ concat r).
  destruct (_should_expand_list l) eqn:E.
  - rewrite concat_app, !erase_ws_app, IH1, (expand_list_text l E).
    split; [reflexivity|]. rewrite length_app.
    pose proof (expand_list_length l). simpl. lia.
  - change (concat (l :: expand_loop r)) with (l ++ concat (expand_loop r)).
    rewrite !erase_ws_app, IH1. split; [reflexivity | simpl; lia].
Qed.

(** List expansion changes white space only: its output, read line after
    line without white space, is the input read the same way; and it never
    returns fewer lines than it was given. *)
Theorem expand_long_lists_keeps_text :
  forall lines : list str,
    erase_ws (concat (expand_long_lists lines)) = erase_ws (concat lines)
    /\ length lines <= length (expand_long_lists lines).
Proof.
  intro lines. unfold expand_long_lists. destruct lines as [|l r].
  - split; [reflexivity | lia].
  - apply expand_loop_text.
Qed.

(** Lines shorter than the threshold of 80 characters and comment lines
    are passed through as they are. *)
Theorem expand_long_lists_keeps_short_lines :
  forall lines : list str,
    Forall (fun l => length l < LIST_LENGTH_THRESHOLD
                     \/ startswith (strip l) (py "#") = true) lines ->
    expand_long_lists lines = lines.
Proof.
  intros lines H. unfold expand_long_lists.
  destruct lines as [|l0 r0] eqn:E; [reflexivity|]. rewrite <- E in *.
  clear E l0 r0. induction H as [|l r Hl _ IH]; simpl; [reflexivity|].
  assert (Hno : _should_expand_list l = false).
  { unfold _should_expand_list. destruct Hl as [Hl | Hl].
    - apply Nat.ltb_lt in Hl. rewrite Hl. reflexivity.
    - rewrite Hl. destruct (length l <? LIST_LENGTH_THRESHOLD); reflexivity. }
  rewrite Hno, IH. reflexivity.
Qed.

Lemma expand_long_lists_keeps_short_lines_witness :
  Forall (fun l => length l < LIST_LENGTH_THRESHOLD
                   \/ startswith (strip l) (py "#") = true)
    [py "set x {a b c}";
     py "# a long comment {with a list of words in braces} that goes on and on and on and on"]
  /\ expand_long_lists
       [py "set x {a b c}";
        py "# a long comment {with a list of words in braces} that goes on and on and on and on"]
     = [py "set x {a b c}";
        py "# a long comment {with a list of words in braces} that goes on and on and on and on"].
Proof.
  assert (H : Forall (fun l => length l < LIST_LENGTH_THRESHOLD
                               \/ startswith (strip l) (py "#") = true)
    [py "set x {a b c}";
     py "# a long comment {with a list of words in braces} that goes on and on and on and on"]).
  { constructor; [left; unfold LIST_LENGTH_THRESHOLD; simpl; lia|].
    constructor; [right; reflexivity | constructor]. }
  split; [exact H | exact (expand_long_lists_keeps_short_lines _ H)].
Defined.

End ExpansionFacts.

(** ** The upload check *)

Module WebAppFacts.
Import WebApp PyFacts AlignmentFacts SliceFacts.

Lemma str_eqb_eq a : forall b, str_eqb a b = true <-> a = b.
Proof.
  induction a as [|x a IH]; intros [|y b]; simpl; split; intro H;
    try reflexivity; try discriminate.
  - apply andb_true_iff in H. destruct H as [Hxy Hab].
    apply Ascii.eqb_eq in Hxy. apply IH in Hab. subst. reflexivity.
  - inversion H. subst. unfold eqc. rewrite Ascii.eqb_refl. simpl.
    apply IH. reflexivity.
Qed.

Lemma contains_app s1 s2 c :
  contains (s1 ++ s2) c = contains s1 c || contains s2 c.
Proof. apply existsb_app. Qed.

Lemma contains_here s c : contains (c :: s) c = true.
Proof. unfold contains. simpl. unfold eqc. rewrite Ascii.eqb_refl. reflexivity. Qed.

(** A string is cut at its last occurrence of a character in one way. *)
Lemma last_cut_unique c (a : str) :
  forall a' b b',
    a ++ c :: b = a' ++ c :: b' ->
    contains b c = false -> contains b' c = false ->
    a = a' /\ b = b'.
Proof.
  induction a as [|x a IH]; intros a' b b' H Hb Hb'.
  - destruct a' as [|y a']; simpl in H.
    + inversion H. split; reflexivity.
    + inversion H. subst.
      rewrite contains_app, contains_here, orb_true_r in Hb. discriminate.
  - destruct a' as [|y a']; simpl in H.
    + inversion H. subst.
      rewrite contains_app, contains_here, orb_true_r in Hb'. discriminate.
    + inversion H. subst. destruct (IH a' b b' H2 Hb Hb') as [-> ->].
      split; reflexivity.
Qed.

(** [allowed_file] never raises, and accepts exactly the names that end
    in a dot and an extension without dot that is [tcl] in lower case. *)
Theorem allowed_file_accepts_tcl :
  forall filename : str,
    exists b,
      allowed_file filename = Ok b
      /\ (b = true <->
          exists base ext,
            filename = base ++ py "." ++ ext
            /\ contains ext "." = false
            /\ lower ext = py "tcl").
Proof.
  intro filename. unfold allowed_file, rsplit1.
  destruct (rfind_spec filename ".") as [[Hr Hc] | (k & Hk & Hlt & Hn & Hc)].
  - rewrite Hc. exists false. split; [reflexivity|].
    split; [discriminate|]. intros (base & ext & E & _ & _).
    rewrite E in Hc.
    change (base ++ py "." ++ ext) with (base ++ "."%char :: ext) in Hc.
    rewrite contains_app, contains_here, orb_true_r in Hc. discriminate.
  - assert (Hcut : filename
                   = firstn k filename ++ "."%char :: skipn (S k) filename).
    { pose proof (cut_at filename k k "." (Nat.le_refl k) Hn) as H.
      rewrite Nat.sub_diag in H. exact H. }
    assert (Hdot : contains filename "." = true).
    { rewrite Hcut, contains_app, contains_here. apply orb_true_r. }
    rewrite Hdot, Hk.
    assert (Hne : (Z.of_nat k =? -1)%Z = false) by (apply Z.eqb_neq; lia).
    rewrite Hne.
    replace (Z.of_nat k + 1)%Z with (Z.of_nat (S k)) by lia.
    rewrite slice_from_skipn. simpl.
    exists (str_eqb (lower (skipn (S k) filename)) (py "tcl") || false).
    split; [reflexivity|]. rewrite orb_false_r. split.
    + intro H. apply str_eqb_eq in H.
      exists (firstn k filename), (skipn (S k) filename).
      split; [exact Hcut|]. split; assumption.
    + intros (base & ext & E & Hext & Hlow).
      apply str_eqb_eq.
      rewrite Hcut in E.
      destruct (last_cut_unique "." _ _ _ _ E Hc Hext) as [_ Heq].
      rewrite Heq. exact Hlow.
Qed.

End WebAppFacts.

(** ** The passes together change white space only *)

Module PipelineFacts.
Import TCLFormatter Pipeline WhiteSpace PyFacts AlignmentFacts
  IndentationMore SingleSpaceFacts ExpansionFacts.

Lemma indent_line_text strict_mode st line :
  erase_ws (fst (IndentationEngine.indent_line strict_mode st line))
  = erase_ws line.
Proof.
  unfold IndentationEngine.indent_line.
  destruct (strip line) as [|c r] eqn:E; [reflexivity|].
  destruct (startswith (c :: r) (py "#")); [reflexivity|].
  simpl fst. rewrite erase_ws_app, erase_ws_times, <- E, erase_ws_strip.
  reflexivity.
Qed.

Lemma indent_loop_text strict_mode lines :
  forall st,
    erase_ws (concat (IndentationEngine.indent_loop strict_mode st lines))
    = erase_ws (concat lines).
Proof.
  induction lines as [|l r IH]; intro st; [reflexivity|].
  cbn [IndentationEngine.indent_loop].
  pose proof (indent_line_text strict_mode st l) as H.
  destruct (IndentationEngine.indent_line strict_mode st l) as [out st'].
  simpl in H. simpl concat. rewrite !erase_ws_app, H, IH. reflexivity.
Qed.

Lemma apply_indentation_text strict_mode lines :
  erase_ws (concat (IndentationEngine.apply_indentation strict_mode lines))
  = erase_ws (concat lines).
Proof.
  destruct lines; [reflexivity|]. apply indent_loop_text.
Qed.

Lemma same_but_ws_text a b :
  Forall2 same_but_ws a b -> erase_ws (concat a) = erase_ws (concat b).
Proof.
  induction 1 as [|x y a b [_ Hxy] _ IH]; [reflexivity|].
  simpl. rewrite !erase_ws_app, Hxy, IH. reflexivity.
Qed.

Lemma align_set_commands_text lines out :
  AlignmentEngine.align_set_commands lines = Ok out ->
  erase_ws (concat out) = erase_ws (concat lines).
Proof.
  intro H. symmetry. apply same_but_ws_text.
  unfold AlignmentEngine.align_set_commands in H. destruct lines as [|l r].
  - inversion H. constructor.
  - destruct (AlignmentEngine._find_set_blocks (l :: r)) as [|b bs].
    + inversion H. apply Forall2_same_refl.
    + apply (align_loop_rel (l :: r) (b :: bs) (l :: r) out);
        [apply Forall2_same_refl | exact H].
Qed.

Lemma apply_single_space_text lines :
  erase_ws (concat (AlignmentEngine.apply_single_space lines))
  = erase_ws (concat lines).
Proof.
  symmetry. apply same_but_ws_text.
  unfold AlignmentEngine.apply_single_space. destruct lines as [|l r];
    [constructor|].
  generalize (l :: r). intro ls.
  induction ls; simpl; constructor;
    [apply single_space_line_same | assumption].
Qed.

Lemma expand_long_lists_text lines :
  erase_ws (concat (ListExpansionEngine.expand_long_lists lines))
  = erase_ws (concat lines).
Proof.
  unfold ListExpansionEngine.expand_long_lists. destruct lines as [|l r];
    [reflexivity|].
  apply expand_loop_text.
Qed.

(** Whatever the options, the lines [_format_lines] returns are the lines
    it was given but for white space: read one after the other without
    white space, output and input are the same text. *)
Theorem format_lines_changes_ws_only :
  forall (align_set expand_lists strict_indent : bool)
         (lines out : list str),
    _format_lines align_set expand_lists strict_indent lines = Ok out ->
    erase_ws (concat out) = erase_ws (concat lines).
Proof.
  intros align_set expand_lists strict_indent lines out H.
  unfold _format_lines in H. destruct lines as [|l r];
    [inversion H; reflexivity|].
  assert (Hmid :
    erase_ws (concat
      (if expand_lists
       then ListExpansionEngine.expand_long_lists
              (IndentationEngine.apply_indentation strict_indent (l :: r))
       else IndentationEngine.apply_indentation strict_indent (l :: r)))
    = erase_ws (concat (l :: r))).
  { destruct expand_lists.
    - rewrite expand_long_lists_text. apply apply_indentation_text.
    - apply apply_indentation_text. }
  destruct align_set.
  - rewrite (align_set_commands_text _ _ H). exact Hmid.
  - inversion H. rewrite apply_single_space_text. exact Hmid.
Qed.

Lemma format_lines_changes_ws_only_witness :
  _format_lines true true false
    [py "proc f {} {"; py "set   a   1"; py "set long_name    2"; py "}"]
  = Ok [py "proc f {} {"; py "  set a         1"; py "  set long_name 2";
        py "}"]
  /\ erase_ws (concat [py "proc f {} {"; py "  set a         1";
                       py "  set long_name 2"; py "}"])
     = erase_ws (concat [py "proc f {} {"; py "set   a   1";
                         py "set long_name    2"; py "}"]).
Proof.
  split; [reflexivity|].
  exact (format_lines_changes_ws_only true true false
           [py "proc f {} {"; py "set   a   1"; py "set long_name    2";
            py "}"]
           [py "proc f {} {"; py "  set a         1"; py "  set long_name 2";
            py "}"] eq_refl).
Defined.

End PipelineFacts.

(** ** The indentation depth and the validator's stack *)

Module DepthFacts.
Import SyntaxValidator IndentationEngine IndentationNotions DepthNotions
  PyFacts IndentationFacts.

Lemma plain_cons c r :
  plain (c :: r) ->
  eqc c dquote = false /\ eqc c "\" = false /\ plain r.
Proof.
  unfold plain, contains. cbn [existsb]. intros [Hq Hb].
  apply orb_false_iff in Hq. apply orb_false_iff in Hb.
  destruct Hq as [Hq Hq']. destruct Hb as [Hb Hb'].
  rewrite SliceFacts.eqc_sym in Hq. rewrite SliceFacts.eqc_sym in Hb.
  repeat split; assumption.
Qed.

Lemma plain_app a b : plain (a ++ b) <-> plain a /\ plain b.
Proof.
  unfold plain. rewrite !WebAppFacts.contains_app, !orb_false_iff. tauto.
Qed.

Lemma plain_strip l : plain l -> plain (strip l).
Proof.
  intro H. pose proof (takewhile_dropwhile isspace l) as H1.
  destruct (rstrip_prefix (lstrip l)) as [suf H2].
  fold (lstrip l) in H1. rewrite H2 in H1. fold (strip l) in H1.
  rewrite <- H1 in H. apply plain_app in H. destruct H as [_ H].
  apply plain_app in H. tauto.
Qed.

Lemma occurrences_app c a b :
  occurrences c (a ++ b) = occurrences c a + occurrences c b.
Proof. unfold occurrences. rewrite filter_app, length_app. reflexivity. Qed.

Lemma occurrences_ws c ws :
  isspace c = false -> Forall (fun x => isspace x = true) ws ->
  occurrences c ws = 0.
Proof.
  intros Hc H. unfold occurrences. induction H as [|x r Hx _ IH]; [reflexivity|].
  simpl. destruct (eqc c x) eqn:E; [|exact IH].
  apply Ascii.eqb_eq in E. subst x. congruence.
Qed.

(** A line is its trimmed text between two runs of whitespace. *)
Lemma strip_between l :
  exists ws1 ws2,
    l = ws1 ++ strip l ++ ws2
    /\ Forall (fun x => isspace x = true) ws1
    /\ Forall (fun x => isspace x = true) ws2.
Proof.
  exists (takewhile isspace l),
         (rev (takewhile isspace (rev (lstrip l)))).
  split; [|split].
  - pose proof (takewhile_dropwhile isspace l) as H1.
    pose proof (takewhile_dropwhile isspace (rev (lstrip l))) as H2.
    apply (f_equal (@rev ascii)) in H2.
    rewrite rev_app_distr, rev_involutive in H2.
    fold (rstrip (lstrip l)) in H2. fold (strip l) in H2.
    rewrite H2. exact (eq_sym H1).
  - apply SetCommandFacts.takewhile_all.
  - apply Forall_rev. apply SetCommandFacts.takewhile_all.
Qed.

Lemma occurrences_strip c l :
  isspace c = false -> occurrences c (strip l) = occurrences c l.
Proof.
  intro Hc. destruct (strip_between l) as (ws1 & ws2 & E & H1 & H2).
  rewrite E at 2. rewrite !occurrences_app.
  rewrite (occurrences_ws c ws1 Hc H1), (occurrences_ws c ws2 Hc H2). lia.
Qed.

Lemma occurrences_cons c x r :
  occurrences c (x :: r)
  = if eqc x c then S (occurrences c r) else occurrences c r.
Proof.
  unfold occurrences. simpl. rewrite (SliceFacts.eqc_sym c x).
  destruct (eqc x c); reflexivity.
Qed.

(** *** The brace and quote counts of the indentation engine *)

Lemma count_braces_plain l :
  plain l ->
  forall o c,
    count_braces l false o c
    = ((o + Z.of_nat (occurrences "{" l))%Z,
       (c + Z.of_nat (occurrences "}" l))%Z).
Proof.
  induction l as [|x r IH]; intros Hp o c.
  - simpl. f_equal; lia.
  - destruct (plain_cons _ _ Hp) as (Hq & Hb & Hr).
    cbn [count_braces]. rewrite Hb, Hq. cbn [negb].
    rewrite !occurrences_cons.
    destruct (eqc x "{") eqn:Eo.
    + apply Ascii.eqb_eq in Eo. subst x. cbn [eqc Ascii.eqb].
      rewrite (IH Hr). simpl. f_equal; lia.
    + destruct (eqc x "}") eqn:Ec; rewrite (IH Hr); f_equal; lia.
Qed.

Lemma count_quotes_plain l :
  plain l -> forall k, count_quotes l k = k.
Proof.
  induction l as [|x r IH]; intros Hp k; [reflexivity|].
  destruct (plain_cons _ _ Hp) as (Hq & Hb & Hr).
  cbn [count_quotes]. rewrite Hb, Hq. apply (IH Hr).
Qed.

(** *** The validator's scan of a plain line *)

Lemma scan_plain_cons n i x r v :
  plain (x :: r) ->
  scan n i false (x :: r) v
  = if eqc x "{" then
      scan n (i + 1) false r (mk (_push "{" n i (stack v)) (errors v))
    else if eqc x "}" then scan n (i + 1) false r (pop_report "}" n i v)
    else scan n (i + 1) false r v.
Proof.
  intro Hp. destruct (plain_cons _ _ Hp) as (Hq & Hb & _).
  cbn [scan]. rewrite Hb, Hq. reflexivity.
Qed.

Lemma list_pop_some {A} (l l' : list A) x :
  list_pop l = Some (l', x) -> l = l' ++ [x].
Proof.
  unfold list_pop. destruct (rev l) as [|y r] eqn:E; [discriminate|].
  intro H. inversion H; subst. apply (f_equal (@rev A)) in E.
  rewrite rev_involutive in E. exact E.
Qed.

(** A closer either adds one diagnostic or removes the innermost frame. *)
Lemma pop_report_cases c n i v :
  (exists e, errors (pop_report c n i v) = errors v ++ [e])
  \/ (errors (pop_report c n i v) = errors v
      /\ exists f, stack v = stack (pop_report c n i v) ++ [f]).
Proof.
  unfold pop_report, _pop.
  destruct (list_pop (stack v)) as [[stk' f]|] eqn:E.
  - apply list_pop_some in E.
    destruct (eqc c "}" && negb (eqc (char f) "{"));
      [left; simpl; eexists; reflexivity|].
    destruct (eqc c dquote && negb (eqc (char f) dquote));
      [left; simpl; eexists; reflexivity|].
    right. simpl. split; [reflexivity|]. exists f. exact E.
  - left. simpl. eexists. reflexivity.
Qed.

Lemma scan_plain_grows l :
  plain l ->
  forall n i v, exists extra, errors (scan n i false l v) = errors v ++ extra.
Proof.
  induction l as [|x r IH]; intros Hp n i v.
  - exists []. simpl. symmetry. apply app_nil_r.
  - rewrite (scan_plain_cons _ _ _ _ _ Hp).
    destruct (plain_cons _ _ Hp) as (_ & _ & Hr).
    destruct (eqc x "{");
      [exact (IH Hr n (i + 1) (mk (_push "{" n i (stack v)) (errors v)))|].
    destruct (eqc x "}"); [|apply (IH Hr)].
    destruct (IH Hr n (i + 1) (pop_report "}" n i v)) as [extra He].
    rewrite He.
    destruct (pop_report_cases "}" n i v) as [[e H]|[H _]]; rewrite H.
    + exists ([e] ++ extra). rewrite app_assoc. reflexivity.
    + exists extra. reflexivity.
Qed.

Lemma app_same_nil {A} (l x : list A) : l ++ x = l -> x = [].
Proof.
  intro H. apply (app_inv_head l). rewrite app_nil_r. exact H.
Qed.

(** A clean scan moves the stack height by the braces of the line. *)
Lemma scan_plain_height l :
  plain l ->
  forall n i v,
    errors (scan n i false l v) = errors v ->
    Z.of_nat (length (stack (scan n i false l v)))
    = (Z.of_nat (length (stack v)) + Z.of_nat (occurrences "{" l)
       - Z.of_nat (occurrences "}" l))%Z.
Proof.
  induction l as [|x r IH]; intros Hp n i v He.
  - simpl. unfold occurrences. simpl. lia.
  - rewrite (scan_plain_cons _ _ _ _ _ Hp) in *.
    destruct (plain_cons _ _ Hp) as (_ & _ & Hr).
    rewrite !occurrences_cons.
    destruct (eqc x "{") eqn:Eo.
    + apply Ascii.eqb_eq in Eo. subst x. cbn [eqc Ascii.eqb].
      rewrite (IH Hr _ _ _ He). simpl. unfold _push.
      rewrite length_app. simpl. lia.
    + destruct (eqc x "}") eqn:Ec.
      * destruct (scan_plain_grows r Hr n (i + 1) (pop_report "}" n i v))
          as [extra Hx].
        destruct (pop_report_cases "}" n i v) as [[e H]|[H [f Hf]]].
        -- rewrite Hx, H, <- app_assoc in He. apply app_same_nil in He.
           discriminate He.
        -- rewrite <- H in He. rewrite (IH Hr _ _ _ He).
           rewrite Hf, length_app. simpl. lia.
      * rewrite (IH Hr _ _ _ He). lia.
Qed.

(** A clean scan of a line whose first character after blanks is [}]
    starts from a stack that is not empty. *)
Lemma scan_plain_closing ws :
  Forall (fun x => isspace x = true) ws ->
  forall r n i v,
    plain (ws ++ "}"%char :: r) ->
    errors (scan n i false (ws ++ "}"%char :: r) v) = errors v ->
    1 <= length (stack v).
Proof.
  induction 1 as [|x ws Hx _ IH]; intros r n i v Hp He.
  - simpl app in *. rewrite (scan_plain_cons _ _ _ _ _ Hp) in He.
    cbn [eqc Ascii.eqb] in He. simpl in He.
    destruct (plain_cons _ _ Hp) as (_ & _ & Hr).
    destruct (scan_plain_grows r Hr n (i + 1) (pop_report "}" n i v))
      as [extra Hxx].
    destruct (pop_report_cases "}" n i v) as [[e H]|[H [f Hf]]].
    + rewrite Hxx, H, <- app_assoc in He. apply app_same_nil in He.
      discriminate He.
    + rewrite Hf, length_app. simpl. lia.
  - simpl app in *. rewrite (scan_plain_cons _ _ _ _ _ Hp) in He.
    destruct (plain_cons _ _ Hp) as (_ & _ & Hr).
    destruct (eqc x "{") eqn:Eo;
      [apply Ascii.eqb_eq in Eo; subst x; discriminate Hx|].
    destruct (eqc x "}") eqn:Ec;
      [apply Ascii.eqb_eq in Ec; subst x; discriminate Hx|].
    apply (IH _ _ _ _ Hr He).
Qed.

(** *** One line in both engines *)

Lemma process_line_grows l :
  plain l ->
  forall n v, exists extra, errors (_process_line l n v) = errors v ++ extra.
Proof.
  intros Hp n v. unfold _process_line.
  destruct (startswith (strip l) (py "#")).
  - exists []. symmetry. apply app_nil_r.
  - apply (scan_plain_grows l Hp).
Qed.

Lemma line_step strict_mode st v l n :
  plain l -> in_string st = false ->
  current_level st = Z.of_nat (length (stack v)) ->
  errors (_process_line l n v) = errors v ->
  in_string (snd (indent_line strict_mode st l)) = false
  /\ current_level (snd (indent_line strict_mode st l))
     = Z.of_nat (length (stack (_process_line l n v))).
Proof.
  intros Hp Hq Hl He. unfold indent_line, _process_line in *.
  pose proof (occurrences_strip "{" l eq_refl) as Ho.
  pose proof (occurrences_strip "}" l eq_refl) as Hc.
  pose proof (plain_strip l Hp) as Hps.
  destruct (strip_between l) as (ws1 & ws2 & El & H1 & H2).
  destruct (strip l) as [|c r] eqn:Es.
  - change (startswith [] (py "#")) with false in *. cbv iota in *.
    cbn [snd]. split; [exact Hq|].
    rewrite (scan_plain_height l Hp n 0 v He), Hl, <- Ho, <- Hc.
    unfold occurrences. simpl. lia.
  - destruct (startswith (c :: r) (py "#")) eqn:Ehash.
    + split; assumption.
    + cbn [snd in_string current_level]. split.
      * unfold _update_string_state.
        rewrite (count_quotes_plain _ Hps). rewrite Hq. reflexivity.
      * unfold _update_level_after_line, _calculate_indent_level.
        rewrite Hq, (count_braces_plain _ Hps).
        rewrite IndentationMore.is_continuation_line_false, andb_false_r.
        rewrite (scan_plain_height l Hp n 0 v He), Ho, Hc, Hl.
        destruct (startswith (c :: r) (py "}")) eqn:Eclose; [|lia].
        change (py "}") with ["}"%char] in Eclose.
        apply startswith_cons in Eclose. destruct Eclose as [r' Er].
        rewrite Er in El. simpl in El.
        assert (Hn : 1 <= length (stack v)).
        { rewrite El in Hp, He.
          exact (scan_plain_closing ws1 H1 _ n 0 v Hp He). }
        lia.
Qed.

(** *** All lines *)

Lemma combine_seq_app {A} (a b : list A) :
  forall s,
    combine (seq s (length (a ++ b))) (a ++ b)
    = combine (seq s (length a)) a
      ++ combine (seq (s + length a) (length b)) b.
Proof.
  induction a as [|x a IH]; intro s; simpl.
  - rewrite Nat.add_0_r. reflexivity.
  - rewrite IH. replace (S s + length a) with (s + S (length a)) by lia.
    reflexivity.
Qed.

Lemma process_lines_grows lines :
  Forall plain lines ->
  forall s v,
    exists extra,
      errors (process_lines (combine (seq s (length lines)) lines) v)
      = errors v ++ extra.
Proof.
  induction 1 as [|l r Hl _ IH]; intros s v.
  - exists []. symmetry. apply app_nil_r.
  - simpl. unfold process_lines. simpl. fold (process_lines
      (combine (seq (S s) (length r)) r) (_process_line l s v)).
    destruct (IH (S s) (_process_line l s v)) as [e2 H2].
    destruct (process_line_grows l Hl s v) as [e1 H1].
    exists (e1 ++ e2). rewrite H2, H1, app_assoc. reflexivity.
Qed.

Lemma depth_invariant strict_mode lines :
  Forall plain lines ->
  forall s v st,
    in_string st = false ->
    current_level st = Z.of_nat (length (stack v)) ->
    errors (process_lines (combine (seq s (length lines)) lines) v)
    = errors v ->
    in_string
      (fold_left (fun st l => snd (indent_line strict_mode st l)) lines st)
    = false
    /\ current_level
         (fold_left (fun st l => snd (indent_line strict_mode st l)) lines st)
       = Z.of_nat
           (length
              (stack (process_lines (combine (seq s (length lines)) lines) v))).
Proof.
  induction 1 as [|l r Hl Hr IH]; intros s v st Hq Hd He.
  - simpl. split; assumption.
  - simpl in *. unfold process_lines in *. simpl in *.
    fold (process_lines (combine (seq (S s) (length r)) r)
            (_process_line l s v)) in *.
    destruct (process_lines_grows r Hr (S s) (_process_line l s v))
      as [e2 H2].
    destruct (process_line_grows l Hl s v) as [e1 H1].
    assert (E1 : errors (_process_line l s v) = errors v).
    { rewrite H2, H1, <- app_assoc in He. apply app_same_nil in He.
      apply app_eq_nil in He. destruct He as [He _]. rewrite H1, He.
      apply app_nil_r. }
    destruct (line_step strict_mode st v l s Hl Hq Hd E1) as [Hq' Hd'].
    apply IH; [exact Hq'|exact Hd'|]. rewrite E1. exact He.
Qed.

Lemma plain_not_continued l :
  plain l -> endswith (rstrip l) (py "\") = false.
Proof.
  intros [_ Hb]. destruct (endswith (rstrip l) (py "\")) eqn:E; [|reflexivity].
  unfold endswith in E. change (rev (py "\")) with ["\"%char] in E.
  apply startswith_cons in E. destruct E as [r E].
  destruct (rstrip_prefix l) as [suf Hs].
  apply (f_equal (@rev ascii)) in E. rewrite rev_involutive in E.
  simpl in E. rewrite Hs, E, !WebAppFacts.contains_app in Hb.
  rewrite (WebAppFacts.contains_here [] "\"), orb_true_r in Hb.
  discriminate Hb.
Qed.

Lemma folded_plain lines :
  Forall plain lines ->
  _handle_line_continuations lines = combine (seq 1 (length lines)) lines.
Proof.
  intro H. apply NumberingFacts.folding_identity.
  induction H as [|l r Hl Hr IH]; [constructor|].
  destruct r as [|l' r']; [constructor|].
  change (removelast (l :: l' :: r')) with (l :: removelast (l' :: r')).
  constructor; [exact (plain_not_continued l Hl)|exact IH].
Qed.

(** On input without quotes and backslashes that [validate] accepts, the
    indentation engine is outside a string after every line, its depth
    after any number of lines is the height of the validator's stack after
    the same lines (so it is never negative), and it is 0 after the last
    line. *)
Theorem indentation_depth_is_stack_height :
  forall (strict_mode : bool) (pre post : list str),
    Forall plain (pre ++ post) ->
    validate (pre ++ post) = [] ->
    in_string (state_after strict_mode pre) = false
    /\ current_level (state_after strict_mode pre)
       = Z.of_nat
           (length
              (stack (process_lines (_handle_line_continuations pre)
                        SyntaxValidator.init)))
    /\ current_level (state_after strict_mode (pre ++ post)) = 0%Z.
Proof.
  intros strict_mode pre post Hp Hv.
  pose proof (proj1 (Forall_app _ _ _) Hp) as [Hpre Hpost].
  unfold validate in Hv. rewrite ValidatorMore.check_remaining_errors in Hv.
  apply app_eq_nil in Hv. destruct Hv as [He Hs].
  apply map_eq_nil in Hs. rewrite (folded_plain _ Hp) in He, Hs.
  assert (Hall :
    current_level (state_after strict_mode (pre ++ post)) = 0%Z).
  { destruct (depth_invariant strict_mode (pre ++ post) Hp 1
                SyntaxValidator.init IndentationEngine.init
                eq_refl eq_refl He) as [_ H].
    unfold state_after. rewrite H, Hs. reflexivity. }
  rewrite combine_seq_app in He. unfold process_lines in He.
  rewrite fold_left_app in He.
  fold (process_lines (combine (seq 1 (length pre)) pre) SyntaxValidator.init)
    in He.
  fold (process_lines (combine (seq (1 + length pre) (length post)) post)
          (process_lines (combine (seq 1 (length pre)) pre)
             SyntaxValidator.init)) in He.
  destruct (process_lines_grows post Hpost (1 + length pre)
              (process_lines (combine (seq 1 (length pre)) pre)
                 SyntaxValidator.init)) as [extra Hx].
  rewrite Hx in He. apply app_eq_nil in He. destruct He as [He _].
  rewrite (folded_plain _ Hpre).
  destruct (depth_invariant strict_mode pre Hpre 1
              SyntaxValidator.init IndentationEngine.init
              eq_refl eq_refl He) as [H1 H2].
  unfold state_after. split; [exact H1|]. split; [exact H2|exact Hall].
Qed.

Lemma indentation_depth_is_stack_height_witness :
  Forall plain ([py "proc f {} {"; py "  if {1} {"] ++ [py "  }"; py "}"])
  /\ validate ([py "proc f {} {"; py "  if {1} {"] ++ [py "  }"; py "}"]) = []
  /\ in_string (state_after false [py "proc f {} {"; py "  if {1} {"]) = false
  /\ current_level (state_after false [py "proc f {} {"; py "  if {1} {"])
     = Z.of_nat
         (length
            (stack
               (process_lines
                  (_handle_line_continuations
                     [py "proc f {} {"; py "  if {1} {"])
                  SyntaxValidator.init)))
  /\ current_level
       (state_after false
          ([py "proc f {} {"; py "  if {1} {"] ++ [py "  }"; py "}"]))
     = 0%Z.
Proof.
  assert (Hp : Forall plain
            ([py "proc f {} {"; py "  if {1} {"] ++ [py "  }"; py "}"])).
  { repeat constructor. }
  split; [exact Hp|]. split; [vm_compute; reflexivity|].
  apply (indentation_depth_is_stack_height false
           [py "proc f {} {"; py "  if {1} {"] [py "  }"; py "}"] Hp).
  vm_compute. reflexivity.
Defined.

End DepthFacts.

(** ** Validation and the logical lines of the input *)

Module LogicalLineFacts.
Import SyntaxValidator Balance ValidatorNotions DelimiterNotions LogicalLines
  WholeText BalanceFacts.

Lemma joined_nonempty group text :
  joined group text -> exists g more, group = g :: more.
Proof. destruct 1; eauto. Qed.

(** The loop of the validator takes a group of joined lines in one go. *)
Lemma continue_line_joined group text :
  joined group text ->
  forall g more, group = g :: more ->
  forall line_num i rest,
    continue_line line_num g i (more ++ rest)
    = continue_line line_num text (i + length more) rest.
Proof.
  induction 1 as [l | l next more0 text Hc _ IH];
    intros g more E line_num i rest; inversion E; subst.
  - simpl. rewrite Nat.add_0_r. reflexivity.
  - cbn [app continue_line]. unfold continued in Hc. rewrite Hc.
    rewrite (IH _ _ eq_refl). f_equal. simpl. lia.
Qed.

(** The logical lines of an input are those the validator folds. *)
Lemma logical_sound k lines folded :
  logical k lines folded -> continuations_from k lines = folded.
Proof.
  induction 1 as [k | k group text rest folded Hj Hr _ IH]; [reflexivity|].
  destruct (joined_nonempty _ _ Hj) as (g & more & E). subst group.
  cbn [app continuations_from].
  rewrite (continue_line_joined _ _ Hj g more eq_refl).
  destruct rest as [|next rest'].
  - cbn [continue_line]. rewrite <- IH. reflexivity.
  - destruct Hr as [Hr|Hr]; [discriminate|].
    cbn [continue_line]. unfold continued in Hr. rewrite Hr.
    f_equal. rewrite <- IH. cbn [continuations_from length].
    replace (k + S (length more)) with (k + length more + 1) by lia.
    reflexivity.
Qed.

Lemma group_of rest0 :
  forall g, exists more rest text,
    rest0 = more ++ rest /\ joined (g :: more) text
    /\ (rest = [] \/ continued text = false).
Proof.
  induction rest0 as [|next r IH]; intro g.
  - exists [], [], g. split; [reflexivity|].
    split; [constructor | left; reflexivity].
  - destruct (continued g) eqn:E.
    + destruct (IH (removelast (rstrip g) ++ next))
        as (more & rest & text & H1 & H2 & H3).
      exists (next :: more), rest, text. subst r.
      split; [reflexivity|]. split; [|exact H3].
      constructor; assumption.
    + exists [], (next :: r), g. split; [reflexivity|].
      split; [constructor | right; exact E].
Qed.

Lemma logical_total n :
  forall lines, length lines <= n ->
  forall k, exists folded, logical k lines folded.
Proof.
  induction n as [|n IH]; intros lines Hn k.
  - destruct lines; [|simpl in Hn; lia]. exists []. constructor.
  - destruct lines as [|g rest0]; [exists []; constructor|].
    destruct (group_of rest0 g) as (more & rest & text & H1 & H2 & H3).
    subst rest0. simpl in Hn. rewrite length_app in Hn.
    destruct (IH rest ltac:(lia) (k + length (g :: more))) as [folded Hf].
    exists ((k + 1, text) :: folded).
    change (g :: more ++ rest) with ((g :: more) ++ rest).
    constructor; assumption.
Qed.

(** Every input has logical lines, and only those the validator folds. *)
Lemma folding_logical lines :
  logical_lines lines (_handle_line_continuations lines).
Proof.
  destruct (logical_total (length lines) lines (le_n _) 0) as [folded H].
  unfold logical_lines, _handle_line_continuations.
  rewrite (logical_sound _ _ _ H). exact H.
Qed.

Lemma validate_logical lines folded :
  logical_lines lines folded ->
  validate lines
  = errors (_check_remaining_stack (run (flat_map line_delims folded) init)).
Proof.
  intro H. rewrite validate_run. unfold delims, _handle_line_continuations.
  rewrite (logical_sound _ _ _ H). reflexivity.
Qed.

(** The physical lines before a logical line are those of the logical
    lines before it. *)
Lemma logical_split k lines folded :
  logical k lines folded ->
  forall f1 n text f2,
    folded = f1 ++ (n, text) :: f2 ->
    exists pre group rest,
      lines = pre ++ group ++ rest
      /\ logical k pre f1
      /\ joined group text
      /\ n = k + length pre + 1.
Proof.
  induction 1 as [k | k group text0 rest folded Hj Hr Hl IH];
    intros f1 n text f2 E.
  - destruct f1; discriminate.
  - destruct f1 as [|x f1']; simpl in E; inversion E; subst.
    + exists [], group, rest. split; [reflexivity|].
      split; [constructor|]. split; [exact Hj | simpl; lia].
    + destruct (IH f1' n text f2 eq_refl)
        as (pre & grp & rst & H1 & H2 & H3 & H4).
      exists (group ++ pre), grp, rst.
      split; [rewrite H1, <- app_assoc; reflexivity|].
      split; [|split; [exact H3 | rewrite length_app; lia]].
      constructor; [exact Hj | | exact H2].
      destruct Hr as [Hr|Hr]; [|right; exact Hr].
      left. rewrite Hr in H1. symmetry in H1.
      apply app_eq_nil in H1. tauto.
Qed.

Lemma line_delims_line nl d :
  In d (line_delims nl) -> delim_line d = fst nl.
Proof.
  unfold line_delims.
  destruct (startswith (strip (snd nl)) (py "#")); [intros []|].
  intro H.
  pose proof (NumberingFacts.delims_from_line (length (snd nl)) (snd nl)
                (le_n _) (fst nl) 0 false) as Hall.
  rewrite Forall_forall in Hall. exact (Hall d H).
Qed.

(** *** Balanced input *)

(** C6, as stated, fails.  A string written over two lines pairs its
    quotes, and a [{] closed on the line after one that ends in an escaped
    backslash has its [}]; [validate] reports both inputs: the two quotes
    as unmatched, since a quoted region ends with its line, and the [{]
    as unmatched, since the two lines are folded into one and the [}]
    comes after the backslash left. *)
Lemma validate_reports_balanced_text :
  balanced_text [py "puts " ++ [dquote; "a"%char]; ["b"%char; dquote]]
  /\ validate [py "puts " ++ [dquote; "a"%char]; ["b"%char; dquote]]
     = [mkSyntaxError 1 (py "Unmatched opening quote") (py "quote");
        mkSyntaxError 2 (py "Unmatched opening quote") (py "quote")]
  /\ balanced_text [py "puts {a \\"; py "}"]
  /\ validate [py "puts {a \\"; py "}"]
     = [mkSyntaxError 1 (py "Unmatched opening brace") (py "brace")].
Proof.
  split; [exact (@balanced_quotes 1 5 2 1 [] balanced_nil)|].
  split; [reflexivity|].
  split; [exact (@balanced_braces 1 5 2 0 [] [] balanced_nil balanced_nil)|].
  reflexivity.
Qed.

(** C6, amended.  When the logical lines of the input are balanced, a
    quoted region ending with its logical line at the latest and a line
    being continued whenever the text gathered ends in a backslash,
    [validate] returns the empty diagnostic list. *)
Theorem validate_balanced :
  forall (lines : list str) (folded : list (nat * str)),
    logical_lines lines folded ->
    balanced_lines folded ->
    validate lines = [].
Proof.
  intros lines folded Hl Hb.
  rewrite (validate_logical _ _ Hl). unfold balanced_lines in Hb.
  rewrite (balanced_run _ Hb). reflexivity.
Qed.

Lemma validate_balanced_witness :
  logical_lines
    [py "if {$x > 5} {"; py "  puts {a b} \"; py "  c ;# done";
     py "# a { comment"; py "}"]
    [(1, py "if {$x > 5} {"); (2, py "  puts {a b}   c ;# done");
     (4, py "# a { comment"); (5, py "}")]
  /\ balanced_lines
       [(1, py "if {$x > 5} {"); (2, py "  puts {a b}   c ;# done");
        (4, py "# a { comment"); (5, py "}")]
  /\ validate
       [py "if {$x > 5} {"; py "  puts {a b} \"; py "  c ;# done";
        py "# a { comment"; py "}"] = [].
Proof.
  assert (Hl : logical_lines
    [py "if {$x > 5} {"; py "  puts {a b} \"; py "  c ;# done";
     py "# a { comment"; py "}"]
    [(1, py "if {$x > 5} {"); (2, py "  puts {a b}   c ;# done");
     (4, py "# a { comment"); (5, py "}")]).
  { exact (logical_line 0 [py "if {$x > 5} {"] _
             [py "  puts {a b} \"; py "  c ;# done"; py "# a { comment";
              py "}"] _
             (joined_last _) (or_intror eq_refl)
          (logical_line 1 [py "  puts {a b} \"; py "  c ;# done"]
             (py "  puts {a b}   c ;# done")
             [py "# a { comment"; py "}"] _
             (joined_next (py "  puts {a b} \") (py "  c ;# done") []
                (py "  puts {a b}   c ;# done") eq_refl (joined_last _))
             (or_intror eq_refl)
          (logical_line 3 [py "# a { comment"] _ [py "}"] _
             (joined_last _) (or_intror eq_refl)
          (logical_line 4 [py "}"] _ [] _
             (joined_last _) (or_introl eq_refl)
          (logical_end 5))))). }
  assert (Hb : balanced_lines
    [(1, py "if {$x > 5} {"); (2, py "  puts {a b}   c ;# done");
     (4, py "# a { comment"); (5, py "}")]).
  { exact (@balanced_braces 1 3 1 10 [] _ balanced_nil
             (@balanced_braces 1 12 5 0 _ []
                (@balanced_braces 2 7 2 11 [] [] balanced_nil balanced_nil)
                balanced_nil)). }
  split; [exact Hl|]. split; [exact Hb|].
  exact (validate_balanced _ _ Hl Hb).
Defined.

(** *** One unclosed brace *)

(** C5, as stated, fails.  With one [{] left unclosed beside a string
    written over two lines, [validate] returns three diagnostics: it
    reports the two quotes as well.  And a [{] on the line after one that
    ends in an escaped backslash is reported at the number of that line
    before it, into which it is folded. *)
Lemma validate_unclosed_brace_in_text :
  one_unclosed_brace_text
    [py "if {"; py "puts " ++ [dquote; "a"%char]; ["b"%char; dquote]] 1 3
  /\ validate
       [py "if {"; py "puts " ++ [dquote; "a"%char]; ["b"%char; dquote]]
     = [mkSyntaxError 1 (py "Unmatched opening brace") (py "brace");
        mkSyntaxError 2 (py "Unmatched opening quote") (py "quote");
        mkSyntaxError 3 (py "Unmatched opening quote") (py "quote")]
  /\ one_unclosed_brace_text [py "set p C:\\"; py "if {"] 2 3
  /\ validate [py "set p C:\\"; py "if {"]
     = [mkSyntaxError 1 (py "Unmatched opening brace") (py "brace")].
Proof.
  split.
  { exists [], [OpenQuote 2 5; CloseQuote 3 1].
    split; [reflexivity|]. split; [constructor|].
    exact (@balanced_quotes 2 5 3 1 [] balanced_nil). }
  split; [reflexivity|]. split.
  { exists [], []. split; [reflexivity|]. split; constructor. }
  reflexivity.
Qed.

(** C5, amended.  When the logical lines of the input have exactly one
    [{] left unclosed and no other defect, a quoted region ending with its
    logical line at the latest and a line being continued whenever the
    text gathered ends in a backslash, [validate] returns one diagnostic:
    an unmatched opening brace, of type [brace], at the number of the
    logical line of that [{], which is the 1-based number of the first
    physical line joined into it. *)
Theorem validate_one_unclosed_brace :
  forall (lines : list str) (folded : list (nat * str)) (line col : nat),
    logical_lines lines folded ->
    one_unclosed_brace folded line col ->
    validate lines
    = [mkSyntaxError line (py "Unmatched opening brace") (py "brace")]
    /\ exists text,
         starts_at lines folded line text
         /\ In (OpenBrace line col) (line_delims (line, text)).
Proof.
  intros lines folded line col Hl (before & after & Hd & Hb & Ha). split.
  - rewrite (validate_logical _ _ Hl), Hd.
    change (before ++ OpenBrace line col :: after)
      with (before ++ [OpenBrace line col] ++ after).
    rewrite !run_app, (balanced_run _ Hb). simpl.
    rewrite (balanced_run _ Ha). reflexivity.
  - assert (Hin : In (OpenBrace line col) (flat_map line_delims folded))
      by (rewrite Hd; apply in_elt).
    apply in_flat_map in Hin. destruct Hin as ([n text] & Hnl & Hdl).
    pose proof (line_delims_line _ _ Hdl) as Hn. simpl in Hn. subst n.
    exists text. split; [|exact Hdl].
    apply in_split in Hnl. destruct Hnl as (f1 & f2 & Ef).
    destruct (logical_split _ _ _ Hl f1 line text f2 Ef)
      as (pre & group & rest & H1 & H2 & H3 & H4).
    exists pre, group, rest, f1, f2.
    split; [exact H1|]. split; [exact Ef|]. split; [exact H2|].
    split; [exact H3 | exact H4].
Qed.

Lemma validate_one_unclosed_brace_witness :
  logical_lines
    [py "set a 1"; py "if {$x} \"; py "{";
     py "puts " ++ [dquote] ++ py "hi" ++ [dquote]]
    [(1, py "set a 1"); (2, py "if {$x} {");
     (4, py "puts " ++ [dquote] ++ py "hi" ++ [dquote])]
  /\ one_unclosed_brace
       [(1, py "set a 1"); (2, py "if {$x} {");
        (4, py "puts " ++ [dquote] ++ py "hi" ++ [dquote])] 2 8
  /\ validate
       [py "set a 1"; py "if {$x} \"; py "{";
        py "puts " ++ [dquote] ++ py "hi" ++ [dquote]]
     = [mkSyntaxError 2 (py "Unmatched opening brace") (py "brace")]
  /\ exists text,
       starts_at
         [py "set a 1"; py "if {$x} \"; py "{";
          py "puts " ++ [dquote] ++ py "hi" ++ [dquote]]
         [(1, py "set a 1"); (2, py "if {$x} {");
          (4, py "puts " ++ [dquote] ++ py "hi" ++ [dquote])] 2 text
       /\ In (OpenBrace 2 8) (line_delims (2, text)).
Proof.
  assert (Hl : logical_lines
    [py "set a 1"; py "if {$x} \"; py "{";
     py "puts " ++ [dquote] ++ py "hi" ++ [dquote]]
    [(1, py "set a 1"); (2, py "if {$x} {");
     (4, py "puts " ++ [dquote] ++ py "hi" ++ [dquote])]).
  { exact (logical_line 0 [py "set a 1"] _
             [py "if {$x} \"; py "{";
              py "puts " ++ [dquote] ++ py "hi" ++ [dquote]] _
             (joined_last _) (or_intror eq_refl)
          (logical_line 1 [py "if {$x} \"; py "{"] (py "if {$x} {")
             [py "puts " ++ [dquote] ++ py "hi" ++ [dquote]] _
             (joined_next (py "if {$x} \") (py "{") [] (py "if {$x} {")
                eq_refl (joined_last _))
             (or_intror eq_refl)
          (logical_line 3 [py "puts " ++ [dquote] ++ py "hi" ++ [dquote]] _
             [] _ (joined_last _) (or_introl eq_refl)
          (logical_end 4)))). }
  assert (Hb : one_unclosed_brace
    [(1, py "set a 1"); (2, py "if {$x} {");
     (4, py "puts " ++ [dquote] ++ py "hi" ++ [dquote])] 2 8).
  { exists [OpenBrace 2 3; CloseBrace 2 6], [OpenQuote 4 5; CloseQuote 4 8].
    split; [reflexivity|]. split.
    - exact (@balanced_braces 2 3 2 6 [] [] balanced_nil balanced_nil).
    - exact (@balanced_quotes 4 5 4 8 [] balanced_nil). }
  split; [exact Hl|]. split; [exact Hb|].
  exact (validate_one_unclosed_brace _ _ 2 8 Hl Hb).
Defined.

End LogicalLineFacts.
